(** * trendspy-js: request orchestration and protocol layer

    A shallow embedding of the timeframe utilities
    ([timeframe_utils.js]), the escape decoder ([utils.js]) and the
    [Trends] client ([client.js]: [_parseProtectedJson], [_get],
    [_encodeItems], [_extractEmbeddedData]), followed by the properties
    proved about them.

    Conventions of the embedding.
    - A JavaScript string is the list of its UTF-16 code units
      ([jsstring]); [js "..."] turns an ASCII literal into one.
    - A JavaScript number is an integer of [Z]; the programs below only
      compute with whole milliseconds, counts and lengths, where doubles
      are exact as long as magnitudes stay below 2^53.
    - [throw] becomes the [Err] case of [result]; a value that the
      program treats as [undefined] or [null] is [None].
    - The wall clock, the timer and the HTTP layer are inputs: every
      function that reads them takes the reading as an argument. *)

From Stdlib Require Import Ascii String.
From Stdlib Require Import ZArith List Bool Lia Arith PeanoNat.
Import ListNotations.

Set Implicit Arguments.
Set Warnings "-register-all".

(* ================================================================== *)
(** * Part I.  The embedding                                           *)
(* ================================================================== *)

(** ** JavaScript strings *)

Definition jsstring := list N.

Definition ch (a : ascii) : N := N_of_ascii a.
Arguments ch a%_char.

Definition js (s : String.string) : jsstring :=
  map ch (String.list_ascii_of_string s).
Arguments js s%_string.

Fixpoint jseq (a b : jsstring) : bool :=
  match a, b with
  | [], [] => true
  | x :: a', y :: b' => N.eqb x y && jseq a' b'
  | _, _ => false
  end.

(** [s.includes(c)] for a one-character needle. *)
Definition includes (c : N) (s : jsstring) : bool := existsb (N.eqb c) s.

(** [s.startsWith(p)]: the rest of [s] after [p], when [p] is a prefix. *)
Fixpoint strip_prefix (p s : jsstring) : option jsstring :=
  match p, s with
  | [], _ => Some s
  | x :: p', y :: s' => if N.eqb x y then strip_prefix p' s' else None
  | _ :: _, [] => None
  end.

(** [s.replace(p, r)] with a string pattern: the first occurrence only. *)
Fixpoint replace (p r s : jsstring) : jsstring :=
  match strip_prefix p s with
  | Some rest => r ++ rest
  | None => match s with
            | [] => []
            | c :: s' => c :: replace p r s'
            end
  end.

(** [s.split(sep)] for a one-character separator: never empty. *)
Fixpoint split (sep : N) (s : jsstring) : list jsstring :=
  match s with
  | [] => [[]]
  | c :: s' =>
      if N.eqb c sep then [] :: split sep s'
      else match split sep s' with
           | [] => [[c]]
           | w :: ws => (c :: w) :: ws
           end
  end.

Definition isDigit (c : N) : bool := (N.leb 48 c && N.leb c 57)%bool.

(** [parseInt] of a string of decimal digits. *)
Definition parseInt (ds : jsstring) : Z :=
  fold_left (fun acc c => 10 * acc + (Z.of_N c - 48))%Z ds 0%Z.

(** ** Thrown errors

    The source throws plain [Error] objects told apart by their message;
    each message is a constructor here, with the values the message
    interpolates.  The specification's names for them are given in the
    comments. *)

Inductive error : Type :=
  (* "Invalid response: status ..., content type '...'" (ResponseFormatError) *)
  | InvalidResponse (status : Z) (contentType : jsstring)
  (* "Failed to parse JSON data" (ResponseFormatError) *)
  | FailedToParseJSON
  (* a SyntaxError of JSON.parse that nothing catches *)
  | JSONSyntaxError
  (* "Ambiguous input sizes: ... lengths a, b, c" (AmbiguousCombinationSize) *)
  | AmbiguousInputSizes (lengths : list nat)
  (* "Failed after N retries" (RequestExhausted) *)
  | FailedAfterRetries (maxRetries : nat)
  (* the error of a rejected request, rethrown *)
  | TransportError (status : option Z)
  (* "Invalid timeframe format: ..." (InvalidTimeframeFormat) *)
  | InvalidTimeframeFormat (timeframe : jsstring)
  (* "Could not process timeframe: ..." (InvalidTimeframeFormat) *)
  | CouldNotProcessTimeframe (timeframe : jsstring)
  (* "Date difference cannot exceed 7 days for format with hours: ..."
     (ExceedsMaxHourRange) *)
  | DateDifferenceExceeds7Days (datePart1 datePart2 : jsstring)
  (* "Offset cannot exceed 7 days for format with time: ..."
     (ExceedsMaxHourRange) *)
  | OffsetExceeds7Days (datePart1 offsetPart : jsstring)
  (* Luxon's InvalidUnitError, for a duration whose unit is not one *)
  | InvalidUnitError
  (* a TypeError of the runtime (destructuring null, reading a property
     of undefined) *)
  | TypeError
  (* "Error: Different resolutions detected for the timeframes: ..."
     (DifferentResolutions): timeframe, delta, resolution, range of
     every element *)
  | DifferentResolutions
      (report : list (jsstring * option Z * jsstring * jsstring))
  (* "Error: The maximum delta ... should be less than twice the minimum
     delta ..." (ResolutionRatioTooLarge) *)
  | RatioTooLarge (maxDuration : option Z) (maxTimeframe : jsstring)
                  (minDuration : option Z) (minTimeframe : jsstring).

Inductive result (A : Type) : Type :=
  | OK (a : A)
  | Err (e : error).
Arguments OK {A} a.
Arguments Err {A} e.

Definition bind {A B} (m : result A) (f : A -> result B) : result B :=
  match m with
  | OK a => f a
  | Err e => Err e
  end.

Notation "x <- m ;; k" := (bind m (fun x => k))
  (at level 61, m at next level, right associativity).

(** [xs.map(f)] for an [f] that may throw: the first failure wins. *)
Fixpoint mapM {A B} (f : A -> result B) (xs : list A) : result (list B) :=
  match xs with
  | [] => OK []
  | x :: xs' => y <- f x ;; ys <- mapM f xs' ;; OK (y :: ys)
  end.

(** ** RequestEncoder: [Trends._encodeItems] *)

Module Encoder.
Section Items.

(** The type of the JavaScript values that are passed as keywords,
timeframes and geos. *)
Variable V : Type.

(** An argument is a scalar or an array. *)
Inductive arg : Type :=
| Scalar (v : V)
| Arr (l : list V).

(** [item => Array.isArray(item) ? item : [item]] *)
Definition toArray (item : arg) : list V :=
match item with
| Scalar v => [v]
| Arr l => l
end.

(** [maxLen % len === 0]: the remainder by zero is NaN, which is not 0. *)
Definition divides (maxLen len : nat) : bool :=
match len with
| O => false
| S _ => Nat.eqb (Nat.modulo maxLen len) 0
end.

(** [while (arr.length < maxLen) arr.push(...arr)].  [None] when the
loop is still running after [fuel] rounds. *)
Fixpoint grow (fuel maxLen : nat) (arr : list V) : option (list V) :=
if Nat.ltb (length arr) maxLen then
match fuel with
| O => None
| S fuel' => grow fuel' maxLen (arr ++ arr)
end
else Some arr.

(** One comparison item; a field read past the end of its array is
[undefined]. *)
Record item : Type := mkItem {
keyword : option V;
time : option V;
geo : option V
}.

(** [data[0].map((_, i) => ({keyword: data[0][i], time: data[1][i],
geo: data[2][i]}))] *)
Definition build (d0 d1 d2 : list V) : list item :=
map (fun i => mkItem (nth_error d0 i) (nth_error d1 i) (nth_error d2 i))
  (seq 0 (length d0)).

(** The three arrays are distinct objects here.  When a caller passes
one array twice the in-place doubling of the first use already
lengthens the second, which then holds what its own doubling would
have produced: the returned items are the same. *)
Definition _encodeItems (fuel : nat) (keywords timeframe geo : arg)
: option (result (list item)) :=
let data := map toArray [keywords; timeframe; geo] in
let lengths := map (@length V) data in
let maxLen := list_max lengths in
if negb (forallb (divides maxLen) lengths) then
Some (Err (AmbiguousInputSizes lengths))
else
match grow fuel maxLen (toArray keywords),
      grow fuel maxLen (toArray timeframe),
      grow fuel maxLen (toArray geo) with
| Some d0, Some d1, Some d2 => Some (OK (build d0 d1 d2))
| _, _, _ => None
end.

(** The list after [k] doublings (specification side). *)
Fixpoint doubled (k : nat) (arr : list V) : list V :=
match k with
| O => arr
| S k' => doubled k' (arr ++ arr)
end.

End Items.
End Encoder.

(** ** SessionTransport: [Trends._get]

    One pass through the retry loop reads the clock, may wait in the
    throttle, sends the request and reacts to the answer.  What the
    surroundings do during a pass is an [attempt]: the time that went by
    since the previous pass ended ([gap], which covers the session
    warm-up, the latency of the previous request and the caller's own
    pauses), the time by which the throttle's timer fires late ([lag]),
    and the answer of [this.session.get] ([response]).  The timer of
    [await new Promise(resolve => setTimeout(resolve, t))] advances the
    clock by [t] milliseconds. *)

Module Transport.

Inductive outcome : Type :=
  | Resolved (status : Z)            (* the promise resolves *)
  | Rejected (status : option Z).    (* it rejects; error.response?.status *)

Record attempt : Type := mkAttempt {
  gap : Z;
  lag : Z;
  response : outcome
}.

(** What a pass leaves in the trace, newest first. *)
Inductive event : Type :=
  | Throttled (ms : Z)         (* the throttle's setTimeout(resolve, sleepTime) *)
  | Request (now : Z)          (* this.session.get(url, ...), and the clock then *)
  | Backoff (seconds : Z)      (* setTimeout(resolve, waitTime * 1000) *)
  | Reinit                     (* this._initSession() after a 401 or 403 *)
  | Advisory.                  (* console.warn("... Consider increasing requestDelay ...") *)

Record client : Type := mkClient {
  requestDelayMs : Z;            (* this.requestDelay * 1000 *)
  maxRetries : nat;              (* this.maxRetries *)
  lastRequestTimes : list Z;     (* a Set: insertion order, no duplicates *)
  clock : Z;                     (* Date.now() *)
  passes : nat;                  (* passes through the loop so far *)
  trace : list event
}.

(** [new Trends(options)]: [this.lastRequestTimes = new Set([0, 1])]. *)
Definition newTrends (requestDelayMs : Z) (maxRetries : nat) (now : Z) : client :=
  mkClient requestDelayMs maxRetries [0; 1]%Z now 0 [].

(** [Math.min(...set)]; [None] is the [Infinity] of an empty set. *)
Definition Math_min (s : list Z) : option Z :=
  match s with
  | [] => None
  | x :: s' => Some (fold_left Z.min s' x)
  end.

(** [new Set(xs)]: the first occurrence of every value, in order. *)
Fixpoint newSet (seen xs : list Z) : list Z :=
  match xs with
  | [] => []
  | x :: xs' =>
      if existsb (Z.eqb x) seen then newSet seen xs'
      else x :: newSet (x :: seen) xs'
  end.

Definition sleep (ms : Z) (c : client) : client :=
  mkClient (requestDelayMs c) (maxRetries c) (lastRequestTimes c)
           (clock c + ms) (passes c) (trace c).

Definition emit (e : event) (c : client) : client :=
  mkClient (requestDelayMs c) (maxRetries c) (lastRequestTimes c)
           (clock c) (passes c) (e :: trace c).

(** Lines 251-265: the throttle. *)
Definition throttle (a : attempt) (c : client) : client :=
  if Z.eqb (requestDelayMs c) 0 then c
  else
    let now := clock c in
    match Math_min (lastRequestTimes c) with
    | Some minTime =>
        let sleepTime := Z.max 0 (requestDelayMs c - (now - minTime)) in
        let c1 := if Z.ltb 0 sleepTime
                  then sleep (sleepTime + lag a) (emit (Throttled sleepTime) c)
                  else c in
        mkClient (requestDelayMs c1) (maxRetries c1)
                 (newSet [] (filter (fun t => negb (Z.eqb t minTime))
                                    (lastRequestTimes c1) ++ [clock c1]))
                 (clock c1) (passes c1) (trace c1)
    | None =>
        (* an empty Set: sleepTime is Infinity, which the timer of
           Node.js shortens to 1 ms; nothing is filtered out *)
        let c1 := sleep (1 + lag a) c in
        mkClient (requestDelayMs c1) (maxRetries c1)
                 (newSet [] (lastRequestTimes c1 ++ [clock c1]))
                 (clock c1) (passes c1) (trace c1)
    end.

Definition begin_pass (a : attempt) (c : client) : client :=
  mkClient (requestDelayMs c) (maxRetries c) (lastRequestTimes c)
           (clock c + gap a) (S (passes c)) (trace c).

Definition rate_limited (status : Z) : bool :=
  (Z.eqb status 429 || Z.eqb status 302)%bool.

Definition unauthorized (status : option Z) : bool :=
  match status with
  | Some s => (Z.eqb s 401 || Z.eqb s 403)%bool
  | None => false
  end.

(** Lines 308-317: what follows the loop. *)
Definition after_loop (responseCodes : list Z) (c : client) : client * result Z :=
  let n429 := List.length (filter (Z.eqb 429) responseCodes) in
  (* filter(...).length > responseCodes.length / 2 *)
  let c' := if Nat.ltb (List.length responseCodes) (2 * n429)
            then emit Advisory c else c in
  (c', Err (FailedAfterRetries (maxRetries c))).

(** Lines 249-306: [while (retries > 0) { try { ... } catch { ... } }].
    The result of a success is the status of the response returned. *)
Fixpoint loop (env : nat -> attempt) (retries : nat) (responseCodes : list Z)
         (c : client) : client * result Z :=
  match retries with
  | O => after_loop responseCodes c
  | S retries' =>
      let a := env (passes c) in
      let c := throttle a (begin_pass a c) in
      let c := emit (Request (clock c)) c in
      match response a with
      | Resolved status =>
          let responseCodes := responseCodes ++ [status] in
          if Z.eqb status 200 then (c, OK status)
          else
            let c :=
              if rate_limited status then
                let waitTime := (2 ^ Z.of_nat (maxRetries c - retries) * 5)%Z in
                sleep (waitTime * 1000) (emit (Backoff waitTime) c)
              else c in
            loop env retries' responseCodes c
      | Rejected status =>
          (* if (retries === 0) throw error: never taken, retries > 0 here *)
          if Nat.eqb retries 0 then (c, Err (TransportError status))
          else
            let c := if unauthorized status then emit Reinit c else c in
            loop env retries' responseCodes c
      end
  end.

Definition _get (env : nat -> attempt) (c : client) : client * result Z :=
  loop env (maxRetries c) [] c.

(** [n] calls of [_get], one after the other, on the same client. *)
Fixpoint dispatches (env : nat -> attempt) (n : nat) (c : client) : client :=
  match n with
  | O => c
  | S n' => dispatches env n' (fst (_get env c))
  end.

(** The clock readings of the requests in a trace, oldest first. *)
Definition request_times (tr : list event) : list Z :=
  rev (flat_map (fun e => match e with Request t => [t] | _ => [] end) tr).

(** The back-off waits in a trace, in seconds, oldest first. *)
Definition backoffs (tr : list event) : list Z :=
  rev (flat_map (fun e => match e with Backoff s => [s] | _ => [] end) tr).

End Transport.

(** ** JSON.parse

    The built-in parser, after ECMA-404: [parse s] is the value of the
    JSON text [s], or [None] where [JSON.parse] throws a SyntaxError.  A
    number keeps the decimal it was written as, [mantissa * 10^exponent].
    The functions of the client below take the parser as a parameter;
    this one serves where a concrete text is evaluated. *)

Module JSON.

Inductive value : Type :=
  | Null
  | Bool (b : bool)
  | Number (mantissa exponent : Z)
  | Str (s : jsstring)
  | Array (elements : list value)
  | Object (members : list (jsstring * value)).

Definition isWs (c : N) : bool :=
  (N.eqb c 32 || N.eqb c 9 || N.eqb c 10 || N.eqb c 13)%bool.

Fixpoint skip_ws (s : jsstring) : jsstring :=
  match s with
  | c :: s' => if isWs c then skip_ws s' else s
  | [] => []
  end.

(** The longest prefix of decimal digits, and what follows it. *)
Fixpoint digits (s : jsstring) : jsstring * jsstring :=
  match s with
  | c :: s' =>
      if isDigit c then let (ds, r) := digits s' in (c :: ds, r) else ([], s)
  | [] => ([], [])
  end.

(** number = [-] int [frac] [exp] *)
Definition number (s : jsstring) : option (value * jsstring) :=
  let (neg, s1) := match s with
                   | c :: r => if N.eqb c (ch "-") then (true, r) else (false, s)
                   | [] => (false, s)
                   end in
  let (int, s2) := digits s1 in
  match int with
  | [] => None
  | d :: more =>
      if (N.eqb d (ch "0") && negb (Nat.eqb (List.length more) 0))%bool then None
      else
        let frac :=
          match s2 with
          | c :: r =>
              if N.eqb c (ch ".") then
                let (fs, r') := digits r in
                match fs with [] => None | _ => Some (fs, r') end
              else Some ([], s2)
          | [] => Some ([], s2)
          end in
        match frac with
        | None => None
        | Some (fs, s3) =>
            let exp :=
              match s3 with
              | c :: r =>
                  if (N.eqb c (ch "e") || N.eqb c (ch "E"))%bool then
                    let (eneg, r1) :=
                      match r with
                      | c' :: r' =>
                          if N.eqb c' (ch "-") then (true, r')
                          else if N.eqb c' (ch "+") then (false, r')
                          else (false, r)
                      | [] => (false, r)
                      end in
                    let (es, r2) := digits r1 in
                    match es with
                    | [] => None
                    | _ => Some ((if eneg then - parseInt es else parseInt es)%Z, r2)
                    end
                  else Some (0%Z, s3)
              | [] => Some (0%Z, s3)
              end in
            match exp with
            | None => None
            | Some (e, s4) =>
                let m := parseInt (int ++ fs) in
                Some (Number (if neg then - m else m)%Z
                             (e - Z.of_nat (List.length fs))%Z, s4)
            end
        end
  end.

Definition isHex (c : N) : bool :=
  (isDigit c || (N.leb 65 c && N.leb c 70) || (N.leb 97 c && N.leb c 102))%bool.

Definition hexVal (c : N) : N :=
  if isDigit c then c - 48
  else if N.leb 97 c then c - 87
  else c - 55.

(** The characters of a string after its opening quote, up to the
    closing one. *)
Fixpoint chars (fuel : nat) (s : jsstring) : option (jsstring * jsstring) :=
  match fuel with
  | O => None
  | S fuel' =>
      match s with
      | [] => None
      | c :: r =>
          if N.eqb c 34 then Some ([], r)
          else if N.ltb c 32 then None
          else if N.eqb c 92 then
            match r with
            | e :: r' =>
                let simple (u : N) :=
                  match chars fuel' r' with
                  | Some (cs, rest) => Some (u :: cs, rest)
                  | None => None
                  end in
                if N.eqb e 34 then simple 34%N
                else if N.eqb e 92 then simple 92%N
                else if N.eqb e (ch "/") then simple (ch "/")
                else if N.eqb e (ch "b") then simple 8%N
                else if N.eqb e (ch "f") then simple 12%N
                else if N.eqb e (ch "n") then simple 10%N
                else if N.eqb e (ch "r") then simple 13%N
                else if N.eqb e (ch "t") then simple 9%N
                else if N.eqb e (ch "u") then
                  match r' with
                  | h1 :: h2 :: h3 :: h4 :: r'' =>
                      if (isHex h1 && isHex h2 && isHex h3 && isHex h4)%bool then
                        match chars fuel' r'' with
                        | Some (cs, rest) =>
                            Some ((((hexVal h1 * 16 + hexVal h2) * 16 + hexVal h3) * 16
                                   + hexVal h4)%N :: cs, rest)
                        | None => None
                        end
                      else None
                  | _ => None
                  end
                else None
            | [] => None
            end
          else
            match chars fuel' r with
            | Some (cs, rest) => Some (c :: cs, rest)
            | None => None
            end
      end
  end.

Section Composite.
(** The parser of one value, for the elements and the members. *)
Variable val : jsstring -> option (value * jsstring).

(** After "[" and a first non-"]" character: value ("," value)* "]" *)
Fixpoint elements (fuel : nat) (s : jsstring) : option (list value * jsstring) :=
  match fuel with
  | O => None
  | S fuel' =>
      match val s with
      | None => None
      | Some (v, r) =>
          match skip_ws r with
          | c :: r' =>
              if N.eqb c (ch "]") then Some ([v], r')
              else if N.eqb c (ch ",") then
                match elements fuel' r' with
                | Some (vs, rest) => Some (v :: vs, rest)
                | None => None
                end
              else None
          | [] => None
          end
      end
  end.

(** After "{" and a first non-"}" character:
    string ":" value ("," string ":" value)* "}" *)
Fixpoint members (fuel : nat) (s : jsstring)
  : option (list (jsstring * value) * jsstring) :=
  match fuel with
  | O => None
  | S fuel' =>
      match skip_ws s with
      | q :: r0 =>
          if negb (N.eqb q 34) then None
          else
            match chars (S (List.length r0)) r0 with
            | None => None
            | Some (k, r1) =>
                match skip_ws r1 with
                | colon :: r2 =>
                    if negb (N.eqb colon (ch ":")) then None
                    else
                      match val r2 with
                      | None => None
                      | Some (v, r3) =>
                          match skip_ws r3 with
                          | c :: r4 =>
                              if N.eqb c (ch "}") then Some ([(k, v)], r4)
                              else if N.eqb c (ch ",") then
                                match members fuel' r4 with
                                | Some (ms, rest) => Some ((k, v) :: ms, rest)
                                | None => None
                                end
                              else None
                          | [] => None
                          end
                      end
                | [] => None
                end
            end
      | [] => None
      end
  end.
End Composite.

(** One value, with the white space before it. *)
Fixpoint val (fuel : nat) (s : jsstring) : option (value * jsstring) :=
  match fuel with
  | O => None
  | S fuel' =>
      match skip_ws s with
      | [] => None
      | c :: r =>
          if N.eqb c (ch "[") then
            match skip_ws r with
            | c' :: r' =>
                if N.eqb c' (ch "]") then Some (Array [], r')
                else match elements (val fuel') (S (List.length r)) r with
                     | Some (vs, rest) => Some (Array vs, rest)
                     | None => None
                     end
            | [] => None
            end
          else if N.eqb c (ch "{") then
            match skip_ws r with
            | c' :: r' =>
                if N.eqb c' (ch "}") then Some (Object [], r')
                else match members (val fuel') (S (List.length r)) r with
                     | Some (ms, rest) => Some (Object ms, rest)
                     | None => None
                     end
            | [] => None
            end
          else if N.eqb c 34 then
            match chars (S (List.length r)) r with
            | Some (cs, rest) => Some (Str cs, rest)
            | None => None
            end
          else
            match strip_prefix (js "true") (c :: r),
                  strip_prefix (js "false") (c :: r),
                  strip_prefix (js "null") (c :: r) with
            | Some rest, _, _ => Some (Bool true, rest)
            | _, Some rest, _ => Some (Bool false, rest)
            | _, _, Some rest => Some (Null, rest)
            | None, None, None => number (c :: r)
            end
      end
  end.

Definition parse (s : jsstring) : option value :=
  match val (S (List.length s)) s with
  | Some (v, rest) =>
      match skip_ws rest with
      | [] => Some v
      | _ :: _ => None
      end
  | None => None
  end.

End JSON.

(** ** TokenProtocolClient: [_parseProtectedJson], [decodeEscapeText],
       [_extractEmbeddedData] *)

Module Client.

(** [String.prototype.trim]: the white space and line terminators of
    ECMAScript. *)
Definition isTrimmed (c : N) : bool :=
  (N.eqb c 9 || N.eqb c 10 || N.eqb c 11 || N.eqb c 12 || N.eqb c 13
   || N.eqb c 32 || N.eqb c 160 || N.eqb c 5760
   || (N.leb 8192 c && N.leb c 8202)
   || N.eqb c 8232 || N.eqb c 8233 || N.eqb c 8239 || N.eqb c 8287
   || N.eqb c 12288 || N.eqb c 65279)%bool.

Fixpoint trimStart (s : jsstring) : jsstring :=
  match s with
  | c :: s' => if isTrimmed c then trimStart s' else s
  | [] => []
  end.

Definition trim (s : jsstring) : jsstring :=
  rev (trimStart (rev (trimStart s))).

(** [String.prototype.toLowerCase] on the Latin-1 range, where header
    values live, and on the Kelvin sign, the one character beyond it
    whose lower case is an ASCII letter; other code units are left as
    they are, which no comparison with an ASCII string can tell. *)
Definition lowerChar (c : N) : N :=
  if (N.leb 65 c && N.leb c 90)%bool then c + 32
  else if (N.leb 192 c && N.leb c 222 && negb (N.eqb c 215))%bool then c + 32
  else if N.eqb c 8490 then 107
  else c.

Definition toLowerCase (s : jsstring) : jsstring := map lowerChar s.

(** [response.data] is a string, or something else (a body that the
    HTTP library managed to parse on its own). *)
Inductive payload : Type :=
  | Text (s : jsstring)
  | NotText.

Record response : Type := mkResponse {
  status : Z;
  content_type : option jsstring;     (* response.headers['content-type'] *)
  data : payload
}.

Definition validContentTypes : list jsstring :=
  [js "application/json"; js "application/javascript"; js "text/javascript"].

(** The content type as [_parseProtectedJson] compares it. *)
Definition contentTypeOf (r : response) : jsstring :=
  toLowerCase
    (trim (hd [] (split (ch ";")
                    (match content_type r with Some s => s | None => [] end)))).

(** [utils.js], lines 17-22.  Each [replace] with the [g] flag scans
    from the left and resumes after the text it replaced. *)
Definition backslash : N := 92.

Definition fromHex (hs : jsstring) : N :=
  fold_left (fun acc h => acc * 16 + JSON.hexVal h)%N hs 0%N.

(** [.replace(/\\x([0-9A-Fa-f]{2})/g, (_, hex) =>
      String.fromCharCode(parseInt(hex, 16)))] *)
Fixpoint unescapeHex (s : jsstring) : jsstring :=
  match s with
  | [] => []
  | c :: t =>
      match t with
      | x :: h1 :: h2 :: rest =>
          if (N.eqb c backslash && N.eqb x (ch "x")
              && JSON.isHex h1 && JSON.isHex h2)%bool
          then fromHex [h1; h2] :: unescapeHex rest
          else c :: unescapeHex t
      | _ => c :: unescapeHex t
      end
  end.

(** [.replace(/\\u([0-9A-Fa-f]{4})/g, (_, hex) =>
      String.fromCharCode(parseInt(hex, 16)))] *)
Fixpoint unescapeUnicode (s : jsstring) : jsstring :=
  match s with
  | [] => []
  | c :: t =>
      match t with
      | u :: h1 :: h2 :: h3 :: h4 :: rest =>
          if (N.eqb c backslash && N.eqb u (ch "u")
              && JSON.isHex h1 && JSON.isHex h2
              && JSON.isHex h3 && JSON.isHex h4)%bool
          then fromHex [h1; h2; h3; h4] :: unescapeUnicode rest
          else c :: unescapeUnicode t
      | _ => c :: unescapeUnicode t
      end
  end.

(** The characters that [.] does not match. *)
Definition isLineTerminator (c : N) : bool :=
  (N.eqb c 10 || N.eqb c 13 || N.eqb c 8232 || N.eqb c 8233)%bool.

(** [.replace(/\\(.)/g, '$1')] *)
Fixpoint unescapeAny (s : jsstring) : jsstring :=
  match s with
  | [] => []
  | c :: t =>
      match t with
      | d :: rest =>
          if (N.eqb c backslash && negb (isLineTerminator d))%bool
          then d :: unescapeAny rest
          else c :: unescapeAny t
      | [] => [c]
      end
  end.

Definition decodeEscapeText (text : jsstring) : jsstring :=
  unescapeAny (unescapeUnicode (unescapeHex text)).

(** The longest prefix without a quote, and what follows it: [[^']+]. *)
Definition quote : N := 39.

Fixpoint notQuotes (s : jsstring) : jsstring * jsstring :=
  match s with
  | c :: s' =>
      if N.eqb c quote then ([], s)
      else let (l, r) := notQuotes s' in (c :: l, r)
  | [] => ([], [])
  end.

(** [/JSON\.parse\('([^']+)'\)/] tried at the start of [s]: the text of
    the group. *)
Definition literalAt (s : jsstring) : option jsstring :=
  match strip_prefix (js "JSON.parse('") s with
  | Some r =>
      let (lit, rest) := notQuotes r in
      match lit, strip_prefix (js "')") rest with
      | _ :: _, Some _ => Some lit
      | _, _ => None
      end
  | None => None
  end.

(** [text.match(pattern)]: the leftmost position where it matches. *)
Fixpoint firstLiteral (text : jsstring) : option jsstring :=
  match literalAt text with
  | Some lit => Some lit
  | None => match text with
            | [] => None
            | _ :: text' => firstLiteral text'
            end
  end.

Section Parser.
(** The values of JSON and [JSON.parse], [None] where it throws. *)
Variable J : Type.
Variable JSON_parse : jsstring -> option J.

(** [client.js], lines 176-201. *)
Definition _parseProtectedJson (r : response) : result J :=
  let contentType := contentTypeOf r in
  if (negb (Z.eqb (status r) 200)
      || negb (existsb (jseq contentType) validContentTypes))%bool
  then Err (InvalidResponse (status r) contentType)
  else
    match data r with
    | Text body =>
        (* response.data.split('\n').pop() *)
        let jsonData := last (split 10 body) [] in
        match JSON_parse jsonData with
        | Some v => OK v
        | None => Err FailedToParseJSON
        end
    | NotText =>
        (* response.data.split is not a function: caught like a
           failure of JSON.parse *)
        Err FailedToParseJSON
    end.

(** [client.js], lines 386-394.  [OK None] is the [null] returned
    after [console.warn("Failed to extract JSON data")]. *)
Definition _extractEmbeddedData (text : jsstring) : result (option J) :=
  match firstLiteral text with
  | Some lit =>
      match JSON_parse (decodeEscapeText lit) with
      | Some token => OK (Some token)
      | None => Err JSONSyntaxError
      end
  | None => OK None
  end.

(** The protected-JSON rule in the specification's words: drop the
    first line of the body, parse the rest. *)
Fixpoint afterFirstLine (body : jsstring) : jsstring :=
  match body with
  | [] => []
  | c :: body' => if N.eqb c 10 then body' else afterFirstLine body'
  end.

Definition parseProtectedJson_spec (r : response) : result J :=
  let contentType := contentTypeOf r in
  if (negb (Z.eqb (status r) 200)
      || negb (existsb (jseq contentType) validContentTypes))%bool
  then Err (InvalidResponse (status r) contentType)
  else
    match data r with
    | Text body =>
        match JSON_parse (afterFirstLine body) with
        | Some v => OK v
        | None => Err FailedToParseJSON
        end
    | NotText => Err FailedToParseJSON
    end.

End Parser.

End Client.

(** ** Luxon

    The part of the [luxon] library that [timeframe_utils.js] uses, for
    a process whose local zone keeps one offset from UTC all year (the
    zone [utc] used for "now" is such a zone) and whose locale writes
    numbers with the digits 0-9.  A valid [DateTime] is its local time
    in milliseconds since 1970-01-01T00:00 ([ts + offset * 60000] in
    Luxon's terms); calendar fields follow ECMAScript's proleptic
    Gregorian calendar ([Date.UTC] and the [getUTC...] accessors). *)

Module Luxon.
Local Open Scope Z_scope.

Definition msPerHour : Z := 3600000.
Definition msPerDay : Z := 86400000.

(** [year % 4 === 0 && (year % 100 !== 0 || year % 400 === 0)] *)
Definition isLeapYear (year : Z) : bool :=
  ((year mod 4 =? 0) && (negb (year mod 100 =? 0) || (year mod 400 =? 0)))%bool.

Definition monthLengths (leap : bool) : list Z :=
  [31; if leap then 29 else 28; 31; 30; 31; 30; 31; 31; 30; 31; 30; 31].

(** [daysInMonth(year, month)], for any integer [month]. *)
Definition daysInMonth (year month : Z) : Z :=
  let modMonth := (month - 1) mod 12 + 1 in
  let modYear := year + (month - modMonth) / 12 in
  nth (Z.to_nat (modMonth - 1)) (monthLengths (isLeapYear modYear)) 0.

(** ECMAScript's DayFromYear: the day number of January 1st. *)
Definition dayFromYear (y : Z) : Z :=
  365 * (y - 1970) + (y - 1969) / 4 - (y - 1901) / 100 + (y - 1601) / 400.

(** The day number of the first of a month; [month0] counts from 0 and
    may lie outside 0..11 (ECMAScript's MakeDay). *)
Definition dayFromMonth (year month0 : Z) : Z :=
  let ym := year + month0 / 12 in
  let mn := month0 mod 12 in
  dayFromYear ym
  + fold_left Z.add (firstn (Z.to_nat mn) (monthLengths (isLeapYear ym))) 0.

(** [objToLocalTS]: [Date.UTC(year, month - 1, day, hour)]. *)
Definition objToLocalTS (year month day hour : Z) : Z :=
  (dayFromMonth year (month - 1) + day - 1) * msPerDay + hour * msPerHour.

(** ECMAScript's YearFromTime, on day numbers: the year [y] with
    [dayFromYear y <= d < dayFromYear (y + 1)]. *)
Definition yearFromDay (d : Z) : Z :=
  let y0 := 1970 + (400 * d) / 146097 in
  if dayFromYear (y0 + 1) <=? d then y0 + 1
  else if d <? dayFromYear y0 then y0 - 1
  else y0.

(** Month and day of the month of the [d]-th day (from 0) of a year. *)
Fixpoint monthAndDay (lengths : list Z) (month d : Z) : Z * Z :=
  match lengths with
  | [] => (month, d + 1)
  | len :: rest =>
      if d <? len then (month, d + 1) else monthAndDay rest (month + 1) (d - len)
  end.

Record fields : Type := mkFields {
  year : Z;
  month : Z;
  day : Z;
  hour : Z
}.

(** [tsToObj]: the calendar fields of a local time. *)
Definition tsToObj (ts : Z) : fields :=
  let d := ts / msPerDay in
  let y := yearFromDay d in
  let (m, dd) := monthAndDay (monthLengths (isLeapYear y)) 1 (d - dayFromYear y) in
  mkFields y m dd ((ts mod msPerDay) / msPerHour).

Inductive DateTime : Type :=
  | Invalid
  | Valid (ts : Z).

(** The two formats of the program: ["yyyy-MM-dd"] and
    ["yyyy-MM-dd'T'HH"]. *)
Inductive format : Type :=
  | DATE_FORMAT
  | DATE_T_FORMAT.

Definition digit (c : N) : Z := Z.of_N c - 48.

(** [DateTime.fromObject]: the fields must name a day of the calendar
    and an hour from 0 to 24 (24 with no minutes is the next midnight). *)
Definition fromObject (year month day hour : Z) : DateTime :=
  if ((1 <=? month) && (month <=? 12)
      && (1 <=? day) && (day <=? daysInMonth year month)
      && (0 <=? hour) && (hour <=? 24))%bool
  then Valid (objToLocalTS year month day hour)
  else Invalid.

(** [DateTime.fromFormat(text, fmt)]: the whole text must be four digits,
    two and two, with the separators of the format. *)
Definition fromFormat (text : jsstring) (fmt : format) : DateTime :=
  let dash := ch "-" in
  match fmt, text with
  | DATE_FORMAT, [y1; y2; y3; y4; s1; m1; m2; s2; d1; d2] =>
      if (forallb isDigit [y1; y2; y3; y4; m1; m2; d1; d2]
          && N.eqb s1 dash && N.eqb s2 dash)%bool
      then fromObject (parseInt [y1; y2; y3; y4]) (parseInt [m1; m2])
                      (parseInt [d1; d2]) 0
      else Invalid
  | DATE_T_FORMAT, [y1; y2; y3; y4; s1; m1; m2; s2; d1; d2; t; h1; h2] =>
      if (forallb isDigit [y1; y2; y3; y4; m1; m2; d1; d2; h1; h2]
          && N.eqb s1 dash && N.eqb s2 dash && N.eqb t (ch "T"))%bool
      then fromObject (parseInt [y1; y2; y3; y4]) (parseInt [m1; m2])
                      (parseInt [d1; d2]) (parseInt [h1; h2])
      else Invalid
  | _, _ => Invalid
  end.

(** The decimal digits of a number that is not negative. *)
Fixpoint digitsOf (fuel : nat) (n : Z) : jsstring :=
  match fuel with
  | O => []
  | S fuel' =>
      if n <? 10 then [Z.to_N (48 + n)]
      else digitsOf fuel' (n / 10) ++ [Z.to_N (48 + n mod 10)]
  end.

Definition showNumber (n : Z) : jsstring := digitsOf (S (Z.to_nat (Z.log2 n))) n.

(** [padStart(input, n)] of Luxon: zeros on the left, after the sign. *)
Definition padStart (input : Z) (n : nat) : jsstring :=
  let pad (s : jsstring) := repeat (ch "0") (n - List.length s) ++ s in
  if input <? 0 then ch "-" :: pad (showNumber (- input))
  else pad (showNumber input).

(** [dt.toFormat(fmt)] *)
Definition toFormat (dt : DateTime) (fmt : format) : jsstring :=
  match dt with
  | Invalid => js "Invalid DateTime"
  | Valid ts =>
      let c := tsToObj ts in
      padStart (year c) 4 ++ [ch "-"] ++ padStart (month c) 2
        ++ [ch "-"] ++ padStart (day c) 2
        ++ match fmt with
           | DATE_FORMAT => []
           | DATE_T_FORMAT => [ch "T"] ++ padStart (hour c) 2
           end
  end.

(** A duration object with one of the four keys of [UNIT_MAP]. *)
Inductive durationUnit : Type := hours | days | months | years.

(** [adjustTime]: years and months move the calendar fields, the day is
    cut down to the length of the month reached, days are then added to
    it, and hours are added to the time. *)
Definition adjustTime (ts : Z) (u : durationUnit) (n : Z) : Z :=
  let c := tsToObj ts in
  let y := match u with years => year c + n | _ => year c end in
  let m := match u with months => month c + n | _ => month c end in
  let d := Z.min (day c) (daysInMonth y m)
           + match u with days => n | _ => 0 end in
  objToLocalTS y m d (hour c) + ts mod msPerHour
  + match u with hours => n * msPerHour | _ => 0 end.

(** [dt.plus(duration)]; an invalid [DateTime] is returned as it is. *)
Definition plus (dt : DateTime) (u : durationUnit) (n : Z) : DateTime :=
  match dt with
  | Invalid => Invalid
  | Valid ts => Valid (adjustTime ts u n)
  end.

(** [dt.minus(duration)], where the key of the duration may be
    [undefined]: Luxon then throws, unless [dt] is invalid. *)
Definition minus (dt : DateTime) (u : option durationUnit) (n : Z)
  : result DateTime :=
  match dt, u with
  | Invalid, _ => OK Invalid
  | Valid ts, Some u => OK (Valid (adjustTime ts u (- n)))
  | Valid _, None => Err InvalidUnitError
  end.

(** [dt.startOf('day')] *)
Definition startOfDay (dt : DateTime) : DateTime :=
  match dt with
  | Invalid => Invalid
  | Valid ts => Valid (ts / msPerDay * msPerDay)
  end.

(** [later.diff(earlier).as('milliseconds')]; [None] is the NaN of an
    invalid duration. *)
Definition diff (later earlier : DateTime) : option Z :=
  match later, earlier with
  | Valid a, Valid b => Some (a - b)
  | _, _ => None
  end.

End Luxon.

(** ** TimeframeCanonicalizer: [timeframe_utils.js]

    [DateTime.now().setZone('utc')] is the argument [utcNow] (the
    milliseconds since the epoch) of the functions that read the clock;
    one call reads it once, and a caller that maps over several
    timeframes passes the same reading to every element. *)

Module Timeframe.
Import Luxon.

(** The longest prefix whose characters satisfy [p], and the rest. *)
Fixpoint span (p : N -> bool) (s : jsstring) : jsstring * jsstring :=
  match s with
  | c :: s' => if p c then let (l, r) := span p s' in (c :: l, r) else ([], s)
  | [] => ([], [])
  end.

Definition isUnitLetter (c : N) : bool :=
  (N.eqb c (ch "H") || N.eqb c (ch "d") || N.eqb c (ch "m") || N.eqb c (ch "y"))%bool.

(** [VALID_DATE_PATTERN = /^\d{4}-\d{2}-\d{2}(T\d{2})?$/] *)
Definition isValidDate (dateStr : jsstring) : bool :=
  let dash := ch "-" in
  match dateStr with
  | [y1; y2; y3; y4; s1; m1; m2; s2; d1; d2] =>
      (forallb isDigit [y1; y2; y3; y4; m1; m2; d1; d2]
       && N.eqb s1 dash && N.eqb s2 dash)%bool
  | [y1; y2; y3; y4; s1; m1; m2; s2; d1; d2; t; h1; h2] =>
      (forallb isDigit [y1; y2; y3; y4; m1; m2; d1; d2; h1; h2]
       && N.eqb s1 dash && N.eqb s2 dash && N.eqb t (ch "T"))%bool
  | _ => false
  end.

(** [OFFSET_PATTERN = /\d+[-]?[Hdmy]$/] tried at the start of [s].  The
    digits are taken greedily; giving one back cannot help, since what
    follows must be a hyphen or a unit letter. *)
Definition offsetAt (s : jsstring) : bool :=
  let (ds, r) := span isDigit s in
  match ds, r with
  | _ :: _, [u] => isUnitLetter u
  | _ :: _, [h; u] => (N.eqb h (ch "-") && isUnitLetter u)%bool
  | _, _ => false
  end.

(** [OFFSET_PATTERN.test(offsetStr)]: some position matches. *)
Fixpoint isValidFormat (offsetStr : jsstring) : bool :=
  (offsetAt offsetStr
   || match offsetStr with
      | [] => false
      | _ :: s' => isValidFormat s'
      end)%bool.

(** [/(\d+)[-]?([Hdmy]+)/] tried at the start of [s]: the two groups. *)
Definition timePartsAt (s : jsstring) : option (jsstring * jsstring) :=
  let (ds, r) := span isDigit s in
  match ds with
  | [] => None
  | _ :: _ =>
      let r' := match r with
                | c :: r1 => if N.eqb c (ch "-") then r1 else r
                | [] => r
                end in
      let (us, _) := span isUnitLetter r' in
      match us with
      | [] => None
      | _ :: _ => Some (ds, us)
      end
  end.

(** [offsetStr.match(...)], then [[parseInt(match[1]), match[2]]]; [None]
    is [null]. *)
Fixpoint extractTimeParts (offsetStr : jsstring) : option (Z * jsstring) :=
  match timePartsAt offsetStr with
  | Some (ds, us) => Some (parseInt ds, us)
  | None => match offsetStr with
            | [] => None
            | _ :: s' => extractTimeParts s'
            end
  end.

Definition formatFor (dateStr : jsstring) : format :=
  if includes (ch "T") dateStr then DATE_T_FORMAT else DATE_FORMAT.

Definition decodeTrendDatetime (dateStr : jsstring) : DateTime :=
  fromFormat dateStr (formatFor dateStr).

(** [UNIT_MAP[unit]]; [None] is [undefined]. *)
Definition UNIT_MAP (unit : jsstring) : option durationUnit :=
  if jseq unit (js "H") then Some hours
  else if jseq unit (js "d") then Some days
  else if jseq unit (js "m") then Some months
  else if jseq unit (js "y") then Some years
  else None.

(** [Math.abs(date2.diff(date1, 'days').days) > 7]: with hours all of 60
    minutes the difference in days is the difference in milliseconds over
    86400000; a NaN compares false. *)
Definition moreThan7Days (date1 date2 : DateTime) : bool :=
  match diff date2 date1 with
  | Some ms => (7 * msPerDay <? Z.abs ms)%Z
  | None => false
  end.

Definition space : N := 32.

(** Lines 136-158. *)
Definition processTwoDates (datePart1 datePart2 : jsstring) : result jsstring :=
  let isT1 := includes (ch "T") datePart1 in
  let isT2 := includes (ch "T") datePart2 in
  if (negb isT1 && negb isT2)%bool then OK (datePart1 ++ [space] ++ datePart2)
  else
    let date1 := decodeTrendDatetime datePart1 in
    let date2 := decodeTrendDatetime datePart2 in
    let date2 := if (isT1 && negb isT2)%bool then startOfDay date2 else date2 in
    let date1 := if (isT1 && negb isT2)%bool then date1
                 else if (negb isT1 && isT2)%bool then startOfDay date1
                 else date1 in
    if ((isT1 || isT2) && moreThan7Days date1 date2)%bool
    then Err (DateDifferenceExceeds7Days datePart1 datePart2)
    else OK (toFormat date1 DATE_T_FORMAT ++ [space] ++ toFormat date2 DATE_T_FORMAT).

(** Lines 175-203. *)
Definition processDateWithOffset (datePart1 offsetPart : jsstring)
  : result jsstring :=
  let date1 := decodeTrendDatetime datePart1 in
  match extractTimeParts offsetPart with
  | None => Err TypeError          (* const [count, unit] = null *)
  | Some (count, unit) =>
      let isM := jseq unit (js "m") in
      let isY := jseq unit (js "y") in
      if (isM || isY)%bool then
        date2 <- minus date1 (UNIT_MAP unit) count ;;
        let date2 := if isM then plus date2 days 1 else date2 in
        let format := formatFor datePart1 in
        OK (toFormat date2 format ++ [space] ++ toFormat date1 format)
      else if (includes (ch "T") datePart1
               && ((jseq unit (js "d") && (7 <? count)%Z)
                   || (jseq unit (js "H") && (7 * 24 <? count)%Z)))%bool
      then Err (OffsetExceeds7Days datePart1 offsetPart)
      else
        let format := formatFor datePart1 in
        date2 <- minus date1 (UNIT_MAP unit) count ;;
        OK (toFormat date2 format ++ [space] ++ toFormat date1 format)
  end.

Definition FIXED_TIMEFRAMES : list jsstring :=
  [js "now 1-H"; js "now 4-H"; js "now 1-d"; js "now 7-d";
   js "today 1-m"; js "today 3-m"; js "today 5-y"; js "today 12-m";
   js "all"].

(** Lines 227-260. *)
Definition convertTimeframe (utcNow : Z) (timeframe : jsstring)
           (convertFixedTimeframesToDates : bool) : result jsstring :=
  if (existsb (jseq timeframe) FIXED_TIMEFRAMES
      && negb convertFixedTimeframesToDates)%bool
  then OK timeframe
  else if (convertFixedTimeframesToDates && jseq timeframe (js "all"))%bool
  then OK (js "2024-01-01 " ++ toFormat (Valid utcNow) DATE_FORMAT)
  else
    let timeframe :=
      replace (js "today") (toFormat (Valid utcNow) DATE_FORMAT)
              (replace (js "now") (toFormat (Valid utcNow) DATE_T_FORMAT)
                       timeframe) in
    match split space timeframe with
    | [datePart1; datePart2] =>
        if isValidDate datePart1 then
          if isValidDate datePart2 then processTwoDates datePart1 datePart2
          else if isValidFormat datePart2
               then processDateWithOffset datePart1 datePart2
               else Err (CouldNotProcessTimeframe timeframe)
        else Err (CouldNotProcessTimeframe timeframe)
    | _ => Err (InvalidTimeframeFormat timeframe)
    end.

(** Lines 274-278; [None] is the invalid duration, whose every [as] is
    NaN.  With one part only, [date2] is [undefined] and [date2.diff]
    throws. *)
Definition timeframeToDuration (utcNow : Z) (timeframe : jsstring)
  : result (option Z) :=
  r <- convertTimeframe utcNow timeframe true ;;
  match map decodeTrendDatetime (split space r) with
  | date1 :: date2 :: _ => OK (diff date2 date1)
  | _ => Err TypeError
  end.

(** [duration.as('hours') < h]: the hours are the milliseconds over
    3600000, and a comparison with NaN is false. *)
Definition hoursBelow (duration : option Z) (h : Z) : bool :=
  match duration with
  | Some ms => (ms <? h * msPerHour)%Z
  | None => false
  end.

(** Lines 326-340: the chain of comparisons. *)
Definition resolutionOf (duration : option Z) : jsstring * jsstring :=
  if hoursBelow duration 5 then (js "1 minute", js "delta < 5 hours")
  else if hoursBelow duration 36
    then (js "8 minutes", js "5 hours <= delta < 36 hours")
  else if hoursBelow duration 72
    then (js "16 minutes", js "36 hours <= delta < 72 hours")
  else if hoursBelow duration (24 * 8)
    then (js "1 hour", js "72 hours <= delta < 8 days")
  else if hoursBelow duration (24 * 270)
    then (js "1 day", js "8 days <= delta < 270 days")
  else if hoursBelow duration (24 * 1900)
    then (js "1 week", js "270 days <= delta < 1900 days")
  else (js "1 month", js "delta >= 1900 days").

(** Lines 322-341. *)
Definition getResolutionAndRange (utcNow : Z) (timeframe : jsstring)
  : result (jsstring * jsstring) :=
  duration <- timeframeToDuration utcNow timeframe ;;
  OK (resolutionOf duration).

(** [new Set(values)]: the first occurrence of every string. *)
Fixpoint newSet (seen values : list jsstring) : list jsstring :=
  match values with
  | [] => []
  | v :: values' =>
      if existsb (jseq v) seen then newSet seen values'
      else v :: newSet (v :: seen) values'
  end.

(** [a.as('milliseconds') < b.as('milliseconds')] and the like. *)
Definition msLt (a b : option Z) : bool :=
  match a, b with
  | Some x, Some y => (x <? y)%Z
  | _, _ => false
  end.

Definition msGeTwice (a b : option Z) : bool :=
  match a, b with
  | Some x, Some y => (y * 2 <=? x)%Z
  | _, _ => false
  end.

(** Lines 359-391.  The argument is a string or an array
    ([ensureList]). *)
Definition checkTimeframeResolution (utcNow : Z) (timeframes : Encoder.arg jsstring)
  : result unit :=
  let timeframes := Encoder.toArray timeframes in
  resolutions <- mapM (getResolutionAndRange utcNow) timeframes ;;
  let resolutionValues := map fst resolutions in
  durations <- mapM (timeframeToDuration utcNow) timeframes ;;
  if Nat.ltb 1 (List.length (newSet [] resolutionValues)) then
    Err (DifferentResolutions
           (map (fun x => match x with
                          | (timeframe, duration, (resolution, range)) =>
                              (timeframe, duration, resolution, range)
                          end)
                (combine (combine timeframes durations) resolutions)))
  else
    match durations, timeframes with
    | d0 :: _, t0 :: _ =>
        let (minDuration, minTimeframe) :=
          fold_left (fun min x => if msLt (fst x) (fst min) then x else min)
                    (combine durations timeframes) (d0, t0) in
        let (maxDuration, maxTimeframe) :=
          fold_left (fun max x => if msLt (fst max) (fst x) then x else max)
                    (combine durations timeframes) (d0, t0) in
        if msGeTwice maxDuration minDuration
        then Err (RatioTooLarge maxDuration maxTimeframe minDuration minTimeframe)
        else OK tt
    | _, _ =>
        (* an empty array: durations[0] is undefined and .as throws *)
        Err TypeError
    end.

End Timeframe.

(** ** The vocabulary of the properties

    Definitions that the statements of Part II use: the rules in the
    specification's words, and the shapes of inputs and traces that the
    theorems quantify over. *)

Section EncoderVocabulary.
Import Encoder.
Variable V : Type.

(** What the loop computes: the least number of doublings that reaches
    [maxLen]. *)
Definition grown (maxLen : nat) (arr out : list V) : Prop :=
  exists k, out = doubled k arr
            /\ maxLen <= length out
            /\ forall j, j < k -> length (doubled j arr) < maxLen.

End EncoderVocabulary.

Section TransportVocabulary.
Import Transport.
Local Open Scope Z_scope.

(** The retry rule in the specification's words: an answer 200 ends
    the dispatch; an answer 429 or 302 at attempt index [i] is followed
    by a wait of 5 * 2^i seconds; every other answer just uses up the
    attempt. *)
Fixpoint schedule (i : nat) (outs : list outcome) : list Z :=
  match outs with
  | [] => []
  | Resolved status :: outs' =>
      if Z.eqb status 200 then []
      else (if rate_limited status then [5 * 2 ^ Z.of_nat i] else [])
             ++ schedule (S i) outs'
  | Rejected _ :: outs' => schedule (S i) outs'
  end.

(** Some answer is a 200. *)
Definition succeeds (outs : list outcome) : bool :=
  existsb (fun o => match o with Resolved s => Z.eqb s 200 | _ => false end) outs.

(** The status codes of the answers that resolved. *)
Definition resolved (outs : list outcome) : list Z :=
  flat_map (fun o => match o with Resolved s => [s] | _ => [] end) outs.

(** The answers to the next [n] passes of a client. *)
Definition answers (env : nat -> attempt) (c : client) (n : nat) : list outcome :=
  map (fun i => response (env (passes c + i)%nat)) (seq 0 n).

(** Request times, newest first. *)
Definition stamps (tr : list event) : list Z :=
  flat_map (fun e => match e with Request t => [t] | _ => [] end) tr.

(** Newest first: every time is at least its predecessor, and at least
    [D] later than the time two places before it. *)
Fixpoint spaced (D : Z) (l : list Z) : Prop :=
  match l with
  | x :: l1 =>
      match l1 with
      | y :: l2 =>
          y <= x /\ match l2 with z :: _ => z + D <= x | [] => True end
      | [] => True
      end /\ spaced D l1
  | [] => True
  end.

(** The invariant of a client whose requests all went through the
    throttle: with the two initial slots 1 and 0 counted as the two
    requests before the first, the set holds times among the last two
    requests, and the requests are spaced. *)
Definition warm (D : Z) (c : client) : Prop :=
  requestDelayMs c = D
  /\ spaced D (stamps (trace c) ++ [1; 0])
  /\ (forall t, In t (stamps (trace c) ++ [1; 0]) -> t <= clock c)
  /\ match stamps (trace c) ++ [1; 0] with
     | b :: a :: _ =>
         lastRequestTimes c <> []
         /\ forall u, In u (lastRequestTimes c) -> u = a \/ u = b
     | _ => False
     end.

End TransportVocabulary.

Section ClientVocabulary.
Import Client.

(** An occurrence of the pattern in [text], after the prefix [pre],
    with the text [lit] between the quotes. *)
Definition occurrence (text pre lit : jsstring) : Prop :=
  lit <> [] /\ ~ In quote lit
  /\ exists post, text = pre ++ js "JSON.parse('" ++ lit ++ js "')" ++ post.

End ClientVocabulary.

Section TimeframeVocabulary.
Import Luxon Timeframe.
Local Open Scope Z_scope.

(** The days before the month [m] and the length of that month. *)
Definition daysBefore (leap : bool) (m : Z) : Z :=
  fold_left Z.add (firstn (Z.to_nat (m - 1)) (monthLengths leap)) 0.

(** The characters of a date-like part. *)
Definition dateChar (c : N) : bool :=
  (isDigit c || N.eqb c (ch "-") || N.eqb c (ch "T"))%bool.

(** The second parts that the properties on offsets quantify over: a
    prefix, the digits of the count, a hyphen or nothing, a unit
    letter. *)
Definition offsetText (g ds hy : jsstring) (u : N) : jsstring :=
  g ++ ds ++ hy ++ [u].

Definition hyphenOrNothing (hy : jsstring) : Prop := hy = [] \/ hy = [ch "-"].

(** The characters allowed in the prefix of the second part: no digit
    (so that the count is the first run of digits), no space, and
    neither of the letters that start the markers "now" and "today". *)
Definition prefixChar (c : N) : bool :=
  (negb (isDigit c) && negb (N.eqb c space)
   && negb (N.eqb c (ch "n")) && negb (N.eqb c (ch "t")))%bool.

(** The two callbacks of [reduce] in [checkTimeframeResolution]. *)
Definition stepMin (min x : option Z * jsstring) : option Z * jsstring :=
  if msLt (fst x) (fst min) then x else min.

Definition stepMax (max x : option Z * jsstring) : option Z * jsstring :=
  if msLt (fst max) (fst x) then x else max.

End TimeframeVocabulary.

(** ** [verifyConsistentTimeframes] ([timeframe_utils.js])

    [Err] is an error that [timeframeToDuration] throws for one of the
    elements. *)

Module Consistency.
Import Luxon Timeframe.

(** [d.equals(firstDuration)] on durations in milliseconds: an invalid
    duration equals nothing, itself included; [undefined] (the first
    element of an empty array) is never compared. *)
Definition equals (d other : option Z) : bool :=
  match d, other with
  | Some x, Some y => Z.eqb x y
  | _, _ => false
  end.

(** How [verifyConsistentTimeframes] ends once the durations are
    known: [return true], or
    [throw new Error(`Inconsistent timeframes detected: ...`)] with the
    durations. *)
Inductive verdict : Type :=
  | ReturnsTrue
  | ThrowsInconsistent (durations : list (option Z)).

(** Lines 293-308. *)
Definition verifyConsistentTimeframes (utcNow : Z) (timeframes : Encoder.arg jsstring)
  : result verdict :=
  match timeframes with
  | Encoder.Scalar _ => OK ReturnsTrue      (* typeof timeframes === 'string' *)
  | Encoder.Arr l =>
      durations <- mapM (timeframeToDuration utcNow) l ;;
      match durations with
      | [] => OK ReturnsTrue                (* [].every(...) *)
      | firstDuration :: _ =>
          if forallb (fun d => equals d firstDuration) durations
          then OK ReturnsTrue
          else OK (ThrowsInconsistent durations)
      end
  end.

End Consistency.

(** ** HierarchicalIndex: [hierarchical_search.js]

    A [Map] is the list of its entries in insertion order, with one
    entry per key; a [Set] of strings is the list of its members in
    insertion order.  [String.prototype.toLowerCase] is a parameter of
    the index: nothing below depends on what it does to a name. *)

Module Hierarchical.

(** [haystack.includes(needle)] for strings. *)
Fixpoint includesStr (needle haystack : jsstring) : bool :=
  match strip_prefix needle haystack with
  | Some _ => true
  | None => match haystack with
            | [] => false
            | _ :: h' => includesStr needle h'
            end
  end.

(** The class [\w]: [A-Za-z0-9_]. *)
Definition isWordChar (c : N) : bool :=
  ((N.leb 65 c && N.leb c 90) || (N.leb 97 c && N.leb c 122)
   || (N.leb 48 c && N.leb c 57) || N.eqb c 95)%bool.

(** [s.split(/\W+/)]: the pieces between the runs of characters that
    are not of a word; a run at either end leaves an empty piece there. *)
Fixpoint splitNonWord (s : jsstring) : list jsstring :=
  match s with
  | [] => [[]]
  | c :: s' =>
      if isWordChar c then
        match splitNonWord s' with
        | w :: ws => (c :: w) :: ws
        | [] => [[c]]
        end
      else
        match s' with
        | d :: _ => if isWordChar d then [] :: splitNonWord s' else splitNonWord s'
        | [] => [] :: splitNonWord s'
        end
  end.

(** A node of the tree: [children] is [None] when the key is missing
    (or [null]), and an array otherwise. *)
Inductive node : Type :=
  | Node (name id : jsstring) (children : option (list node)).

Record item : Type := mkItem {
  name : jsstring;
  id : jsstring
}.

Definition isEmpty (s : jsstring) : bool :=
  match s with [] => true | _ :: _ => false end.

(** Lines 9-30, on the array [result] that the calls share. *)
Fixpoint flatten (joinIds : bool) (parentId : jsstring) (n : node)
         (result : list item) : list item :=
  match n with
  | Node name currentId children =>
      let fullId := if (joinIds && negb (isEmpty parentId))%bool
                    then parentId ++ [ch "-"] ++ currentId
                    else currentId in
      let result := result ++ [mkItem name fullId] in
      match children with
      | Some cs =>
          fold_left (fun acc child =>
                       flatten joinIds (if joinIds then fullId else []) child acc)
                    cs result
      | None => result
      end
  end.

(** [flattenTree(node, parentId, result, joinIds)]: a missing [result]
    is a new array. *)
Definition flattenTree (n : node) (parentId : jsstring)
           (result : option (list item)) (joinIds : bool) : list item :=
  flatten joinIds parentId n (match result with Some r => r | None => [] end).

(** [map.get(k)], [map.has(k)], [map.set(k, v)]: a key that is present
    keeps its place. *)
Fixpoint mapGet {A} (m : list (jsstring * A)) (k : jsstring) : option A :=
  match m with
  | [] => None
  | (k', v) :: m' => if jseq k' k then Some v else mapGet m' k
  end.

Definition mapHas {A} (m : list (jsstring * A)) (k : jsstring) : bool :=
  match mapGet m k with Some _ => true | None => false end.

Fixpoint mapSet {A} (m : list (jsstring * A)) (k : jsstring) (v : A)
  : list (jsstring * A) :=
  match m with
  | [] => [(k, v)]
  | (k', v') :: m' =>
      if jseq k' k then (k', v) :: m' else (k', v') :: mapSet m' k v
  end.

(** [set.add(x)] *)
Definition setAdd (s : list jsstring) (x : jsstring) : list jsstring :=
  if existsb (jseq x) s then s else s ++ [x].

Section Index.

Variable toLowerCase : jsstring -> jsstring.

Record index : Type := mkIndex {
  nameToItem : list (jsstring * item);
  wordIndex : list (jsstring * list jsstring);
  partialIdSearch : bool
}.

(** Lines 71-78: one word of the name. *)
Definition addWord (name : jsstring) (wordIndex : list (jsstring * list jsstring))
           (word : jsstring) : list (jsstring * list jsstring) :=
  if isEmpty word then wordIndex
  else
    let wordIndex := if mapHas wordIndex word then wordIndex
                     else mapSet wordIndex word [] in
    match mapGet wordIndex word with
    | Some names => mapSet wordIndex word (names ++ [name])   (* .push(name) *)
    | None => wordIndex
    end.

(** Lines 63-79. *)
Definition addItem (idx : index) (it : item) : index :=
  let name := toLowerCase (Hierarchical.name it) in
  let words := Timeframe.newSet [] (splitNonWord name) in
  mkIndex (mapSet (nameToItem idx) name it)
          (fold_left (addWord name) words (wordIndex idx))
          (partialIdSearch idx).

(** Lines 43-57: [new HierarchicalIndex(items, partialIdSearch)]. *)
Definition HierarchicalIndex (items : list item) (partialIdSearch : bool) : index :=
  fold_left addItem items (mkIndex [] [] partialIdSearch).

(** Lines 86-88; [None] is [null]. *)
Definition exactSearch (idx : index) (name : jsstring) : option item :=
  mapGet (nameToItem idx) (toLowerCase name).

(** Lines 95-115; an element [None] of the result would be an
    [undefined] in the array returned. *)
Definition partialSearch (idx : index) (query : jsstring) : list (option item) :=
  let query := toLowerCase query in
  let results :=
    fold_left (fun results entry =>
                 if includesStr query (fst entry)
                 then fold_left setAdd (snd entry) results
                 else results)
              (wordIndex idx) [] in
  let results :=
    fold_left (fun results name =>
                 if includesStr query name then setAdd results name else results)
              (map fst (nameToItem idx)) results in
  map (mapGet (nameToItem idx)) results.

(** Lines 122-132. *)
Definition idSearch (idx : index) (idQuery : jsstring) : list item :=
  if partialIdSearch idx
  then filter (fun it => includesStr idQuery (id it)) (map snd (nameToItem idx))
  else filter (fun it => jseq (id it) idQuery) (map snd (nameToItem idx)).

(** Lines 141-146. *)
Definition createHierarchicalIndex (treeData : node) (joinIds : bool) : index :=
  HierarchicalIndex (flattenTree treeData [] None joinIds) joinIds.

End Index.

End Hierarchical.

(** ** More vocabulary

    Definitions used by the statements on the dispatch loop, on the
    hierarchical index and on the converters. *)

Section DispatchVocabulary.
Import Transport.
Local Open Scope Z_scope.

(** The answers that a dispatch gets to see: those up to the first 200. *)
Fixpoint attempted (outs : list outcome) : list outcome :=
  match outs with
  | [] => []
  | Resolved status :: outs' =>
      Resolved status :: (if Z.eqb status 200 then [] else attempted outs')
  | Rejected status :: outs' => Rejected status :: attempted outs'
  end.

(** The rejections with status 401 or 403 among some answers. *)
Definition refusals (outs : list outcome) : list outcome :=
  filter (fun o => match o with Rejected s => unauthorized s | _ => false end) outs.

(** The session re-initialisations in a trace. *)
Definition reinits (tr : list event) : list event :=
  filter (fun e => match e with Reinit => true | _ => false end) tr.

(** The waits of the throttle in a trace, newest first. *)
Definition throttled (tr : list event) : list Z :=
  flat_map (fun e => match e with Throttled ms => [ms] | _ => [] end) tr.

(** The shape of the set of tracked times: a set of one or two. *)
Definition small (c : client) : Prop :=
  NoDup (lastRequestTimes c)
  /\ (1 <= length (lastRequestTimes c) <= 2)%nat.

(** The invariant of [warm], with the waits of the throttle: none is
    longer than the delay configured. *)
Definition paced (D : Z) (c : client) : Prop :=
  warm D c /\ Forall (fun ms => 0 < ms <= D) (throttled (trace c)).

End DispatchVocabulary.

Section HierarchicalVocabulary.
Import Hierarchical.

(** The names and the identifiers of a tree as written, in preorder. *)
Fixpoint names (n : node) : list jsstring :=
  match n with
  | Node name _ children =>
      name :: match children with
              | Some cs => flat_map names cs
              | None => []
              end
  end.

Fixpoint rawIds (n : node) : list jsstring :=
  match n with
  | Node _ id children =>
      id :: match children with
            | Some cs => flat_map rawIds cs
            | None => []
            end
  end.

(** [needle] occurs in [haystack]. *)
Definition substring (needle haystack : jsstring) : Prop :=
  exists pre post, haystack = pre ++ needle ++ post.

End HierarchicalVocabulary.

Section IndexVocabulary.
Import Hierarchical.
Variable toLowerCase : jsstring -> jsstring.

(** The invariant of an index: one entry per lower-cased name, filed
    under the lower case of the name of its item, and every name listed
    under a word is such a name and contains the word. *)
Definition sound (idx : index) : Prop :=
  NoDup (map fst (nameToItem idx))
  /\ (forall k it, In (k, it) (nameToItem idx) -> k = toLowerCase (name it))
  /\ (forall word names n,
         In (word, names) (wordIndex idx) -> In n names ->
         In n (map fst (nameToItem idx)) /\ substring word n).

(** The last item of a list whose name is [k] once lower-cased. *)
Definition lastNamed (k : jsstring) (items : list item) : option item :=
  find (fun it => jseq (toLowerCase (name it)) k) (rev items).

End IndexVocabulary.

(* ================================================================== *)
(** * Part II.  Properties                                             *)
(* ================================================================== *)

(** ** RequestEncoder *)

Section EncoderFacts.
Import Encoder.
Variable V : Type.
Implicit Types arr : list V.

Lemma doubled_length k arr : length (doubled k arr) = length arr * 2 ^ k.
Proof.
  revert arr; induction k as [|k IH]; intros arr; cbn [doubled].
  - rewrite Nat.pow_0_r; lia.
  - rewrite IH, length_app, Nat.pow_succ_r'; lia.
Qed.

Lemma grow_spec fuel maxLen arr :
  arr <> [] -> maxLen <= fuel + length arr ->
  exists out, grow fuel maxLen arr = Some out /\ grown maxLen arr out.
Proof.
  revert arr; induction fuel as [|fuel IH]; intros arr Hne Hf.
  - cbn [grow]. destruct (Nat.ltb_spec (length arr) maxLen); [lia|].
    exists arr; split; [reflexivity|]. exists 0; cbn; repeat split; [lia|lia].
  - cbn [grow]. destruct (Nat.ltb_spec (length arr) maxLen) as [Hlt|Hge].
    + destruct (IH (arr ++ arr)) as (out & Hg & k & -> & Hk1 & Hk2).
      * destruct arr; [congruence|discriminate].
      * rewrite length_app. destruct arr; [congruence|cbn [length] in *; lia].
      * exists (doubled k (arr ++ arr)); split; [exact Hg|].
        exists (S k); cbn [doubled]; repeat split; [exact Hk1|].
        intros [|j] Hj; cbn [doubled]; [exact Hlt|apply Hk2; lia].
    + exists arr; split; [reflexivity|]. exists 0; cbn; repeat split; [lia|lia].
Qed.

Lemma divides_spec maxLen len :
  divides maxLen len = true <-> len <> 0 /\ Nat.modulo maxLen len = 0.
Proof.
  unfold divides. destruct len as [|n].
  - split; [discriminate|intros [H _]; congruence].
  - rewrite Nat.eqb_eq. split; [intros H; split; [discriminate|exact H]|tauto].
Qed.

Lemma grown_pow2 maxLen arr out k :
  arr <> [] -> grown maxLen arr out -> maxLen = length arr * 2 ^ k ->
  length out = maxLen.
Proof.
  intros Hne (k' & -> & Hge & Hmin) HM.
  assert (Hpos : 0 < length arr) by (destruct arr; [congruence|cbn; lia]).
  rewrite doubled_length in *.
  destruct (Nat.lt_trichotomy k' k) as [Hlt|[->|Hgt]].
  - assert (2 ^ k' < 2 ^ k) by (apply Nat.pow_lt_mono_r; lia). nia.
  - lia.
  - specialize (Hmin k Hgt). rewrite doubled_length in Hmin. lia.
Qed.

Lemma build_length (d0 d1 d2 : list V) : length (build d0 d1 d2) = length d0.
Proof. unfold build. now rewrite length_map, length_seq. Qed.

Lemma build_nth (d0 d1 d2 : list V) i :
  i < length d0 ->
  nth_error (build d0 d1 d2) i
  = Some (mkItem (nth_error d0 i) (nth_error d1 i) (nth_error d2 i)).
Proof.
  intros Hi. unfold build.
  rewrite nth_error_map, nth_error_nth' with (d := 0) by (now rewrite length_seq).
  now rewrite seq_nth.
Qed.

End EncoderFacts.

(** C3.  [_encodeItems] on keyword, timeframe and geo inputs of lengths
    [l0], [l1], [l2] with [M] their maximum: when some length does not
    divide [M] (the remainder [M % len] is not 0, which includes
    [len = 0]) the call throws "Ambiguous input sizes" with the three
    lengths; otherwise every list is self-concatenated the least number
    of times that brings its length to [M] or more, and the items are
    built position by position over the doubled keyword list.  When
    [M / len] is a power of two for the three inputs the result has
    exactly [M] items; for the ratio 3 it has 4. *)
Theorem encodeItems_alignment :
  (forall (V : Type) (fuel : nat) (keywords timeframe geo : Encoder.arg V),
      let a0 := Encoder.toArray keywords in
      let a1 := Encoder.toArray timeframe in
      let a2 := Encoder.toArray geo in
      let lengths := [length a0; length a1; length a2] in
      let M := list_max lengths in
      M <= fuel ->
      ((exists len, In len lengths /\ ~ (len <> 0 /\ Nat.modulo M len = 0)) ->
       Encoder._encodeItems fuel keywords timeframe geo
       = Some (Err (AmbiguousInputSizes lengths)))
      /\
      ((forall len, In len lengths -> len <> 0 /\ Nat.modulo M len = 0) ->
       exists d0 d1 d2,
         grown M a0 d0 /\ grown M a1 d1 /\ grown M a2 d2
         /\ Encoder._encodeItems fuel keywords timeframe geo
            = Some (OK (Encoder.build d0 d1 d2))
         /\ length (Encoder.build d0 d1 d2) = length d0
         /\ (forall i, i < length d0 ->
                nth_error (Encoder.build d0 d1 d2) i
                = Some (Encoder.mkItem (nth_error d0 i) (nth_error d1 i)
                                        (nth_error d2 i)))
         /\ ((forall len, In len lengths -> exists k, M = len * 2 ^ k) ->
             length (Encoder.build d0 d1 d2) = M
             /\ length d1 = M /\ length d2 = M)))
  /\
  (exists items,
      Encoder._encodeItems 3 (Encoder.Scalar 7) (Encoder.Arr [1; 2; 3])
                           (Encoder.Scalar 9)
      = Some (OK items)
      /\ length items = 4).
Proof.
  split.
  - intros V fuel keywords timeframe geo a0 a1 a2 lengths M Hfuel.
    assert (Hall : forallb (Encoder.divides M) lengths = true
                   <-> forall len, In len lengths ->
                                   len <> 0 /\ Nat.modulo M len = 0).
    { rewrite forallb_forall. split; intros H len Hin.
      - apply divides_spec, H, Hin.
      - apply divides_spec, H, Hin. }
    split.
    + intros (len & Hin & Hnot).
      unfold Encoder._encodeItems. cbn [map].
      fold a0 a1 a2. fold lengths. fold M.
      destruct (forallb (Encoder.divides M) lengths) eqn:E; [|reflexivity].
      exfalso. apply Hnot. apply Hall; [reflexivity|exact Hin].
    + intros Hdiv.
      assert (Hne : forall a, In (length a) lengths -> a <> ([] : list V)).
      { intros a Hin ->. destruct (Hdiv 0 Hin) as [H _]. congruence. }
      destruct (@grow_spec V fuel M a0) as (d0 & G0 & S0);
        [apply Hne; cbn; auto|lia|].
      destruct (@grow_spec V fuel M a1) as (d1 & G1 & S1);
        [apply Hne; cbn; auto|lia|].
      destruct (@grow_spec V fuel M a2) as (d2 & G2 & S2);
        [apply Hne; cbn; auto|lia|].
      exists d0, d1, d2. repeat split; try assumption.
      * unfold Encoder._encodeItems. cbn [map].
        fold a0 a1 a2. fold lengths. fold M.
        apply Hall in Hdiv. rewrite Hdiv. cbn [negb].
        now rewrite G0, G1, G2.
      * apply build_length.
      * apply build_nth.
      * rewrite build_length.
        destruct (H (length a0)) as [k Hk]; [cbn; auto|].
        eapply grown_pow2; eauto. apply Hne; cbn; auto.
      * destruct (H (length a1)) as [k Hk]; [cbn; auto|].
        eapply grown_pow2; eauto. apply Hne; cbn; auto.
      * destruct (H (length a2)) as [k Hk]; [cbn; auto|].
        eapply grown_pow2; eauto. apply Hne; cbn; auto.
  - eexists. split; [vm_compute; reflexivity|reflexivity].
Qed.

(** The alignment at the lengths (3, 6, 1): the keyword list is doubled
    once, the geo list three times (to 8 values, 2 more than the 6 items
    read). *)
Lemma encodeItems_alignment_witness :
  exists d0 d1 d2,
    grown 6 [1; 2; 3] d0 /\ grown 6 [1; 2; 3; 4; 5; 6] d1 /\ grown 6 [0] d2
    /\ Encoder._encodeItems 6 (Encoder.Arr [1; 2; 3])
         (Encoder.Arr [1; 2; 3; 4; 5; 6]) (Encoder.Scalar 0)
       = Some (OK (Encoder.build d0 d1 d2))
    /\ length (Encoder.build d0 d1 d2) = 6.
Proof.
  destruct encodeItems_alignment as [H _].
  destruct (H nat 6 (Encoder.Arr [1; 2; 3]) (Encoder.Arr [1; 2; 3; 4; 5; 6])
              (Encoder.Scalar 0)) as [_ H2]; [cbn; lia|].
  destruct H2 as (d0 & d1 & d2 & G0 & G1 & G2 & E & L & _).
  - cbn. intros len [<-|[<-|[<-|[]]]]; split; cbn; congruence.
  - exists d0, d1, d2. repeat split; try assumption.
    rewrite L. destruct G0 as (k & -> & Hge & Hmin).
    rewrite doubled_length in *. cbn [length] in *.
    destruct k as [|[|k]]; cbn in Hge |- *; try lia.
    specialize (Hmin 1 ltac:(lia)). rewrite doubled_length in Hmin.
    cbn in Hmin. lia.
Defined.

(** ** SessionTransport *)

Section TransportFacts.
Import Transport.
Local Open Scope Z_scope.

Lemma answers_S env c n :
  answers env c (S n)
  = response (env (passes c)) :: map (fun i => response (env (S (passes c) + i)%nat)) (seq 0 n).
Proof.
  unfold answers. cbn [seq map]. rewrite Nat.add_0_r. f_equal.
  rewrite <- seq_shift, map_map. apply map_ext. intros i. f_equal. f_equal. lia.
Qed.

Lemma backoffs_app tr1 tr2 : backoffs (tr1 ++ tr2) = backoffs tr2 ++ backoffs tr1.
Proof. unfold backoffs. now rewrite flat_map_app, rev_app_distr. Qed.

Lemma request_times_app tr1 tr2 :
  request_times (tr1 ++ tr2) = request_times tr2 ++ request_times tr1.
Proof. unfold request_times. now rewrite flat_map_app, rev_app_distr. Qed.

(** The throttle leaves the configuration alone and adds at most its
    own wait to the trace. *)
Lemma throttle_frame a c :
  requestDelayMs (throttle a c) = requestDelayMs c
  /\ maxRetries (throttle a c) = maxRetries c
  /\ passes (throttle a c) = passes c
  /\ (trace (throttle a c) = trace c
      \/ exists ms, trace (throttle a c) = Throttled ms :: trace c).
Proof.
  unfold throttle.
  destruct (Z.eqb (requestDelayMs c) 0); [auto|].
  destruct (Math_min (lastRequestTimes c)) as [m|]; cbn.
  - destruct (Z.ltb 0 _); cbn; eauto 6.
  - auto.
Qed.

Lemma loop_spec env retries :
  forall responseCodes c, (retries <= maxRetries c)%nat ->
    let outs := answers env c retries in
    let r := loop env retries responseCodes c in
    exists new,
      trace (fst r) = new ++ trace c
      /\ backoffs new = schedule (maxRetries c - retries) outs
      /\ (succeeds outs = true -> snd r = OK 200 /\ ~ In Advisory new)
      /\ (succeeds outs = false ->
          snd r = Err (FailedAfterRetries (maxRetries c))
          /\ let codes := responseCodes ++ resolved outs in
             (In Advisory new
              <-> (length codes < 2 * length (filter (Z.eqb 429) codes))%nat)).
Proof.
  induction retries as [|n IH]; intros codes c Hle outs r.
  - subst outs r. cbn [loop answers seq map schedule succeeds existsb resolved flat_map].
    unfold after_loop. rewrite app_nil_r.
    destruct (Nat.ltb_spec (length codes) (2 * length (filter (Z.eqb 429) codes))) as [H|H].
    + exists [Advisory]. cbn. split; [reflexivity|split; [reflexivity|split]].
      * discriminate.
      * intros _. split; [reflexivity|]. split; [intros _; exact H|auto].
    + exists []. cbn. split; [reflexivity|split; [reflexivity|split]].
      * discriminate.
      * intros _. split; [reflexivity|]. split; [tauto|lia].
  - subst r. cbn [loop].
    set (a := env (passes c)).
    set (c1 := throttle a (begin_pass a c)).
    destruct (throttle_frame a (begin_pass a c)) as (HD & HM & HP & HT).
    fold c1 in HD, HM, HP, HT. cbn [begin_pass maxRetries passes trace] in HM, HP, HT.
    set (c2 := emit (Request (clock c1)) c1).
    assert (Houts : outs = response a :: answers env c2 n).
    { subst outs. rewrite answers_S. unfold answers. subst c2. cbn [emit passes].
      now rewrite HP. }
    assert (Hthr : exists pre, trace c2 = Request (clock c1) :: pre ++ trace c
                               /\ backoffs (Request (clock c1) :: pre) = []
                               /\ ~ In Advisory (Request (clock c1) :: pre)).
    { subst c2. cbn [emit trace]. destruct HT as [HT|[ms HT]].
      - exists []. rewrite HT. cbn. split; [reflexivity|split; [reflexivity|]].
        intros [H|[]]; discriminate.
      - exists [Throttled ms]. rewrite HT. cbn. split; [reflexivity|split; [reflexivity|]].
        intros [H|[H|[]]]; discriminate. }
    destruct Hthr as (pre & Hpre & Hbpre & Hapre).
    assert (HM2 : maxRetries c2 = maxRetries c) by (subst c2; cbn; exact HM).
    clearbody c2. clear HT HP HD. rewrite Houts. clear Houts.
    (* the continuation after the answer was handled *)
    assert (Hrest : forall codes' c3 mid,
               maxRetries c3 = maxRetries c -> passes c3 = passes c2 ->
               trace c3 = mid ++ trace c2 -> ~ In Advisory mid ->
               exists new,
                 let r := loop env n codes' c3 in
                 trace (fst r) = new ++ trace c
                 /\ backoffs new
                    = backoffs mid ++ schedule (S (maxRetries c - S n)) (answers env c2 n)
                 /\ (succeeds (answers env c2 n) = true ->
                     snd r = OK 200 /\ ~ In Advisory new)
                 /\ (succeeds (answers env c2 n) = false ->
                     snd r = Err (FailedAfterRetries (maxRetries c))
                     /\ (In Advisory new
                         <-> (length (codes' ++ resolved (answers env c2 n))
                              < 2 * length (filter (Z.eqb 429)
                                  (codes' ++ resolved (answers env c2 n))))%nat))).
    { intros codes' c3 mid HM3 HP3 Hmid Hamid.
      destruct (IH codes' c3) as (new & Hnew & Hbnew & Hok & Hfail); [lia|].
      replace (answers env c3 n) with (answers env c2 n) in *
        by (unfold answers; now rewrite HP3).
      rewrite HM3 in *.
      replace (maxRetries c - n)%nat with (S (maxRetries c - S n)) in Hbnew by lia.
      exists (new ++ mid ++ Request (clock c1) :: pre). cbv zeta.
      split; [|split; [|split]].
      - rewrite Hnew, Hmid, Hpre. now rewrite <- !app_assoc.
      - rewrite !backoffs_app, Hbpre, Hbnew. reflexivity.
      - intros Hs. destruct (Hok Hs) as [Hr Hna]. split; [exact Hr|].
        intros Hin. apply in_app_or in Hin as [Hin|Hin]; [auto|].
        apply in_app_or in Hin as [Hin|Hin]; auto.
      - intros Hs. destruct (Hfail Hs) as [Hr Hadv]. split; [exact Hr|].
        cbv zeta in Hadv. rewrite <- Hadv. split.
        + intros Hin. apply in_app_or in Hin as [Hin|Hin]; [auto|].
          apply in_app_or in Hin as [Hin|Hin]; [contradiction|contradiction].
        + intros Hin. apply in_or_app. now left. }
    destruct (response a) as [status|status].
    + destruct (Z.eqb_spec status 200) as [->|Hne].
      * cbn [fst snd schedule succeeds existsb]. rewrite Z.eqb_refl. cbn [orb].
        exists (Request (clock c1) :: pre).
        split; [exact Hpre|split; [exact Hbpre|split]].
        -- intros _. split; [reflexivity|exact Hapre].
        -- discriminate.
      * cbn [schedule succeeds existsb resolved flat_map].
        destruct (Z.eqb_spec status 200) as [?|_]; [contradiction|]. cbn [orb].
        set (c3 := if rate_limited status then _ else c2).
        destruct (Hrest (codes ++ [status]) c3
                    (if rate_limited status
                     then [Backoff (2 ^ Z.of_nat (maxRetries c - S n) * 5)] else []))
          as (new & Hnew & Hbnew & Hok & Hfail).
        -- subst c3. destruct (rate_limited status); cbn; exact HM2.
        -- subst c3. destruct (rate_limited status); reflexivity.
        -- subst c3. rewrite HM2. destruct (rate_limited status); reflexivity.
        -- destruct (rate_limited status); [intros [H|[]]; discriminate|intros []].
        -- exists new. split; [exact Hnew|split; [|split]].
           ++ rewrite Hbnew. destruct (rate_limited status); cbn; [|reflexivity].
              f_equal. apply Z.mul_comm.
           ++ exact Hok.
           ++ intros Hs. destruct (Hfail Hs) as [Hr Hadv]. split; [exact Hr|].
              cbv zeta. cbn [app].
              rewrite <- app_assoc in Hadv. exact Hadv.
    + cbn [Nat.eqb schedule succeeds existsb resolved flat_map orb app].
      set (c3 := if unauthorized status then _ else c2).
      destruct (Hrest codes c3 (if unauthorized status then [Reinit] else []))
        as (new & Hnew & Hbnew & Hok & Hfail).
      -- subst c3. destruct (unauthorized status); cbn; exact HM2.
      -- subst c3. destruct (unauthorized status); reflexivity.
      -- subst c3. destruct (unauthorized status); reflexivity.
      -- destruct (unauthorized status); [intros [H|[]]; discriminate|intros []].
      -- exists new. split; [exact Hnew|split; [|split]].
         ++ rewrite Hbnew. destruct (unauthorized status); reflexivity.
         ++ exact Hok.
         ++ exact Hfail.
Qed.

Lemma schedule_rate_limited outs :
  forall i rest,
    Forall (fun o => exists s, o = Resolved s /\ rate_limited s = true) outs ->
    schedule i (outs ++ rest)
    = map (fun k => 5 * 2 ^ Z.of_nat k) (seq i (length outs))
        ++ schedule (i + length outs) rest.
Proof.
  induction outs as [|o outs IH]; intros i rest HF.
  - cbn. now rewrite Nat.add_0_r.
  - inversion HF as [|? ? (s & -> & Hs) HF']; subst.
    cbn [app schedule length seq map]. rewrite Hs.
    destruct (Z.eqb_spec s 200) as [->|_]; [discriminate Hs|].
    cbn [app]. f_equal. rewrite IH by assumption. do 2 f_equal. lia.
Qed.

(** *** The throttle *)

Lemma Math_min_spec s m :
  Math_min s = Some m -> In m s /\ forall u, In u s -> m <= u.
Proof.
  destruct s as [|x s]; [discriminate|]. cbn [Math_min]. intros [= <-].
  revert x. induction s as [|y s IH]; intros x; cbn [fold_left].
  - split; [now left|]. intros u [->|[]]. lia.
  - destruct (IH (Z.min x y)) as [Hin Hle]. split.
    + destruct Hin as [Hin|Hin]; [|now right; right].
      rewrite <- Hin. destruct (Z.min_spec x y) as [[_ ->]|[_ ->]]; cbn; auto.
    + intros u [->|[->|Hu]].
      * specialize (Hle (Z.min u y) (or_introl eq_refl)). lia.
      * specialize (Hle (Z.min x u) (or_introl eq_refl)). lia.
      * apply Hle. now right.
Qed.

Lemma Math_min_cons x s : exists m, Math_min (x :: s) = Some m.
Proof. cbn. eauto. Qed.

Lemma newSet_In seen xs u :
  In u (newSet seen xs) <-> In u xs /\ ~ In u seen.
Proof.
  revert seen; induction xs as [|x xs IH]; intros seen; cbn [newSet].
  - cbn. tauto.
  - destruct (existsb (Z.eqb x) seen) eqn:E.
    + rewrite IH. apply existsb_exists in E as (y & Hy & Exy).
      apply Z.eqb_eq in Exy. subst y. cbn. split.
      * tauto.
      * intros [[->|H] Hn]; [contradiction|tauto].
    + assert (Hx : ~ In x seen).
      { intros Hin. assert (existsb (Z.eqb x) seen = true); [|congruence].
        apply existsb_exists. exists x. split; [exact Hin|apply Z.eqb_refl]. }
      cbn [In]. rewrite IH. cbn [In]. split.
      * intros [->|[H1 H2]]; [tauto|]. split; [tauto|]. tauto.
      * intros [[->|H1] H2]; [now left|].
        destruct (Z.eq_dec x u) as [->|Hne]; [now left|].
        right. split; [exact H1|]. intros [E2|H3]; [congruence|contradiction].
Qed.

(** What one pass of the throttle does to a non-empty set of times: it
    finds the oldest tracked time [m], lets the clock reach [m + D],
    and puts the clock's reading in the place of [m]. *)
Lemma throttle_step a c :
  requestDelayMs c <> 0 -> 0 <= lag a -> lastRequestTimes c <> [] ->
  exists m,
    Math_min (lastRequestTimes c) = Some m
    /\ In m (lastRequestTimes c)
    /\ (forall u, In u (lastRequestTimes c) -> m <= u)
    /\ clock c <= clock (throttle a c)
    /\ m + requestDelayMs c <= clock (throttle a c)
    /\ lastRequestTimes (throttle a c)
       = newSet [] (filter (fun t => negb (Z.eqb t m)) (lastRequestTimes c)
                      ++ [clock (throttle a c)])
    /\ (forall u, In u (lastRequestTimes (throttle a c)) <->
                  (In u (lastRequestTimes c) /\ u <> m) \/ u = clock (throttle a c)).
Proof.
  intros HD Hlag Hne. unfold throttle.
  destruct (Z.eqb_spec (requestDelayMs c) 0) as [?|_]; [contradiction|].
  destruct (lastRequestTimes c) as [|x s] eqn:Es; [congruence|].
  destruct (Math_min_cons x s) as [m Hm]. rewrite Hm.
  destruct (Math_min_spec _ Hm) as [Hin Hle].
  exists m. split; [reflexivity|split; [exact Hin|split; [exact Hle|]]].
  set (sleepTime := Z.max 0 (requestDelayMs c - (clock c - m))).
  set (c1 := if Z.ltb 0 sleepTime then _ else c).
  assert (H1 : lastRequestTimes c1 = x :: s /\ clock c <= clock c1
               /\ m + requestDelayMs c <= clock c1).
  { subst c1. destruct (Z.ltb_spec 0 sleepTime) as [Hs|Hs]; cbn; rewrite ?Es.
    - split; [reflexivity|]. subst sleepTime. lia.
    - split; [reflexivity|]. subst sleepTime. lia. }
  destruct H1 as (Hset & Hc & Hd). cbn [clock lastRequestTimes]. rewrite Hset.
  split; [exact Hc|split; [exact Hd|split; [reflexivity|]]].
  intros u. rewrite newSet_In, in_app_iff, filter_In. cbn [In].
  rewrite negb_true_iff, Z.eqb_neq. intuition.
Qed.

Lemma warm_new D K now : 1 <= now -> warm D (newTrends D K now).
Proof.
  intros H. unfold warm, newTrends. cbn.
  split; [reflexivity|split; [lia|split; [|split; [discriminate|]]]].
  - intros t [<-|[<-|[]]]; lia.
  - intros u [<-|[<-|[]]]; auto.
Qed.

Lemma warm_sleep D ms c : 0 <= ms -> warm D c -> warm D (sleep ms c).
Proof.
  intros Hms (HD & Hsp & Hcl & Hset). unfold warm, sleep. cbn.
  repeat split; auto. intros t Ht. specialize (Hcl t Ht). lia.
Qed.

Lemma warm_emit D e c :
  (forall t, e <> Request t) -> warm D c -> warm D (emit e c).
Proof.
  intros He (HD & Hsp & Hcl & Hset). unfold warm, emit. cbn [trace stamps flat_map].
  destruct e; try (exfalso; eapply He; reflexivity); cbn [app]; repeat split; auto.
Qed.

Lemma warm_pass D a c :
  0 < D -> 0 <= gap a -> 0 <= lag a -> warm D c ->
  let c1 := throttle a (begin_pass a c) in
  warm D (emit (Request (clock c1)) c1).
Proof.
  intros HD Hgap Hlag (HDc & Hsp & Hcl & Hset) c1.
  destruct (stamps (trace c) ++ [1; 0]) as [|b [|a0 l]] eqn:El; try contradiction.
  destruct Hset as [Hne Hsub].
  destruct (throttle_step a (begin_pass a c)) as (m & Hm & Hin & Hle & Hc & Hd & _ & Hmem);
    [cbn; lia|exact Hlag|exact Hne|].
  fold c1 in Hc, Hd, Hmem. cbn [begin_pass clock requestDelayMs lastRequestTimes] in *.
  destruct (throttle_frame a (begin_pass a c)) as (HD1 & _ & _ & HT).
  fold c1 in HD1, HT. cbn [begin_pass requestDelayMs trace] in HD1, HT.
  assert (Hst : stamps (trace c1) = stamps (trace c)).
  { destruct HT as [->|[ms ->]]; reflexivity. }
  assert (Hba : a0 <= b) by (cbn in Hsp; tauto).
  assert (Hma : a0 <= m).
  { destruct (Hsub m Hin) as [-> | ->]; lia. }
  assert (Hbc : b <= clock c) by (apply Hcl; now left).
  unfold warm. cbn [emit requestDelayMs trace stamps flat_map clock lastRequestTimes app].
  fold (stamps (trace c1)). rewrite Hst, El.
  split; [congruence|split; [|split; [|split]]].
  - cbn [spaced]. split; [split; lia|exact Hsp].
  - intros t [<-|Ht]; [lia|]. specialize (Hcl t Ht). lia.
  - intros E. assert (In (clock c1) (lastRequestTimes c1)) by (apply Hmem; now right).
    rewrite E in H. contradiction.
  - intros u Hu. apply Hmem in Hu as [[Hu Hne2] | ->]; [|now right].
    left. destruct (Hsub u Hu) as [-> | ->]; [|reflexivity].
    assert (m <= a0) by (apply Hle, Hu). lia.
Qed.

Lemma warm_loop D env retries :
  0 < D -> (forall i, 0 <= gap (env i) /\ 0 <= lag (env i)) ->
  forall codes c, warm D c -> warm D (fst (loop env retries codes c)).
Proof.
  intros HD Henv. induction retries as [|n IH]; intros codes c Hw.
  - cbn [loop]. unfold after_loop. cbn [fst].
    destruct (Nat.ltb _ _); [apply warm_emit; [discriminate|exact Hw]|exact Hw].
  - cbn [loop]. destruct (Henv (passes c)) as [Hg Hl].
    pose proof (@warm_pass D (env (passes c)) c HD Hg Hl Hw) as Hw1.
    cbv zeta in Hw1.
    set (c2 := emit _ (throttle _ _)) in *.
    destruct (response (env (passes c))) as [status|status].
    + destruct (Z.eqb status 200); [exact Hw1|].
      apply IH. destruct (rate_limited status); [|exact Hw1].
      apply warm_sleep; [|apply warm_emit; [discriminate|exact Hw1]].
      assert (0 <= 2 ^ Z.of_nat (maxRetries c2 - S n)) by (apply Z.pow_nonneg; lia).
      lia.
    + cbn [Nat.eqb]. apply IH.
      destruct (unauthorized status); [apply warm_emit; [discriminate|]|]; exact Hw1.
Qed.

Lemma warm_dispatches D env n :
  0 < D -> (forall i, 0 <= gap (env i) /\ 0 <= lag (env i)) ->
  forall c, warm D c -> warm D (dispatches env n c).
Proof.
  intros HD Henv. induction n as [|n IH]; intros c Hw; cbn [dispatches].
  - exact Hw.
  - apply IH. unfold _get. now apply warm_loop.
Qed.

Lemma spaced_app_l D l r : spaced D (l ++ r) -> spaced D l.
Proof.
  induction l as [|x [|y [|z l]] IH]; cbn; auto.
  - tauto.
  - intros [[H1 H2] H3]. split; [tauto|]. apply IH. exact H3.
Qed.

Lemma spaced_nth D l :
  spaced D l ->
  forall i x, nth_error l i = Some x ->
    (forall y, nth_error l (S i) = Some y -> y <= x)
    /\ (forall z, nth_error l (S (S i)) = Some z -> z + D <= x).
Proof.
  induction l as [|x0 l IH]; intros Hsp [|i] x Hx; try discriminate.
  - cbn in Hx. injection Hx as ->. destruct l as [|y [|z l]]; cbn in *.
    + split; intros ?; discriminate.
    + split; [intros ? [= <-]; tauto|intros ?; discriminate].
    + split; [intros ? [= <-]; tauto|intros ? [= <-]; tauto].
  - cbn in Hx. apply (IH (proj2 Hsp) i x Hx).
Qed.

End TransportFacts.

Section TransportTheorems.
Import Transport.
Local Open Scope Z_scope.

Lemma spaced_rev_nth D l :
  spaced D l ->
  forall i x, nth_error (rev l) i = Some x ->
    (forall y, nth_error (rev l) (S i) = Some y -> x <= y)
    /\ (forall z, nth_error (rev l) (S (S i)) = Some z -> x + D <= z).
Proof.
  intros Hsp i x Hx.
  assert (Hi : (i < length l)%nat).
  { rewrite <- length_rev. apply nth_error_Some. congruence. }
  rewrite nth_error_rev in Hx.
  destruct (Nat.ltb_spec i (length l)) as [_|]; [|lia].
  split.
  - intros y Hy.
    assert (Hj : (S i < length l)%nat).
    { rewrite <- length_rev. apply nth_error_Some. congruence. }
    rewrite nth_error_rev in Hy.
    destruct (Nat.ltb_spec (S i) (length l)) as [_|]; [|lia].
    destruct (spaced_nth D l Hsp _ Hy) as [H1 _]. apply H1.
    replace (S (length l - S (S i))) with (length l - S i)%nat by lia. exact Hx.
  - intros z Hz.
    assert (Hj : (S (S i) < length l)%nat).
    { rewrite <- length_rev. apply nth_error_Some. congruence. }
    rewrite nth_error_rev in Hz.
    destruct (Nat.ltb_spec (S (S i)) (length l)) as [_|]; [|lia].
    destruct (spaced_nth D l Hsp _ Hz) as [_ H2]. apply H2.
    replace (S (S (length l - S (S (S i))))) with (length l - S i)%nat by lia. exact Hx.
Qed.

End TransportTheorems.






(** ** TokenProtocolClient *)

Section StringFacts.

Lemma jseq_spec a b : jseq a b = true <-> a = b.
Proof.
  revert b; induction a as [|x a IH]; intros [|y b]; cbn; try (split; congruence).
  rewrite andb_true_iff, N.eqb_eq, IH. split; [intros [-> ->]; reflexivity|].
  intros [= -> ->]. auto.
Qed.

Lemma strip_prefix_spec p s r : strip_prefix p s = Some r <-> s = p ++ r.
Proof.
  revert s; induction p as [|x p IH]; intros s; cbn.
  - split; congruence.
  - destruct s as [|y s]; [split; discriminate|].
    destruct (N.eqb_spec x y) as [->|Hne].
    + rewrite IH. split; congruence.
    + split; [discriminate|]. intros [= -> ->]. congruence.
Qed.

Lemma split_nonempty sep s : split sep s <> [].
Proof.
  destruct s as [|c s]; cbn; [discriminate|].
  destruct (N.eqb c sep); [discriminate|]. destruct (split sep s); discriminate.
Qed.

(** The first piece of a split is the text before the first separator. *)
Lemma split_hd sep t :
  ~ In sep t ->
  hd [] (split sep t) = t
  /\ forall rest, hd [] (split sep (t ++ sep :: rest)) = t.
Proof.
  induction t as [|c t IH]; intros Hn.
  - split; [reflexivity|]. intros rest. cbn. now rewrite N.eqb_refl.
  - assert (Hc : c <> sep) by (intros ->; apply Hn; now left).
    destruct IH as [IH1 IH2]; [intros H; apply Hn; now right|].
    apply N.eqb_neq in Hc. split.
    + cbn. rewrite Hc. destruct (split sep t) eqn:E; cbn in *; congruence.
    + intros rest. cbn. rewrite Hc. specialize (IH2 rest).
      destruct (split sep (t ++ sep :: rest)) eqn:E; cbn in *; congruence.
Qed.

Lemma split_single sep s w : split sep s = [w] <-> s = w /\ ~ In sep s.
Proof.
  revert w; induction s as [|c s IH]; intros w; cbn [split].
  - split; [intros [= <-]; auto|intros [<- _]; reflexivity].
  - destruct (N.eqb_spec c sep) as [->|Hc].
    + split.
      * intros [= _ E]. now apply split_nonempty in E.
      * intros [_ Hn]. exfalso. apply Hn. now left.
    + destruct (split sep s) as [|w' ws] eqn:E; [now apply split_nonempty in E|].
      split.
      * intros [= <- ->]. destruct (proj1 (IH w') eq_refl) as [-> Hn].
        split; [reflexivity|]. intros [H|H]; [congruence|contradiction].
      * intros [<- Hn].
        assert (Hs : s = s /\ ~ In sep s) by (split; [reflexivity|]; intros H; apply Hn; now right).
        apply IH in Hs. injection Hs as -> ->. reflexivity.
Qed.

(** The last piece of a split is the text after the last separator. *)
Lemma split_last sep s :
  let l := last (split sep s) [] in
  ~ In sep l /\ (s = l \/ exists pre, s = pre ++ sep :: l).
Proof.
  induction s as [|c s IH]; cbn [split].
  - cbn. auto.
  - cbv zeta in IH. destruct IH as [Hn Hs].
    pose proof (split_nonempty sep s) as Hne.
    destruct (split sep s) as [|w ws] eqn:E; [congruence|].
    destruct (N.eqb_spec c sep) as [->|Hc].
    + change (last ([] :: w :: ws) []) with (last (w :: ws) []).
      split; [exact Hn|]. right.
      destruct Hs as [Hs|[pre Hs]].
      * exists []. cbn [app]. f_equal. exact Hs.
      * exists (sep :: pre). cbn [app]. f_equal. exact Hs.
    + destruct ws as [|w' ws].
      * apply split_single in E as [<- Hns]. cbn [last]. split.
        -- intros [H|H]; [congruence|contradiction].
        -- now left.
      * change (last ((c :: w) :: w' :: ws) []) with (last (w' :: ws) []).
        change (last (w :: w' :: ws) []) with (last (w' :: ws) []) in Hn, Hs.
        split; [exact Hn|]. right.
        destruct Hs as [Hs|[pre Hs]].
        -- exfalso. rewrite <- Hs in Hn.
           assert (E' : split sep s = [s]) by (apply split_single; auto).
           congruence.
        -- exists (c :: pre). cbn [app]. f_equal. exact Hs.
Qed.

End StringFacts.

Section ClientFacts.
Import Client.

Lemma notQuotes_spec s :
  let (lit, rest) := notQuotes s in
  s = lit ++ rest /\ ~ In quote lit
  /\ (rest = [] \/ exists rest', rest = quote :: rest').
Proof.
  induction s as [|c s IH]; cbn [notQuotes].
  - cbn. auto.
  - destruct (N.eqb_spec c quote) as [->|Hc].
    + cbn. split; [reflexivity|split; [tauto|eauto]].
    + destruct (notQuotes s) as [lit rest]. destruct IH as (-> & Hn & Hr).
      split; [reflexivity|split; [|exact Hr]].
      intros [H|H]; [congruence|contradiction].
Qed.

Lemma notQuotes_app lit rest :
  ~ In quote lit -> notQuotes (lit ++ quote :: rest) = (lit, quote :: rest).
Proof.
  induction lit as [|c lit IH]; intros Hn; cbn [app notQuotes].
  - now rewrite N.eqb_refl.
  - destruct (N.eqb_spec c quote) as [->|_]; [exfalso; apply Hn; now left|].
    rewrite IH; [reflexivity|]. intros H. apply Hn. now right.
Qed.

Lemma literalAt_spec s lit : literalAt s = Some lit <-> occurrence s [] lit.
Proof.
  unfold literalAt, occurrence. split.
  - destruct (strip_prefix (js "JSON.parse('") s) as [r|] eqn:E; [|discriminate].
    apply strip_prefix_spec in E. subst s.
    pose proof (notQuotes_spec r) as H. destruct (notQuotes r) as [l rest].
    destruct H as (-> & Hn & _).
    destruct l as [|c l]; [discriminate|].
    destruct (strip_prefix (js "')") rest) as [post|] eqn:E2; [|discriminate].
    apply strip_prefix_spec in E2. subst rest. intros [= <-].
    split; [discriminate|split; [exact Hn|]]. exists post. reflexivity.
  - intros (Hne & Hn & post & ->). cbn [app].
    assert (E : strip_prefix (js "JSON.parse('")
                  (js "JSON.parse('" ++ lit ++ js "')" ++ post)
                = Some (lit ++ js "')" ++ post))
      by (now apply strip_prefix_spec).
    rewrite E. change (js "')" ++ post) with (quote :: ch ")" :: post).
    rewrite notQuotes_app by exact Hn.
    destruct lit as [|c l]; [congruence|]. cbn. reflexivity.
Qed.

Lemma occurrence_shift text pre lit c :
  occurrence (c :: text) (c :: pre) lit <-> occurrence text pre lit.
Proof.
  unfold occurrence. split; intros (H1 & H2 & post & E); repeat split; auto;
    exists post; cbn in *; congruence.
Qed.

Lemma occurrence_suffix pre suf lit :
  occurrence (pre ++ suf) pre lit <-> occurrence suf [] lit.
Proof.
  induction pre as [|c pre IH]; [reflexivity|].
  cbn [app]. now rewrite occurrence_shift.
Qed.

Lemma occurrence_split text pre lit :
  occurrence text pre lit -> exists suf, text = pre ++ suf.
Proof. intros (_ & _ & post & ->). eauto. Qed.

(** The quoted text of an occurrence is fixed by where it starts. *)
Lemma occurrence_unique text pre lit lit' :
  occurrence text pre lit -> occurrence text pre lit' -> lit = lit'.
Proof.
  intros H H'. destruct (occurrence_split H) as [suf ->].
  apply occurrence_suffix, literalAt_spec in H.
  apply occurrence_suffix, literalAt_spec in H'. congruence.
Qed.

Lemma firstLiteral_spec text :
  match firstLiteral text with
  | Some lit =>
      exists pre, occurrence text pre lit
                  /\ forall pre' lit', occurrence text pre' lit' ->
                                       length pre <= length pre'
  | None => forall pre lit, ~ occurrence text pre lit
  end.
Proof.
  induction text as [|c text IH].
  - cbn. intros pre lit (_ & _ & post & E). destruct pre; discriminate.
  - cbn [firstLiteral]. destruct (literalAt (c :: text)) as [lit|] eqn:E.
    + exists []. split; [now apply literalAt_spec|]. intros; cbn; lia.
    + destruct (firstLiteral text) as [lit|].
      * destruct IH as (pre & Hocc & Hmin). exists (c :: pre). split.
        -- now apply occurrence_shift.
        -- intros [|c' pre'] lit' H'.
           ++ apply literalAt_spec in H'. congruence.
           ++ destruct (occurrence_split H') as [suf Heq].
              cbn [app] in Heq. injection Heq as <- Heq.
              apply (proj1 (occurrence_shift _ _ _ _)) in H'. specialize (Hmin _ _ H'). cbn. lia.
      * intros [|c' pre'] lit' H'.
        -- apply literalAt_spec in H'. congruence.
        -- destruct (occurrence_split H') as [suf Heq].
           cbn [app] in Heq. injection Heq as <- Heq.
           apply (proj1 (occurrence_shift _ _ _ _)) in H'. exact (IH _ _ H').
Qed.

End ClientFacts.

(** C1 as stated fails: for a body of three lines (the preamble, the
    payload, and the empty line after a final line break) the parser
    reads the last line, the empty one, and fails, where parsing what
    follows the first line gives the payload. *)
Lemma parseProtectedJson_counterexample :
  let r := Client.mkResponse 200 (Some (js "application/json; charset=utf-8"))
             (Client.Text (js ")]}'" ++ [10%N] ++ js "[1]" ++ [10%N])) in
  Client._parseProtectedJson JSON.parse r = Err FailedToParseJSON
  /\ Client.parseProtectedJson_spec JSON.parse r
     = OK (JSON.Array [JSON.Number 1 0]).
Proof. vm_compute. split; reflexivity. Qed.

(** C1, amended.  [_parseProtectedJson] throws "Invalid response" unless
    the status is 200 and the content type (the header up to its first
    semicolon, trimmed and lower-cased) is one of the three allowed.
    Past that check the text after the last line break of the body (the
    whole body when it has none) is parsed as JSON, and the call throws
    "Failed to parse JSON data" when that parse fails or when the body is
    not text. *)
Theorem parseProtectedJson_last_line :
  forall (J : Type) (JSON_parse : jsstring -> option J) (r : Client.response),
    let contentType := Client.contentTypeOf r in
    (forall t params, ~ In (ch ";") t ->
        Client.content_type r = Some t
        \/ Client.content_type r = Some (t ++ ch ";" :: params) ->
        contentType = Client.toLowerCase (Client.trim t))
    /\ (Client.status r <> 200%Z \/ ~ In contentType Client.validContentTypes ->
        Client._parseProtectedJson JSON_parse r
        = Err (InvalidResponse (Client.status r) contentType))
    /\ (Client.status r = 200%Z -> In contentType Client.validContentTypes ->
        match Client.data r with
        | Client.Text body =>
            exists lastLine,
              ~ In 10%N lastLine
              /\ (body = lastLine \/ exists pre, body = pre ++ 10%N :: lastLine)
              /\ Client._parseProtectedJson JSON_parse r
                 = match JSON_parse lastLine with
                   | Some v => OK v
                   | None => Err FailedToParseJSON
                   end
        | Client.NotText =>
            Client._parseProtectedJson JSON_parse r = Err FailedToParseJSON
        end).
Proof.
  intros J JSON_parse r contentType.
  assert (Hin : existsb (jseq contentType) Client.validContentTypes = true
                <-> In contentType Client.validContentTypes).
  { rewrite existsb_exists. split.
    - intros (x & Hx & E). apply jseq_spec in E. now subst.
    - intros H. exists contentType. split; [exact H|now apply jseq_spec]. }
  split; [|split].
  - intros t params Hn [E|E]; subst contentType; unfold Client.contentTypeOf;
      rewrite E; destruct (split_hd (ch ";") t Hn) as [H1 H2].
    + now rewrite H1.
    + now rewrite H2.
  - intros H. unfold Client._parseProtectedJson. fold contentType.
    destruct (Z.eqb_spec (Client.status r) 200) as [E|E]; cbn [negb orb];
      [|reflexivity].
    destruct (existsb (jseq contentType) Client.validContentTypes) eqn:Ex;
      [|reflexivity].
    exfalso. destruct H as [H|H]; [contradiction|]. apply H, Hin. reflexivity.
  - intros Hs Hc. unfold Client._parseProtectedJson. fold contentType.
    rewrite Hs. apply Hin in Hc. rewrite Hc. cbn [Z.eqb negb orb].
    change (Z.eqb 200 200) with true. cbn [negb orb].
    destruct (Client.data r) as [body|]; [|reflexivity].
    destruct (split_last 10%N body) as [Hn Hl].
    exists (last (split 10%N body) []). split; [exact Hn|split; [exact Hl|reflexivity]].
Qed.

(** The check at a response whose content type carries a parameter and
    upper-case letters. *)
Lemma parseProtectedJson_last_line_witness :
  Client.contentTypeOf
    (Client.mkResponse 200 (Some (js " Text/JavaScript ;charset=UTF-8"))
                       (Client.Text (js ")]}'," ++ [10%N] ++ js "[1]")))
  = Client.toLowerCase (Client.trim (js " Text/JavaScript ")).
Proof.
  refine (proj1 (@parseProtectedJson_last_line JSON.value JSON.parse _)
                (js " Text/JavaScript ") (js "charset=UTF-8") _ _).
  - vm_compute. intuition discriminate.
  - right. reflexivity.
Defined.

(** C2 as stated fails: on a body without the literal
    [_extractEmbeddedData] warns and returns [null]; it throws
    nothing. *)
Lemma extractEmbeddedData_counterexample :
  Client._extractEmbeddedData JSON.parse (js "<html><body>Too many requests</body></html>")
  = OK None.
Proof. vm_compute. reflexivity. Qed.

(** C2, amended.  [_extractEmbeddedData] takes the leftmost occurrence of
    [JSON.parse('...')] whose quoted text is a non-empty run of characters
    other than the quote; that text is fixed by the place of the
    occurrence.  It is un-escaped by the three passes in the order hex
    bytes, unicode code units, any other escaped character (an order
    that shows on an escaped backslash written as a hex byte), and
    parsed as JSON.  On a body with no occurrence the function returns
    [null] (after a warning) instead of throwing. *)
Theorem extractEmbeddedData_first_literal :
  (Client.decodeEscapeText (js "\x5cu0041") = js "A"
   /\ Client.unescapeAny (Client.unescapeHex (Client.unescapeUnicode (js "\x5cu0041")))
      = js "u0041")
  /\
  forall (J : Type) (JSON_parse : jsstring -> option J) (text : jsstring),
    match Client.firstLiteral text with
    | Some lit =>
        (exists pre,
            occurrence text pre lit
            /\ (forall pre' lit', occurrence text pre' lit' ->
                                  length pre <= length pre')
            /\ (forall lit', occurrence text pre lit' -> lit' = lit))
        /\ Client._extractEmbeddedData JSON_parse text
           = match JSON_parse
                     (Client.unescapeAny
                        (Client.unescapeUnicode (Client.unescapeHex lit))) with
             | Some token => OK (Some token)
             | None => Err JSONSyntaxError
             end
    | None =>
        (forall pre lit, ~ occurrence text pre lit)
        /\ Client._extractEmbeddedData JSON_parse text = OK None
    end.
Proof.
  split; [split; reflexivity|].
  intros J JSON_parse text. pose proof (firstLiteral_spec text) as H.
  unfold Client._extractEmbeddedData.
  destruct (Client.firstLiteral text) as [lit|].
  - destruct H as (pre & Hocc & Hmin). split; [|reflexivity].
    exists pre. split; [exact Hocc|split; [exact Hmin|]].
    intros lit' H'. exact (occurrence_unique H' Hocc).
  - split; [exact H|reflexivity].
Qed.

(** The extraction at a body with two literals: the first one is
    taken. *)
Lemma extractEmbeddedData_first_literal_witness :
  Client._extractEmbeddedData JSON.parse
    (js "var a = JSON.parse('[1,\x5b2\x5d]'); var b = JSON.parse('{}');")
  = OK (Some (JSON.Array [JSON.Number 1 0; JSON.Array [JSON.Number 2 0]])).
Proof.
  exact (proj2 (proj2 extractEmbeddedData_first_literal JSON.value JSON.parse
                  (js "var a = JSON.parse('[1,\x5b2\x5d]'); var b = JSON.parse('{}');"))).
Defined.

(** ** TimeframeCanonicalizer *)

Section SplitFacts.

Lemma split_app sep a rest :
  ~ In sep a -> split sep (a ++ sep :: rest) = a :: split sep rest.
Proof.
  induction a as [|c a IH]; intros Hn; cbn [app split].
  - now rewrite N.eqb_refl.
  - destruct (N.eqb_spec c sep) as [->|_]; [exfalso; apply Hn; now left|].
    rewrite IH; [reflexivity|]. intros H. apply Hn. now right.
Qed.

Lemma split_two sep a b :
  ~ In sep a -> ~ In sep b -> split sep (a ++ sep :: b) = [a; b].
Proof.
  intros Ha Hb. rewrite split_app by exact Ha. f_equal.
  apply split_single. auto.
Qed.

(** A pattern whose first character does not occur is not replaced. *)
Lemma replace_absent x p r s : ~ In x s -> replace (x :: p) r s = s.
Proof.
  induction s as [|c s IH]; intros Hn; [reflexivity|].
  cbn [replace strip_prefix].
  destruct (N.eqb_spec x c) as [->|_]; [exfalso; apply Hn; now left|].
  f_equal. apply IH. intros H. apply Hn. now right.
Qed.

Lemma forallb_not_In (p : N -> bool) x s :
  forallb p s = true -> p x = false -> ~ In x s.
Proof.
  intros Hall Hx Hin. rewrite forallb_forall in Hall.
  specialize (Hall x Hin). congruence.
Qed.

End SplitFacts.

Section TimeframeFacts.
Import Luxon Timeframe.

Ltac split_andb :=
  repeat match goal with
         | H : (_ && _)%bool = true |- _ => apply andb_true_iff in H; destruct H
         end.

Lemma isValidDate_chars d :
  isValidDate d = true ->
  forallb dateChar d = true
  /\ (exists c d', d = c :: d' /\ isDigit c = true)
  /\ isDigit (last d 0%N) = true.
Proof.
  intros H.
  do 10 (destruct d as [|? d]; [discriminate H|]).
  destruct d as [|? d].
  - cbn [isValidDate forallb] in H. split_andb. split; [|split].
    + unfold dateChar. cbn [forallb].
      repeat match goal with E : _ = true |- _ => rewrite E; clear E end.
      cbn. now rewrite !orb_true_r.
    + eauto.
    + cbn. assumption.
  - do 2 (destruct d as [|? d]; [discriminate H|]).
    destruct d as [|? d]; [|discriminate H].
    cbn [isValidDate forallb] in H. split_andb. split; [|split].
    + unfold dateChar. cbn [forallb].
      repeat match goal with E : _ = true |- _ => rewrite E; clear E end.
      cbn. now rewrite !orb_true_r.
    + eauto.
    + cbn. assumption.
Qed.

Lemma dateChar_not x : dateChar x = false -> forall d, isValidDate d = true -> ~ In x d.
Proof.
  intros Hx d Hd. destruct (isValidDate_chars d Hd) as [Hall _].
  eapply forallb_not_In; eassumption.
Qed.

Lemma isDigit_neq c k : isDigit c = true -> isDigit k = false -> N.eqb c k = false.
Proof.
  intros Hc Hk. destruct (N.eqb_spec c k) as [->|]; [congruence|reflexivity].
Qed.

(** A timeframe that starts with a date-like part is none of the fixed
    ones. *)
Lemma not_fixed d rest :
  isValidDate d = true ->
  existsb (jseq (d ++ rest)) FIXED_TIMEFRAMES = false
  /\ jseq (d ++ rest) (js "all") = false.
Proof.
  intros Hd. destruct (isValidDate_chars d Hd) as (_ & (c & d' & -> & Hc) & _).
  assert (Hn : N.eqb c (ch "n") = false) by (now apply isDigit_neq).
  assert (Ht : N.eqb c (ch "t") = false) by (now apply isDigit_neq).
  assert (Ha : N.eqb c (ch "a") = false) by (now apply isDigit_neq).
  unfold FIXED_TIMEFRAMES. cbn [app existsb js map String.list_ascii_of_string jseq].
  rewrite Hn, Ht, Ha. cbn. auto.
Qed.

Lemma span_app (p : N -> bool) l r :
  forallb p l = true -> match r with c :: _ => p c = false | [] => True end ->
  span p (l ++ r) = (l, r).
Proof.
  induction l as [|c l IH]; intros Hl Hr; cbn [app span].
  - destruct r as [|c r]; [reflexivity|]. cbn. now rewrite Hr.
  - cbn in Hl. apply andb_true_iff in Hl as [Hc Hl]. rewrite Hc, IH; auto.
Qed.

Lemma unit_not_digit u : isUnitLetter u = true -> isDigit u = false.
Proof.
  unfold isUnitLetter. rewrite !orb_true_iff, !N.eqb_eq.
  intros [[[->| ->]| ->]| ->]; reflexivity.
Qed.

Lemma unit_not_dash u : isUnitLetter u = true -> N.eqb u (ch "-") = false.
Proof.
  unfold isUnitLetter. rewrite !orb_true_iff, !N.eqb_eq.
  intros [[[->| ->]| ->]| ->]; reflexivity.
Qed.

Lemma isValidFormat_app g s : isValidFormat s = true -> isValidFormat (g ++ s) = true.
Proof.
  intros H. induction g as [|c g IH]; [exact H|].
  cbn [app isValidFormat]. rewrite IH. apply orb_true_r.
Qed.

Lemma isValidFormat_offsetText g ds hy u :
  ds <> [] -> forallb isDigit ds = true -> hyphenOrNothing hy ->
  isUnitLetter u = true ->
  isValidFormat (offsetText g ds hy u) = true.
Proof.
  intros Hne Hds Hhy Hu. apply isValidFormat_app.
  assert (E : offsetAt (ds ++ hy ++ [u]) = true).
  { unfold offsetAt. rewrite span_app; auto.
    - destruct ds; [congruence|]. destruct Hhy as [-> | ->]; cbn [app].
      + exact Hu.
      + now rewrite N.eqb_refl.
    - destruct Hhy as [-> | ->]; cbn [app]; [now apply unit_not_digit|reflexivity]. }
  destruct ds as [|c ds]; [congruence|].
  cbn [app isValidFormat] in *. now rewrite E.
Qed.

Lemma isValidDate_offsetText g ds hy u :
  isUnitLetter u = true -> isValidDate (offsetText g ds hy u) = false.
Proof.
  intros Hu. destruct (isValidDate (offsetText g ds hy u)) eqn:E; [|reflexivity].
  destruct (isValidDate_chars _ E) as (_ & _ & Hl).
  unfold offsetText in Hl. rewrite !app_assoc, last_last in Hl.
  apply unit_not_digit in Hu. congruence.
Qed.

Lemma extractTimeParts_offsetText g ds hy u :
  forallb (fun c => negb (isDigit c)) g = true ->
  ds <> [] -> forallb isDigit ds = true -> hyphenOrNothing hy ->
  isUnitLetter u = true ->
  extractTimeParts (offsetText g ds hy u) = Some (parseInt ds, [u]).
Proof.
  intros Hg Hne Hds Hhy Hu. unfold offsetText.
  induction g as [|c g IH].
  - cbn [app]. destruct ds as [|d0 ds]; [congruence|].
    assert (E : timePartsAt ((d0 :: ds) ++ hy ++ [u]) = Some (d0 :: ds, [u])).
    { unfold timePartsAt. rewrite span_app; auto.
      - destruct Hhy as [-> | ->]; cbn [app].
        + rewrite unit_not_dash by exact Hu. cbn [span]. now rewrite Hu.
        + rewrite N.eqb_refl. cbn [span]. now rewrite Hu.
      - destruct Hhy as [-> | ->]; cbn [app]; [now apply unit_not_digit|reflexivity]. }
    cbn [app] in E |- *. cbn [extractTimeParts]. now rewrite E.
  - cbn in Hg. apply andb_true_iff in Hg as [Hc Hg].
    apply negb_true_iff in Hc.
    cbn [app extractTimeParts]. unfold timePartsAt at 1. cbn [span]. rewrite Hc.
    apply IH, Hg.
Qed.

Lemma prefixChar_digits g :
  forallb prefixChar g = true -> forallb (fun c => negb (isDigit c)) g = true.
Proof.
  rewrite !forallb_forall. intros H c Hc. specialize (H c Hc).
  unfold prefixChar in H. now destruct (isDigit c).
Qed.

Lemma offsetText_not_In x g ds hy u :
  ~ In x g -> isDigit x = false -> N.eqb x (ch "-") = false -> x <> u ->
  forallb isDigit ds = true -> hyphenOrNothing hy ->
  ~ In x (offsetText g ds hy u).
Proof.
  intros Hg Hx Hd Hu Hds Hhy Hin. unfold offsetText in Hin.
  apply in_app_or in Hin as [Hin|Hin]; [contradiction|].
  apply in_app_or in Hin as [Hin|Hin].
  - rewrite forallb_forall in Hds. specialize (Hds x Hin). congruence.
  - apply in_app_or in Hin as [Hin|[Hin|[]]]; [|congruence].
    destruct Hhy as [-> | ->]; [contradiction|].
    destruct Hin as [<-|[]]. now rewrite N.eqb_refl in Hd.
Qed.

Lemma marker_free x d g ds hy u :
  dateChar x = false -> prefixChar x = false -> isUnitLetter x = false ->
  N.eqb x space = false ->
  isValidDate d = true -> forallb prefixChar g = true ->
  forallb isDigit ds = true -> hyphenOrNothing hy -> isUnitLetter u = true ->
  ~ In x (d ++ space :: offsetText g ds hy u).
Proof.
  intros Hx Hp Hxu Hsp Hd Hg Hds Hhy Hu Hin.
  unfold dateChar in Hx. apply orb_false_iff in Hx as [Hx HT].
  apply orb_false_iff in Hx as [Hdig Hdash].
  apply in_app_or in Hin as [Hin|[Hin|Hin]].
  - revert Hin. eapply dateChar_not; [|exact Hd].
    unfold dateChar. now rewrite Hdig, Hdash, HT.
  - subst x. now rewrite N.eqb_refl in Hsp.
  - revert Hin. apply offsetText_not_In; auto.
    + eapply forallb_not_In; eassumption.
    + intros ->. congruence.
Qed.

(** A date-like part, a space, and an offset text: [convertTimeframe]
    hands the two parts to [processDateWithOffset]. *)
Lemma convertTimeframe_offset utcNow flag d g ds hy u :
  isValidDate d = true -> forallb prefixChar g = true ->
  ds <> [] -> forallb isDigit ds = true -> hyphenOrNothing hy ->
  isUnitLetter u = true ->
  convertTimeframe utcNow (d ++ space :: offsetText g ds hy u) flag
  = processDateWithOffset d (offsetText g ds hy u).
Proof.
  intros Hd Hg Hne Hds Hhy Hu. unfold convertTimeframe.
  destruct (not_fixed d (space :: offsetText g ds hy u) Hd) as [-> ->].
  cbn [andb]. rewrite andb_false_r.
  assert (Hu' : forall x, isUnitLetter x = false -> x <> u) by (intros x Hx ->; congruence).
  change (js "now") with (ch "n" :: js "ow").
  change (js "today") with (ch "t" :: js "oday").
  rewrite (@replace_absent (ch "n")), (@replace_absent (ch "t")).
  - rewrite split_two.
    + rewrite Hd, isValidDate_offsetText, isValidFormat_offsetText by assumption.
      reflexivity.
    + apply (@dateChar_not space); [reflexivity|exact Hd].
    + apply offsetText_not_In; auto.
      * eapply forallb_not_In; [exact Hg|reflexivity].
  - apply marker_free; auto.
  - apply marker_free; auto.
Qed.

Lemma convertTimeframe_two_dates utcNow flag d1 d2 :
  isValidDate d1 = true -> isValidDate d2 = true ->
  convertTimeframe utcNow (d1 ++ space :: d2) flag = processTwoDates d1 d2.
Proof.
  intros H1 H2. unfold convertTimeframe.
  destruct (not_fixed d1 (space :: d2) H1) as [-> ->].
  cbn [andb]. rewrite andb_false_r.
  assert (Hno : forall x, dateChar x = false -> N.eqb x space = false ->
                          ~ In x (d1 ++ space :: d2)).
  { intros x Hx Hs Hin. apply in_app_or in Hin as [Hin|[Hin|Hin]].
    - revert Hin. now apply dateChar_not.
    - subst x. now rewrite N.eqb_refl in Hs.
    - revert Hin. now apply dateChar_not. }
  change (js "now") with (ch "n" :: js "ow").
  change (js "today") with (ch "t" :: js "oday").
  rewrite (@replace_absent (ch "n")), (@replace_absent (ch "t"))
    by (apply Hno; reflexivity).
  rewrite split_two.
  - now rewrite H1, H2.
  - apply (@dateChar_not space); [reflexivity|exact H1].
  - apply (@dateChar_not space); [reflexivity|exact H2].
Qed.

End TimeframeFacts.

Section OffsetFacts.
Import Luxon Timeframe.
Local Open Scope Z_scope.

Lemma minus_known dt u n : minus dt (Some u) n = OK (plus dt u (- n)).
Proof. destruct dt; reflexivity. Qed.

Lemma jseq_refl s : jseq s s = true.
Proof. now apply jseq_spec. Qed.

(** [processDateWithOffset] once the count and the unit letter are
    known. *)
Lemma processDateWithOffset_parts d off n u :
  extractTimeParts off = Some (n, [u]) -> isUnitLetter u = true ->
  let anchor := decodeTrendDatetime d in
  let f := formatFor d in
  processDateWithOffset d off
  = if N.eqb u (ch "m") then
      OK (toFormat (plus (plus anchor months (- n)) days 1) f
            ++ [space] ++ toFormat anchor f)
    else if N.eqb u (ch "y") then
      OK (toFormat (plus anchor years (- n)) f ++ [space] ++ toFormat anchor f)
    else if (includes (ch "T") d
             && (if N.eqb u (ch "d") then 7 <? n else 7 * 24 <? n))%bool then
      Err (OffsetExceeds7Days d off)
    else
      OK (toFormat (plus anchor (if N.eqb u (ch "d") then days else hours) (- n)) f
            ++ [space] ++ toFormat anchor f).
Proof.
  intros E Hu anchor f. unfold processDateWithOffset. rewrite E.
  fold anchor. fold f.
  unfold isUnitLetter in Hu. rewrite !orb_true_iff, !N.eqb_eq in Hu.
  destruct Hu as [[[->| ->]| ->]| ->]; unfold UNIT_MAP;
    repeat match goal with
           | |- context [jseq ?a ?b] =>
               let v := eval vm_compute in (jseq a b) in change (jseq a b) with v
           | |- context [N.eqb (ch ?a) (ch ?b)] =>
               let v := eval vm_compute in (N.eqb (ch a) (ch b)) in
               change (N.eqb (ch a) (ch b)) with v
           end;
    cbn [andb orb]; rewrite ?minus_known, ?orb_false_r; cbn [bind]; reflexivity.
Qed.

End OffsetFacts.

(** ** Luxon: the calendar of the model *)

Section LuxonFacts.
Import Luxon.
Local Open Scope Z_scope.

Lemma dayFromYear_step y :
  dayFromYear (y + 1) = dayFromYear y + (if isLeapYear y then 366 else 365).
Proof.
  unfold dayFromYear, isLeapYear.
  destruct (Z.eqb_spec (y mod 4) 0), (Z.eqb_spec (y mod 100) 0),
    (Z.eqb_spec (y mod 400) 0); cbn [andb orb negb];
    Z.div_mod_to_equations; lia.
Qed.

Lemma dayFromYear_mono a b : a <= b -> dayFromYear a <= dayFromYear b.
Proof. intros H. unfold dayFromYear. Z.div_mod_to_equations. lia. Qed.

Lemma yearFromDay_spec d :
  dayFromYear (yearFromDay d) <= d < dayFromYear (yearFromDay d + 1).
Proof.
  unfold yearFromDay.
  set (y0 := 1970 + 400 * d / 146097).
  assert (H1 : dayFromYear (y0 - 1) <= d)
    by (unfold dayFromYear, y0; Z.div_mod_to_equations; lia).
  assert (H2 : d < dayFromYear (y0 + 2))
    by (unfold dayFromYear, y0; Z.div_mod_to_equations; lia).
  destruct (Z.leb_spec (dayFromYear (y0 + 1)) d).
  - split; [lia|]. replace (y0 + 1 + 1) with (y0 + 2) by lia. lia.
  - destruct (Z.ltb_spec d (dayFromYear y0)).
    + split; [lia|]. replace (y0 - 1 + 1) with y0 by lia. lia.
    + lia.
Qed.

(** The year of a day is the one whose first day is the last at or
    before it. *)
Lemma yearFromDay_unique d y :
  dayFromYear y <= d < dayFromYear (y + 1) -> yearFromDay d = y.
Proof.
  intros Hy. pose proof (yearFromDay_spec d) as Hs.
  destruct (Z.lt_trichotomy (yearFromDay d) y) as [Hlt|[E|Hgt]]; [|exact E|].
  - pose proof (@dayFromYear_mono (yearFromDay d + 1) y ltac:(lia)). lia.
  - pose proof (@dayFromYear_mono (y + 1) (yearFromDay d) ltac:(lia)). lia.
Qed.

Lemma month_cases m : 1 <= m <= 12 ->
  m = 1 \/ m = 2 \/ m = 3 \/ m = 4 \/ m = 5 \/ m = 6
  \/ m = 7 \/ m = 8 \/ m = 9 \/ m = 10 \/ m = 11 \/ m = 12.
Proof. lia. Qed.

Lemma monthAndDay_spec leap m d :
  1 <= m <= 12 -> 1 <= d <= nth (Z.to_nat (m - 1)) (monthLengths leap) 0 ->
  monthAndDay (monthLengths leap) 1 (daysBefore leap m + d - 1) = (m, d)
  /\ 0 <= daysBefore leap m + d - 1 < (if leap then 366 else 365).
Proof.
  intros Hm Hd. apply month_cases in Hm.
  destruct leap;
    destruct Hm as [->|[->|[->|[->|[->|[->|[->|[->|[->|[->|[->| ->]]]]]]]]]]];
    match type of Hd with
    | context [nth ?a ?b ?c] =>
        let v := eval vm_compute in (nth a b c) in change (nth a b c) with v in Hd
    end;
    match goal with
    | |- context [daysBefore ?l ?m] =>
        let v := eval vm_compute in (daysBefore l m) in
        change (daysBefore l m) with v
    end;
    cbn [monthAndDay monthLengths];
    repeat match goal with
           | |- context [Z.ltb ?a ?b] => destruct (Z.ltb_spec a b); try lia
           end;
    (split; [f_equal; lia|lia]).
Qed.

Lemma daysInMonth_normal y m :
  daysInMonth y m
  = nth (Z.to_nat ((m - 1) mod 12)) (monthLengths (isLeapYear (y + (m - 1) / 12))) 0.
Proof.
  unfold daysInMonth.
  replace ((m - 1) mod 12 + 1 - 1) with ((m - 1) mod 12) by lia.
  replace ((m - ((m - 1) mod 12 + 1)) / 12) with ((m - 1) / 12)
    by (Z.div_mod_to_equations; lia).
  reflexivity.
Qed.

(** The fields of a local time built from fields: the month is brought
    into 1..12 with the year following, a day of that month and an hour
    of the day stay as they are. *)
Lemma tsToObj_objToLocalTS y m d h :
  1 <= d <= daysInMonth y m -> 0 <= h < 24 ->
  tsToObj (objToLocalTS y m d h)
  = mkFields (y + (m - 1) / 12) ((m - 1) mod 12 + 1) d h.
Proof.
  intros Hd Hh. rewrite daysInMonth_normal in Hd.
  set (y' := y + (m - 1) / 12) in *. set (mn := (m - 1) mod 12) in *.
  assert (Hmn : 0 <= mn < 12) by (apply Z.mod_pos_bound; lia).
  unfold objToLocalTS, dayFromMonth. fold y' mn.
  destruct (@monthAndDay_spec (isLeapYear y') (mn + 1) d) as [Hmd Hrange];
    [lia|now replace (mn + 1 - 1) with mn by lia|].
  unfold daysBefore in Hmd, Hrange. replace (mn + 1 - 1) with mn in * by lia.
  set (before := fold_left Z.add (firstn (Z.to_nat mn) (monthLengths (isLeapYear y'))) 0) in *.
  set (D := dayFromYear y' + before + d - 1).
  assert (Hdiv : (D * msPerDay + h * msPerHour) / msPerDay = D)
    by (unfold msPerDay, msPerHour; Z.div_mod_to_equations; lia).
  assert (Hmod : (D * msPerDay + h * msPerHour) mod msPerDay / msPerHour = h)
    by (unfold msPerDay, msPerHour; Z.div_mod_to_equations; lia).
  unfold tsToObj. rewrite Hdiv, Hmod.
  assert (Hy : yearFromDay D = y').
  { apply yearFromDay_unique. rewrite dayFromYear_step. subst D.
    destruct (isLeapYear y'); lia. }
  rewrite Hy. replace (D - dayFromYear y') with (before + d - 1) by (subst D; lia).
  rewrite Hmd. reflexivity.
Qed.

Lemma fromObject_valid y m d h ts :
  fromObject y m d h = Valid ts ->
  1 <= m <= 12 /\ 1 <= d <= daysInMonth y m /\ 0 <= h <= 24
  /\ ts = objToLocalTS y m d h.
Proof.
  unfold fromObject.
  destruct (Z.leb_spec 1 m), (Z.leb_spec m 12), (Z.leb_spec 1 d),
    (Z.leb_spec d (daysInMonth y m)), (Z.leb_spec 0 h), (Z.leb_spec h 24);
    cbn [andb]; try discriminate.
  intros [= <-]. repeat split; assumption.
Qed.

(** Calendar arithmetic on an anchor with the fields [y], [m], [d],
    [h]: [n] months back keeps the day unless the month reached is
    shorter, and the day after is the start of the month rule; [n] years
    back likewise, with no day added. *)
Lemma plus_months_fields y m d h ts n :
  fromObject y m d h = Valid ts -> h < 24 ->
  let d' := Z.min d (daysInMonth y (m - n)) in
  plus (Valid ts) months (- n) = Valid (objToLocalTS y (m - n) d' h)
  /\ plus (plus (Valid ts) months (- n)) days 1
     = Valid (objToLocalTS y (m - n) (d' + 1) h).
Proof.
  intros Hv Hh d'. apply fromObject_valid in Hv as (Hm & Hd & Hh0 & ->).
  assert (Hc : tsToObj (objToLocalTS y m d h) = mkFields y m d h).
  { rewrite tsToObj_objToLocalTS by lia.
    replace ((m - 1) / 12) with 0 by (Z.div_mod_to_equations; lia).
    replace ((m - 1) mod 12 + 1) with m by (Z.div_mod_to_equations; lia).
    now rewrite Z.add_0_r. }
  assert (Hsub : forall a b c e, objToLocalTS a b c e mod msPerHour = 0).
  { intros. unfold objToLocalTS, msPerDay, msPerHour. Z.div_mod_to_equations. lia. }
  assert (Hdim : forall a b, 28 <= daysInMonth a b).
  { intros a b. rewrite daysInMonth_normal.
    assert (Hb : 0 <= (b - 1) mod 12 < 12) by (apply Z.mod_pos_bound; lia).
    destruct (@month_cases ((b - 1) mod 12 + 1) ltac:(lia)) as
      [E|[E|[E|[E|[E|[E|[E|[E|[E|[E|[E|E]]]]]]]]]]];
      replace ((b - 1) mod 12) with ((b - 1) mod 12 + 1 - 1) by lia; rewrite E;
      destruct (isLeapYear _); vm_compute; discriminate. }
  assert (E1 : plus (Valid (objToLocalTS y m d h)) months (- n)
               = Valid (objToLocalTS y (m - n) d' h)).
  { cbn [plus]. unfold adjustTime. rewrite Hc, Hsub. cbn [year month day hour].
    f_equal. subst d'. replace (m + - n) with (m - n) by lia.
    now rewrite !Z.add_0_r. }
  split; [exact E1|]. rewrite E1. cbn [plus]. unfold adjustTime.
  assert (Hd' : 1 <= d' <= daysInMonth y (m - n)).
  { subst d'. pose proof (Hdim y (m - n)). lia. }
  rewrite tsToObj_objToLocalTS by lia. rewrite Hsub. cbn [year month day hour].
  f_equal.
  assert (Hn : daysInMonth (y + (m - n - 1) / 12) ((m - n - 1) mod 12 + 1)
               = daysInMonth y (m - n)).
  { rewrite !daysInMonth_normal. 
    replace ((m - n - 1) mod 12 + 1 - 1) with ((m - n - 1) mod 12) by lia.
    rewrite Z.mod_mod by lia.
    replace (((m - n - 1) mod 12) / 12) with 0 by (Z.div_mod_to_equations; lia).
    now rewrite Z.add_0_r. }
  rewrite Hn. replace (Z.min d' (daysInMonth y (m - n))) with d' by lia.
  rewrite !Z.add_0_r.
  unfold objToLocalTS, dayFromMonth.
  replace ((m - n - 1) mod 12 + 1 - 1) with ((m - n - 1) mod 12) by lia.
  rewrite Z.mod_mod by lia.
  replace (((m - n - 1) mod 12) / 12) with 0 by (Z.div_mod_to_equations; lia).
  rewrite Z.add_0_r. lia.
Qed.

Lemma plus_years_fields y m d h ts n :
  fromObject y m d h = Valid ts -> h < 24 ->
  plus (Valid ts) years (- n)
  = Valid (objToLocalTS (y - n) m (Z.min d (daysInMonth (y - n) m)) h).
Proof.
  intros Hv Hh. apply fromObject_valid in Hv as (Hm & Hd & Hh0 & ->).
  assert (Hc : tsToObj (objToLocalTS y m d h) = mkFields y m d h).
  { rewrite tsToObj_objToLocalTS by lia.
    replace ((m - 1) / 12) with 0 by (Z.div_mod_to_equations; lia).
    replace ((m - 1) mod 12 + 1) with m by (Z.div_mod_to_equations; lia).
    now rewrite Z.add_0_r. }
  cbn [plus]. unfold adjustTime. rewrite Hc. cbn [year month day hour].
  f_equal. replace (y + - n) with (y - n) by lia.
  assert (Hsub : objToLocalTS y m d h mod msPerHour = 0).
  { unfold objToLocalTS, msPerDay, msPerHour. Z.div_mod_to_equations. lia. }
  rewrite Hsub. now rewrite !Z.add_0_r.
Qed.

End LuxonFacts.

Section DecodeFacts.
Import Luxon Timeframe.
Local Open Scope Z_scope.

(** A date-like text parses to the [DateTime] of its four groups of
    digits (the hour is 0 when the text has none). *)
Lemma decodeTrendDatetime_fields d :
  isValidDate d = true ->
  decodeTrendDatetime d
  = fromObject (parseInt (firstn 4 d)) (parseInt (firstn 2 (skipn 5 d)))
               (parseInt (firstn 2 (skipn 8 d))) (parseInt (skipn 11 d)).
Proof.
  intros H. pose proof (isValidDate_chars d H) as (Hall & _ & _).
  do 10 (destruct d as [|? d]; [discriminate H|]).
  destruct d as [|? d].
  - assert (HT : includes (ch "T") [n; n0; n1; n2; n3; n4; n5; n6; n7; n8] = false).
    { destruct (includes (ch "T") [n; n0; n1; n2; n3; n4; n5; n6; n7; n8]) eqn:HT;
        [|reflexivity].
      exfalso. apply existsb_exists in HT as (x & Hin & E).
      apply N.eqb_eq in E. subst x.
      rewrite forallb_forall in Hall. specialize (Hall _ Hin).
      clear - Hall H Hin.
      cbn [isValidDate forallb] in H.
      repeat match goal with
             | Hc : (_ && _)%bool = true |- _ =>
                 apply andb_true_iff in Hc; destruct Hc
             end.
      repeat (destruct Hin as [Hin|Hin];
              [subst;
               match goal with
               | Hc : isDigit (ch "T") = true |- _ => cbv in Hc; discriminate Hc
               | Hc : N.eqb (ch "T") (ch "-") = true |- _ => cbv in Hc; discriminate Hc
               end|]).
      contradiction. }
    unfold decodeTrendDatetime, formatFor. rewrite HT.
    unfold fromFormat. unfold isValidDate in H. rewrite H. reflexivity.
  - do 2 (destruct d as [|? d]; [discriminate H|]).
    destruct d as [|? d]; [|discriminate H].
    assert (HT : includes (ch "T") [n; n0; n1; n2; n3; n4; n5; n6; n7; n8; n9; n10; n11] = true).
    { cbn [isValidDate] in H. apply andb_true_iff in H as [_ H].
      apply N.eqb_eq in H. subst n9. unfold includes. cbn [existsb].
      rewrite N.eqb_refl. now rewrite !orb_true_r. }
    unfold decodeTrendDatetime, formatFor. rewrite HT.
    unfold fromFormat. unfold isValidDate in H. rewrite H. reflexivity.
Qed.

End DecodeFacts.



(** C10.  The offset pattern is searched, not anchored, and its hyphen
    is optional: a second part made of any prefix, digits, a hyphen or
    nothing, and a unit letter is offset-like.  When the prefix has no
    digit (nor a space, nor a letter that could start "now" or "today")
    [convertTimeframe] treats the part as it treats the digits, a hyphen
    and the unit letter alone: it returns the same range, or fails the
    same way on an offset of more than 7 days for an anchor with an
    hour. *)
Theorem convertTimeframe_lenient_offset :
  (forall (g ds hy : jsstring) (u : N),
      ds <> [] -> forallb isDigit ds = true -> hyphenOrNothing hy ->
      Timeframe.isUnitLetter u = true ->
      Timeframe.isValidFormat (offsetText g ds hy u) = true)
  /\
  (forall (utcNow : Z) (flag : bool) (d g ds hy : jsstring) (u : N),
      Timeframe.isValidDate d = true -> forallb prefixChar g = true ->
      ds <> [] -> forallb isDigit ds = true -> hyphenOrNothing hy ->
      Timeframe.isUnitLetter u = true ->
      let lenient := offsetText g ds hy u in
      let strict := ds ++ [ch "-"; u] in
      match Timeframe.convertTimeframe utcNow (d ++ js " " ++ strict) flag with
      | OK range =>
          Timeframe.convertTimeframe utcNow (d ++ js " " ++ lenient) flag = OK range
      | Err e =>
          e = OffsetExceeds7Days d strict
          /\ Timeframe.convertTimeframe utcNow (d ++ js " " ++ lenient) flag
             = Err (OffsetExceeds7Days d lenient)
      end)
  /\
  (forall (utcNow : Z) (flag : bool),
      Timeframe.convertTimeframe utcNow (js "2024-09-12T23 5H") flag
      = OK (js "2024-09-12T18 2024-09-12T23")
      /\ Timeframe.convertTimeframe utcNow (js "2024-09-12T23 xx5-H") flag
         = OK (js "2024-09-12T18 2024-09-12T23")).
Proof.
  assert (H : forall (utcNow : Z) (flag : bool) (d g ds hy : jsstring) (u : N),
      Timeframe.isValidDate d = true -> forallb prefixChar g = true ->
      ds <> [] -> forallb isDigit ds = true -> hyphenOrNothing hy ->
      Timeframe.isUnitLetter u = true ->
      let lenient := offsetText g ds hy u in
      let strict := ds ++ [ch "-"; u] in
      match Timeframe.convertTimeframe utcNow (d ++ js " " ++ strict) flag with
      | OK range =>
          Timeframe.convertTimeframe utcNow (d ++ js " " ++ lenient) flag = OK range
      | Err e =>
          e = OffsetExceeds7Days d strict
          /\ Timeframe.convertTimeframe utcNow (d ++ js " " ++ lenient) flag
             = Err (OffsetExceeds7Days d lenient)
      end).
  { intros utcNow flag d g ds hy u Hd Hg Hne Hds Hhy Hu lenient strict.
    change (d ++ js " " ++ strict)
      with (d ++ Timeframe.space :: offsetText [] ds [ch "-"] u).
    change (d ++ js " " ++ lenient) with (d ++ Timeframe.space :: lenient).
    unfold lenient.
    rewrite !convertTimeframe_offset; auto; [|now right].
    rewrite (@processDateWithOffset_parts d (offsetText g ds hy u) (parseInt ds) u);
      [|apply extractTimeParts_offsetText; auto using prefixChar_digits|exact Hu].
    rewrite (@processDateWithOffset_parts d (offsetText [] ds [ch "-"] u) (parseInt ds) u);
      [|apply extractTimeParts_offsetText; auto; now right|exact Hu].
    destruct (N.eqb u (ch "m")); [reflexivity|].
    destruct (N.eqb u (ch "y")); [reflexivity|].
    destruct (_ && _)%bool; [split; reflexivity|reflexivity]. }
  split; [|split; [exact H|]].
  - intros. now apply isValidFormat_offsetText.
  - intros utcNow flag.
    split.
    + pose proof (H utcNow flag (js "2024-09-12T23") [] (js "5") [] (ch "H")
                    eq_refl eq_refl ltac:(discriminate) eq_refl (or_introl eq_refl)
                    eq_refl) as E.
      cbv zeta in E.
      change (js "2024-09-12T23" ++ js " " ++ offsetText [] (js "5") [] (ch "H"))
        with (js "2024-09-12T23 5H") in E.
      change (js "2024-09-12T23" ++ js " " ++ js "5" ++ [ch "-"; ch "H"])
        with (js "2024-09-12T23 5-H") in E.
      destruct flag.
      * change (Timeframe.convertTimeframe utcNow (js "2024-09-12T23 5-H") true)
          with (@OK jsstring (js "2024-09-12T18 2024-09-12T23")) in E. exact E.
      * change (Timeframe.convertTimeframe utcNow (js "2024-09-12T23 5-H") false)
          with (@OK jsstring (js "2024-09-12T18 2024-09-12T23")) in E. exact E.
    + pose proof (H utcNow flag (js "2024-09-12T23") (js "xx") (js "5") [ch "-"] (ch "H")
                    eq_refl eq_refl ltac:(discriminate) eq_refl (or_intror eq_refl)
                    eq_refl) as E.
      cbv zeta in E.
      change (js "2024-09-12T23" ++ js " " ++ offsetText (js "xx") (js "5") [ch "-"] (ch "H"))
        with (js "2024-09-12T23 xx5-H") in E.
      change (js "2024-09-12T23" ++ js " " ++ js "5" ++ [ch "-"; ch "H"])
        with (js "2024-09-12T23 5-H") in E.
      destruct flag.
      * change (Timeframe.convertTimeframe utcNow (js "2024-09-12T23 5-H") true)
          with (@OK jsstring (js "2024-09-12T18 2024-09-12T23")) in E. exact E.
      * change (Timeframe.convertTimeframe utcNow (js "2024-09-12T23 5-H") false)
          with (@OK jsstring (js "2024-09-12T18 2024-09-12T23")) in E. exact E.
Qed.

(** The lenient reading at a date without an hour: 36 hours before
    15 March 2024 is 13 March, noon, written as a date. *)
Lemma convertTimeframe_lenient_offset_witness :
  Timeframe.convertTimeframe 0 (js "2024-03-15 back:36H") false
  = OK (js "2024-03-13 2024-03-15").
Proof.
  exact (proj1 (proj2 convertTimeframe_lenient_offset) 0%Z false
           (js "2024-03-15") (js "back:") (js "36") [] (ch "H")
           eq_refl eq_refl ltac:(discriminate) eq_refl (or_introl eq_refl) eq_refl).
Defined.

Section TwoDatesFacts.
Import Luxon Timeframe.
Local Open Scope Z_scope.

(** A date without an hour parses to a midnight. *)
Lemma decode_date_midnight d ts :
  isValidDate d = true -> includes (ch "T") d = false ->
  decodeTrendDatetime d = Valid ts ->
  ts mod msPerDay = 0 /\ hour (tsToObj ts) = 0
  /\ startOfDay (Valid ts) = Valid ts.
Proof.
  intros Hd HT E. unfold decodeTrendDatetime, formatFor in E. rewrite HT in E.
  assert (Hts : exists k, ts = k * msPerDay).
  { unfold fromFormat in E.
    do 10 (destruct d as [|? d]; [discriminate E|]).
    destruct d as [|? d]; [|discriminate E].
    destruct (_ && _)%bool; [|discriminate E].
    unfold fromObject in E. destruct (_ && _)%bool; [|discriminate E].
    injection E as <-. unfold objToLocalTS. eexists. rewrite Z.add_0_r.
    reflexivity. }
  destruct Hts as [k ->].
  assert (Hm : (k * msPerDay) mod msPerDay = 0) by (apply Z_mod_mult).
  split; [exact Hm|split].
  - unfold tsToObj. 
    destruct (monthAndDay _ _ _). cbn [hour]. now rewrite Hm.
  - cbn [startOfDay]. f_equal. rewrite Z_div_mult; [reflexivity|reflexivity].
Qed.

End TwoDatesFacts.

(** C7.  Two date-like parts.  With no hour in either the result is the
    input, character for character.  With an hour in one of them the
    part without one is read as its date's midnight, the call throws
    "Date difference cannot exceed 7 days..." when the two instants are
    more than 7 days apart, and otherwise returns both instants written
    with their hour. *)
Theorem convertTimeframe_two_dates_rule :
  (forall (utcNow : Z) (flag : bool) (d1 d2 : jsstring),
      Timeframe.isValidDate d1 = true -> Timeframe.isValidDate d2 = true ->
      let isT1 := includes (ch "T") d1 in
      let isT2 := includes (ch "T") d2 in
      let r := Timeframe.convertTimeframe utcNow (d1 ++ js " " ++ d2) flag in
      (isT1 = false -> isT2 = false -> r = OK (d1 ++ js " " ++ d2))
      /\ (isT1 = true \/ isT2 = true ->
          let date1 := if isT1 then Timeframe.decodeTrendDatetime d1
                       else Luxon.startOfDay (Timeframe.decodeTrendDatetime d1) in
          let date2 := if isT2 then Timeframe.decodeTrendDatetime d2
                       else Luxon.startOfDay (Timeframe.decodeTrendDatetime d2) in
          (forall ms, Luxon.diff date2 date1 = Some ms ->
                      (7 * Luxon.msPerDay < Z.abs ms)%Z ->
                      r = Err (DateDifferenceExceeds7Days d1 d2))
          /\ ((forall ms, Luxon.diff date2 date1 = Some ms ->
                          (Z.abs ms <= 7 * Luxon.msPerDay)%Z) ->
              r = OK (Luxon.toFormat date1 Luxon.DATE_T_FORMAT ++ js " "
                        ++ Luxon.toFormat date2 Luxon.DATE_T_FORMAT))))
  /\ (forall (d : jsstring) (ts : Z),
         Timeframe.isValidDate d = true -> includes (ch "T") d = false ->
         Timeframe.decodeTrendDatetime d = Luxon.Valid ts ->
         (ts mod Luxon.msPerDay = 0)%Z
         /\ Luxon.hour (Luxon.tsToObj ts) = 0%Z
         /\ Luxon.startOfDay (Luxon.Valid ts) = Luxon.Valid ts)
  /\ (forall (utcNow : Z) (flag : bool),
         Timeframe.convertTimeframe utcNow (js "2024-09-12T23 2024-09-13") flag
         = OK (js "2024-09-12T23 2024-09-13T00")).
Proof.
  assert (H : forall (utcNow : Z) (flag : bool) (d1 d2 : jsstring),
      Timeframe.isValidDate d1 = true -> Timeframe.isValidDate d2 = true ->
      let isT1 := includes (ch "T") d1 in
      let isT2 := includes (ch "T") d2 in
      let r := Timeframe.convertTimeframe utcNow (d1 ++ js " " ++ d2) flag in
      (isT1 = false -> isT2 = false -> r = OK (d1 ++ js " " ++ d2))
      /\ (isT1 = true \/ isT2 = true ->
          let date1 := if isT1 then Timeframe.decodeTrendDatetime d1
                       else Luxon.startOfDay (Timeframe.decodeTrendDatetime d1) in
          let date2 := if isT2 then Timeframe.decodeTrendDatetime d2
                       else Luxon.startOfDay (Timeframe.decodeTrendDatetime d2) in
          (forall ms, Luxon.diff date2 date1 = Some ms ->
                      (7 * Luxon.msPerDay < Z.abs ms)%Z ->
                      r = Err (DateDifferenceExceeds7Days d1 d2))
          /\ ((forall ms, Luxon.diff date2 date1 = Some ms ->
                          (Z.abs ms <= 7 * Luxon.msPerDay)%Z) ->
              r = OK (Luxon.toFormat date1 Luxon.DATE_T_FORMAT ++ js " "
                        ++ Luxon.toFormat date2 Luxon.DATE_T_FORMAT)))).
  { intros utcNow flag d1 d2 H1 H2 isT1 isT2 r.
    assert (Er : r = Timeframe.processTwoDates d1 d2)
      by (apply convertTimeframe_two_dates; assumption).
    rewrite Er. unfold Timeframe.processTwoDates. fold isT1 isT2. split.
    - intros -> ->. reflexivity.
    - intros HT. cbv zeta.
      set (date1 := if isT1 then Timeframe.decodeTrendDatetime d1
                    else Luxon.startOfDay (Timeframe.decodeTrendDatetime d1)).
      set (date2 := if isT2 then Timeframe.decodeTrendDatetime d2
                    else Luxon.startOfDay (Timeframe.decodeTrendDatetime d2)).
      assert (E : (negb isT1 && negb isT2)%bool = false)
        by (destruct HT as [-> | ->]; [reflexivity|apply andb_false_r]).
      rewrite E.
      assert (E1 : (if (isT1 && negb isT2)%bool then Timeframe.decodeTrendDatetime d1
                    else if (negb isT1 && isT2)%bool
                         then Luxon.startOfDay (Timeframe.decodeTrendDatetime d1)
                         else Timeframe.decodeTrendDatetime d1) = date1).
      { subst date1. destruct isT1, isT2; try reflexivity.
        destruct HT; discriminate. }
      assert (E2 : (if (isT1 && negb isT2)%bool
                    then Luxon.startOfDay (Timeframe.decodeTrendDatetime d2)
                    else Timeframe.decodeTrendDatetime d2) = date2).
      { subst date2. destruct isT1, isT2; try reflexivity.
        destruct HT; discriminate. }
      rewrite E1, E2.
      assert (E3 : (isT1 || isT2)%bool = true)
        by (destruct HT as [-> | ->]; [reflexivity|apply orb_true_r]).
      rewrite E3. cbn [andb]. unfold Timeframe.moreThan7Days. split.
      + intros ms Hms Hgt. rewrite Hms.
        destruct (Z.ltb_spec (7 * Luxon.msPerDay) (Z.abs ms)); [reflexivity|lia].
      + intros Hle. destruct (Luxon.diff date2 date1) as [ms|]; [|reflexivity].
        specialize (Hle ms eq_refl).
        destruct (Z.ltb_spec (7 * Luxon.msPerDay) (Z.abs ms)); [lia|reflexivity]. }
  split; [exact H|split].
  - intros d ts Hd HT E. exact (@decode_date_midnight d ts Hd HT E).
  - intros utcNow flag.
    destruct (H utcNow flag (js "2024-09-12T23") (js "2024-09-13") eq_refl eq_refl)
      as [_ H2].
    destruct (H2 (or_introl eq_refl)) as [_ H3].
    apply H3. intros ms Hms. vm_compute in Hms. injection Hms as <-.
    unfold Luxon.msPerDay. lia.
Qed.

(** The rule at an end given with its hour and a start without one. *)
Lemma convertTimeframe_two_dates_rule_witness :
  Timeframe.convertTimeframe 0 (js "2024-09-12 2024-09-13T12") false
  = OK (js "2024-09-12T00 2024-09-13T12").
Proof.
  refine (proj2 (proj2 (proj1 convertTimeframe_two_dates_rule 0%Z false
                          (js "2024-09-12") (js "2024-09-13T12") eq_refl eq_refl)
                   (or_intror eq_refl)) _).
  intros ms Hms. vm_compute in Hms. injection Hms as <-.
  unfold Luxon.msPerDay. lia.
Defined.

(** C8.  [getResolutionAndRange] is the chain of strict comparisons on
    the duration of the timeframe: a duration below a threshold falls in
    the bucket under it, a duration at the threshold in the next one.
    The thresholds are 5, 36, 72, 192, 6480 and 45600 hours; a duration
    that is not a number (an endpoint that is no date) compares false
    everywhere and lands in "1 month".  The last part evaluates explicit
    ranges whose durations sit one step under and exactly at each
    threshold. *)
Theorem getResolutionAndRange_thresholds :
  (forall (utcNow : Z) (timeframe : jsstring),
      match Timeframe.timeframeToDuration utcNow timeframe with
      | OK duration =>
          Timeframe.getResolutionAndRange utcNow timeframe
          = OK (Timeframe.resolutionOf duration)
      | Err e => Timeframe.getResolutionAndRange utcNow timeframe = Err e
      end)
  /\
  (forall ms : Z,
      let h := Luxon.msPerHour in
      let resolution := fst (Timeframe.resolutionOf (Some ms)) in
      ((ms < 5 * h)%Z -> resolution = js "1 minute")
      /\ ((5 * h <= ms < 36 * h)%Z -> resolution = js "8 minutes")
      /\ ((36 * h <= ms < 72 * h)%Z -> resolution = js "16 minutes")
      /\ ((72 * h <= ms < 192 * h)%Z -> resolution = js "1 hour")
      /\ ((192 * h <= ms < 6480 * h)%Z -> resolution = js "1 day")
      /\ ((6480 * h <= ms < 45600 * h)%Z -> resolution = js "1 week")
      /\ ((45600 * h <= ms)%Z -> resolution = js "1 month"))
  /\ fst (Timeframe.resolutionOf None) = js "1 month"
  /\
  (forall utcNow : Z,
      let resolution (tf : String.string) :=
        match Timeframe.getResolutionAndRange utcNow (js tf) with
        | OK r => Some (fst r)
        | Err _ => None
        end in
      resolution "2024-01-01T00 2024-01-01T04"%string = Some (js "1 minute")
      /\ resolution "2024-01-01T00 2024-01-01T05"%string = Some (js "8 minutes")
      /\ resolution "2024-01-01T00 2024-01-02T11"%string = Some (js "8 minutes")
      /\ resolution "2024-01-01T00 2024-01-02T12"%string = Some (js "16 minutes")
      /\ resolution "2024-01-01T00 2024-01-03T23"%string = Some (js "16 minutes")
      /\ resolution "2024-01-01T00 2024-01-04T00"%string = Some (js "1 hour")
      /\ resolution "2024-01-01 2024-01-08"%string = Some (js "1 hour")
      /\ resolution "2024-01-01 2024-01-09"%string = Some (js "1 day")
      /\ resolution "2024-01-01 2024-09-26"%string = Some (js "1 day")
      /\ resolution "2024-01-01 2024-09-27"%string = Some (js "1 week")
      /\ resolution "2024-01-01 2029-03-14"%string = Some (js "1 week")
      /\ resolution "2024-01-01 2029-03-15"%string = Some (js "1 month")).
Proof.
  split; [|split; [|split]].
  - intros utcNow timeframe. unfold Timeframe.getResolutionAndRange.
    destruct (Timeframe.timeframeToDuration utcNow timeframe); reflexivity.
  - intros ms h resolution. subst resolution h.
    unfold Timeframe.resolutionOf, Timeframe.hoursBelow, Luxon.msPerHour.
    repeat split; intros Hms;
      repeat match goal with
             | |- context [Z.ltb ?a ?b] => destruct (Z.ltb_spec a b); try lia
             end;
      reflexivity.
  - reflexivity.
  - intros utcNow. cbv zeta. repeat split; vm_compute; reflexivity.
Qed.

(** The thresholds at 4 hours 59 minutes. *)
Lemma getResolutionAndRange_thresholds_witness :
  fst (Timeframe.resolutionOf (Some 17940000%Z)) = js "1 minute".
Proof.
  refine (proj1 (proj1 (proj2 getResolutionAndRange_thresholds) 17940000%Z) _).
  unfold Luxon.msPerHour. lia.
Defined.

Section ResolutionFacts.
Import Luxon Timeframe.
Local Open Scope Z_scope.

Lemma mapM_length {A B} (f : A -> result B) xs ys :
  mapM f xs = OK ys -> length ys = length xs.
Proof.
  revert ys; induction xs as [|x xs IH]; intros ys; cbn [mapM].
  - intros [= <-]. reflexivity.
  - destruct (f x) as [y|]; [|discriminate]. cbn [bind].
    destruct (mapM f xs) as [ys'|]; [|discriminate]. cbn [bind].
    intros [= <-]. cbn. f_equal. now apply IH.
Qed.

Lemma existsb_jseq v seen : existsb (jseq v) seen = true <-> In v seen.
Proof.
  rewrite existsb_exists. split.
  - intros (x & Hx & E). apply jseq_spec in E. now subst.
  - intros H. exists v. split; [exact H|apply jseq_refl].
Qed.

Lemma newSet_strings_In seen vs x :
  In x (newSet seen vs) <-> In x vs /\ ~ In x seen.
Proof.
  revert seen; induction vs as [|v vs IH]; intros seen; cbn [newSet].
  - cbn. tauto.
  - destruct (existsb (jseq v) seen) eqn:E.
    + apply existsb_jseq in E. rewrite IH. cbn [In]. split.
      * tauto.
      * intros [[<-|H] Hn]; [contradiction|tauto].
    + assert (Hv : ~ In v seen).
      { intros Hin. apply existsb_jseq in Hin. congruence. }
      cbn [In]. rewrite IH. cbn [In]. split.
      * intros [<-|[H1 H2]]; [tauto|]. split; [tauto|]. tauto.
      * intros [[<-|H1] H2]; [now left|].
        destruct (list_eq_dec N.eq_dec v x) as [<-|Hne]; [now left|].
        right. split; [exact H1|]. intros [E2|H3]; [congruence|contradiction].
Qed.

Lemma newSet_strings_NoDup seen vs : NoDup (newSet seen vs).
Proof.
  revert seen; induction vs as [|v vs IH]; intros seen; cbn [newSet].
  - constructor.
  - destruct (existsb (jseq v) seen); [apply IH|].
    constructor; [|apply IH].
    rewrite newSet_strings_In. intros [_ Hn]. apply Hn. now left.
Qed.

(** The set of the values has more than one member exactly when two of
    the values differ. *)
Lemma newSet_size vs :
  (1 < length (newSet [] vs))%nat
  <-> exists a b, In a vs /\ In b vs /\ a <> b.
Proof.
  split.
  - intros Hlen. pose proof (newSet_strings_NoDup [] vs) as Hnd.
    destruct (newSet [] vs) as [|a [|b l]] eqn:E; cbn in Hlen; try lia.
    exists a, b. repeat split.
    + apply (proj1 (newSet_strings_In [] vs a)). rewrite E. now left.
    + apply (proj1 (newSet_strings_In [] vs b)). rewrite E. right. now left.
    + intros ->. inversion Hnd as [|? ? Hn _]. apply Hn. now left.
  - intros (a & b & Ha & Hb & Hne).
    assert (Ha' : In a (newSet [] vs)) by (apply newSet_strings_In; auto).
    assert (Hb' : In b (newSet [] vs)) by (apply newSet_strings_In; auto).
    destruct (newSet [] vs) as [|x [|y l]]; cbn in *; try lia; try contradiction.
    destruct Ha' as [<-|[]], Hb' as [<-|[]]. congruence.
Qed.

Lemma fold_min_spec (l : list (Z * jsstring)) d0 t0 :
  exists m t,
    fold_left stepMin (map (fun x => (Some (fst x), snd x)) l) (Some d0, t0)
    = (Some m, t)
    /\ ((m, t) = (d0, t0) \/ In (m, t) l)
    /\ m <= d0 /\ forall x, In x l -> m <= fst x.
Proof.
  revert d0 t0; induction l as [|[d t] l IH]; intros d0 t0; cbn [map fold_left].
  - exists d0, t0. repeat split; auto; try lia. intros x [].
  - unfold stepMin at 2. cbn [fst snd msLt].
    destruct (Z.ltb_spec d d0) as [Hlt|Hge].
    + destruct (IH d t) as (m & tm & E & Hin & Hle & Hall).
      exists m, tm. split; [exact E|split; [|split]].
      * right. destruct Hin as [[= -> ->]|Hin]; [now left|now right].
      * lia.
      * intros x [<-|Hx]; [exact Hle|now apply Hall].
    + destruct (IH d0 t0) as (m & tm & E & Hin & Hle & Hall).
      exists m, tm. split; [exact E|split; [|split]].
      * destruct Hin as [Hin|Hin]; [now left|right; now right].
      * exact Hle.
      * intros x [<-|Hx]; [cbn; lia|now apply Hall].
Qed.

Lemma fold_max_spec (l : list (Z * jsstring)) d0 t0 :
  exists m t,
    fold_left stepMax (map (fun x => (Some (fst x), snd x)) l) (Some d0, t0)
    = (Some m, t)
    /\ ((m, t) = (d0, t0) \/ In (m, t) l)
    /\ d0 <= m /\ forall x, In x l -> fst x <= m.
Proof.
  revert d0 t0; induction l as [|[d t] l IH]; intros d0 t0; cbn [map fold_left].
  - exists d0, t0. repeat split; auto; try lia. intros x [].
  - unfold stepMax at 2. cbn [fst snd msLt].
    destruct (Z.ltb_spec d0 d) as [Hlt|Hge].
    + destruct (IH d t) as (m & tm & E & Hin & Hle & Hall).
      exists m, tm. split; [exact E|split; [|split]].
      * right. destruct Hin as [[= -> ->]|Hin]; [now left|now right].
      * lia.
      * intros x [<-|Hx]; [exact Hle|now apply Hall].
    + destruct (IH d0 t0) as (m & tm & E & Hin & Hle & Hall).
      exists m, tm. split; [exact E|split; [|split]].
      * destruct Hin as [Hin|Hin]; [now left|right; now right].
      * exact Hle.
      * intros x [<-|Hx]; [cbn; lia|now apply Hall].
Qed.

Lemma combine_map_Some (ds : list Z) (tfs : list jsstring) :
  combine (map Some ds) tfs
  = map (fun x => (Some (fst x), snd x)) (combine ds tfs).
Proof.
  revert tfs; induction ds as [|d ds IH]; intros [|t tfs]; cbn; try reflexivity.
  now rewrite IH.
Qed.

End ResolutionFacts.

(** C9.  For a non-empty sequence of timeframes whose durations are all
    numbers: [checkTimeframeResolution] throws "Different resolutions
    detected", with the timeframe, duration, resolution and range of
    every element, exactly when two elements fall in different buckets;
    when all buckets agree it throws "The maximum delta ... should be
    less than twice the minimum delta ...", naming a timeframe of the
    largest duration and one of the smallest, exactly when the largest
    duration is at least twice the smallest, and returns otherwise. *)
Theorem checkTimeframeResolution_rule :
  forall (utcNow : Z) (timeframes : list jsstring)
         (resolutions : list (jsstring * jsstring)) (ds : list Z),
    timeframes <> [] ->
    mapM (Timeframe.getResolutionAndRange utcNow) timeframes = OK resolutions ->
    mapM (Timeframe.timeframeToDuration utcNow) timeframes = OK (map Some ds) ->
    let r := Timeframe.checkTimeframeResolution utcNow (Encoder.Arr timeframes) in
    let buckets := map fst resolutions in
    ((exists a b, In a buckets /\ In b buckets /\ a <> b) ->
     r = Err (DifferentResolutions
                (map (fun x => match x with
                               | (timeframe, duration, (resolution, range)) =>
                                   (timeframe, duration, resolution, range)
                               end)
                     (combine (combine timeframes (map Some ds)) resolutions))))
    /\
    ((forall a b, In a buckets -> In b buckets -> a = b) ->
     exists dmin tmin dmax tmax,
       In (dmin, tmin) (combine ds timeframes)
       /\ In (dmax, tmax) (combine ds timeframes)
       /\ (forall d, In d ds -> (dmin <= d <= dmax)%Z)
       /\ ((2 * dmin <= dmax)%Z ->
           r = Err (RatioTooLarge (Some dmax) tmax (Some dmin) tmin))
       /\ ((dmax < 2 * dmin)%Z -> r = OK tt)).
Proof.
  intros utcNow timeframes resolutions ds Hne Hres Hdur r buckets.
  subst r. unfold Timeframe.checkTimeframeResolution. cbn [Encoder.toArray].
  rewrite Hres, Hdur. cbn [bind]. fold buckets.
  pose proof (newSet_size buckets) as Hsize.
  split.
  - intros Hdiff. apply Hsize in Hdiff.
    apply Nat.ltb_lt in Hdiff. rewrite Hdiff. reflexivity.
  - intros Hsame.
    assert (Hnot : Nat.ltb 1 (length (Timeframe.newSet [] buckets)) = false).
    { apply Nat.ltb_ge. apply Nat.nlt_ge. intros Hlt.
      apply Hsize in Hlt as (a & b & Ha & Hb & Hab). apply Hab. now apply Hsame. }
    rewrite Hnot.
    pose proof (mapM_length _ _ Hdur) as Hlen. rewrite length_map in Hlen.
    destruct timeframes as [|t0 tfs]; [congruence|].
    destruct ds as [|d0 ds]; [discriminate Hlen|].
    cbn [map]. rewrite <- (map_cons Some d0 ds).
    rewrite combine_map_Some.
    change (fun min x : option Z * jsstring =>
              if Timeframe.msLt (fst x) (fst min) then x else min) with stepMin.
    change (fun max x : option Z * jsstring =>
              if Timeframe.msLt (fst max) (fst x) then x else max) with stepMax.
    destruct (fold_min_spec (combine (d0 :: ds) (t0 :: tfs)) d0 t0)
      as (dmin & tmin & Emin & Hmin_in & Hmin0 & Hmin).
    destruct (fold_max_spec (combine (d0 :: ds) (t0 :: tfs)) d0 t0)
      as (dmax & tmax & Emax & Hmax_in & Hmax0 & Hmax).
    rewrite Emin, Emax.
    exists dmin, tmin, dmax, tmax.
    assert (Hhead : In (d0, t0) (combine (d0 :: ds) (t0 :: tfs))) by now left.
    split; [destruct Hmin_in as [->|H]; assumption|].
    split; [destruct Hmax_in as [->|H]; assumption|].
    split.
    + intros d Hd.
      assert (exists t, In (d, t) (combine (d0 :: ds) (t0 :: tfs))) as [t Ht].
      { clear - Hd Hlen. revert Hd Hlen. generalize (d0 :: ds) (t0 :: tfs).
        induction l as [|x l IH]; intros [|y l'] Hd Hlen; try contradiction;
          try discriminate.
        destruct Hd as [->|Hd].
        - exists y. now left.
        - destruct (IH l' Hd) as [t Ht]; [cbn in Hlen; lia|]. exists t. now right. }
      specialize (Hmin _ Ht). specialize (Hmax _ Ht). cbn in Hmin, Hmax. lia.
    + unfold Timeframe.msGeTwice. split; intros Hc.
      * destruct (Z.leb_spec (dmin * 2) dmax); [reflexivity|lia].
      * destruct (Z.leb_spec (dmin * 2) dmax); [lia|reflexivity].
Qed.

(** The rule at one hour against three hours: the same bucket, and a
    ratio of 3. *)
Lemma checkTimeframeResolution_rule_witness :
  Timeframe.checkTimeframeResolution 1726182000000
    (Encoder.Arr [js "now 1-H"; js "now 3-H"])
  = Err (RatioTooLarge (Some 10800000%Z) (js "now 3-H")
                       (Some 3600000%Z) (js "now 1-H")).
Proof.
  destruct (@checkTimeframeResolution_rule 1726182000000
              [js "now 1-H"; js "now 3-H"]
              [(js "1 minute", js "delta < 5 hours");
               (js "1 minute", js "delta < 5 hours")]
              [3600000; 10800000]%Z
              ltac:(discriminate) eq_refl eq_refl) as [_ H].
  destruct H as (dmin & tmin & dmax & tmax & Hmin & Hmax & Hall & Hfail & _).
  - intros a b [<-|[<-|[]]] [<-|[<-|[]]]; reflexivity.
  - assert (dmin = 3600000%Z /\ dmax = 10800000%Z) as [-> ->].
    { pose proof (Hall 3600000%Z (or_introl eq_refl)).
      pose proof (Hall 10800000%Z (or_intror (or_introl eq_refl))).
      destruct Hmin as [[= <- _]|[[= <- _]|[]]], Hmax as [[= <- _]|[[= <- _]|[]]]; lia. }
    destruct Hmin as [Hmin|[Hmin|[]]]; [|discriminate Hmin].
    destruct Hmax as [Hmax|[Hmax|[]]]; [discriminate Hmax|].
    injection Hmin as <-. injection Hmax as <-.
    apply Hfail. lia.
Defined.

(** ** Timeframes: what the conversion never does, and relative offsets *)

Section FormatFacts.
Import Luxon Timeframe.

Lemma offsetAt_timePartsAt s :
  offsetAt s = true -> timePartsAt s <> None.
Proof.
  unfold offsetAt, timePartsAt. destruct (span isDigit s) as [ds r].
  destruct ds as [|d ds]; [discriminate|].
  destruct r as [|a [|b [|c r]]]; try discriminate.
  - intros Hu. rewrite (unit_not_dash _ Hu). cbn [span]. rewrite Hu. discriminate.
  - intros H. apply andb_true_iff in H as [Hh Hu]. rewrite Hh.
    cbn [span]. rewrite Hu. discriminate.
Qed.

Lemma isValidFormat_extractTimeParts s :
  isValidFormat s = true -> extractTimeParts s <> None.
Proof.
  induction s as [|c s IH]; cbn [isValidFormat extractTimeParts]; intros H.
  - rewrite orb_false_r in H. apply offsetAt_timePartsAt in H.
    destruct (timePartsAt []) as [[ds us]|]; congruence.
  - destruct (timePartsAt (c :: s)) as [[ds us]|] eqn:E; [discriminate|].
    apply orb_true_iff in H as [H|H].
    + apply offsetAt_timePartsAt in H. congruence.
    + now apply IH.
Qed.

Lemma processTwoDates_no_TypeError a b : processTwoDates a b <> Err TypeError.
Proof.
  unfold processTwoDates.
  repeat match goal with
         | |- context [if ?c then _ else _] => destruct c
         end; discriminate.
Qed.

Lemma processDateWithOffset_no_TypeError d off :
  isValidFormat off = true -> processDateWithOffset d off <> Err TypeError.
Proof.
  intros H. apply isValidFormat_extractTimeParts in H.
  unfold processDateWithOffset.
  destruct (extractTimeParts off) as [[n u]|]; [|congruence].
  assert (Hm : forall dt o k, minus dt o k <> Err TypeError).
  { intros [|ts] [o|] k; discriminate. }
  repeat match goal with
         | |- context [if ?c then _ else _] => destruct c
         end; try discriminate;
  match goal with
  | |- context [minus ?a ?b ?c] =>
      specialize (Hm a b c); destruct (minus a b c); cbn [bind]; congruence
  end.
Qed.

End FormatFacts.

(** X1.  A second part that [isValidFormat] accepts always yields a
    count and a unit in [extractTimeParts]: the pattern searched there
    matches wherever the validated one does.  So [convertTimeframe]
    never destructures [null]: whatever the timeframe, it does not end
    in a TypeError. *)
Theorem convertTimeframe_never_destructures_null :
  (forall s, Timeframe.isValidFormat s = true -> Timeframe.extractTimeParts s <> None)
  /\ forall utcNow timeframe flag,
      Timeframe.convertTimeframe utcNow timeframe flag <> Err TypeError.
Proof.
  split; [exact isValidFormat_extractTimeParts|].
  intros utcNow timeframe flag. unfold Timeframe.convertTimeframe.
  destruct (_ && _)%bool; [discriminate|].
  destruct (_ && _)%bool; [discriminate|].
  destruct (split _ _) as [|p1 [|p2 [|p3 ps]]]; try discriminate.
  destruct (Timeframe.isValidDate p1); [|discriminate].
  destruct (Timeframe.isValidDate p2); [apply processTwoDates_no_TypeError|].
  destruct (Timeframe.isValidFormat p2) eqn:E; [|discriminate].
  now apply processDateWithOffset_no_TypeError.
Qed.

Section CalendarInverse.
Import Luxon.
Local Open Scope Z_scope.

Lemma monthAndDay_inv (leap : bool) k m dd :
  0 <= k < (if leap then 366 else 365) ->
  monthAndDay (monthLengths leap) 1 k = (m, dd) ->
  1 <= m <= 12 /\ 1 <= dd <= nth (Z.to_nat (m - 1)) (monthLengths leap) 0
  /\ daysBefore leap m + dd - 1 = k.
Proof.
  intros Hk. destruct leap; cbn [monthAndDay monthLengths];
    repeat match goal with
           | |- context [Z.ltb ?a ?b] => destruct (Z.ltb_spec a b)
           end;
    intros [= <- <-];
    (split; [lia|]);
    match goal with
    | |- context [nth ?a ?b ?c] =>
        let v := eval vm_compute in (nth a b c) in change (nth a b c) with v
    end;
    match goal with
    | |- context [daysBefore ?l ?m] =>
        let v := eval vm_compute in (daysBefore l m) in
        change (daysBefore l m) with v
    end; lia.
Qed.

(** The fields of a local time name a day of the calendar and an hour
    of the day, and lead back to the start of its hour. *)
Lemma objToLocalTS_tsToObj ts :
  let c := tsToObj ts in
  1 <= month c <= 12 /\ 1 <= day c <= daysInMonth (year c) (month c)
  /\ 0 <= hour c < 24
  /\ objToLocalTS (year c) (month c) (day c) (hour c) + ts mod msPerHour = ts.
Proof.
  unfold tsToObj.
  set (d := ts / msPerDay). set (y := yearFromDay d).
  pose proof (yearFromDay_spec d) as Hy. fold y in Hy.
  rewrite dayFromYear_step in Hy.
  destruct (monthAndDay (monthLengths (isLeapYear y)) 1 (d - dayFromYear y))
    as [m dd] eqn:E.
  apply monthAndDay_inv in E as (Hm & Hd & Hk);
    [|destruct (isLeapYear y); lia].
  cbn [year month day hour].
  assert (Hq : (m - 1) / 12 = 0) by (Z.div_mod_to_equations; lia).
  assert (Hr : (m - 1) mod 12 = m - 1) by (Z.div_mod_to_equations; lia).
  split; [exact Hm|]. split.
  { rewrite daysInMonth_normal, Hq, Hr, Z.add_0_r. exact Hd. }
  split.
  { unfold msPerDay, msPerHour. Z.div_mod_to_equations. lia. }
  unfold objToLocalTS, dayFromMonth. rewrite Hq, Hr, Z.add_0_r.
  unfold daysBefore in Hk.
  set (b := fold_left Z.add (firstn (Z.to_nat (m - 1)) (monthLengths (isLeapYear y))) 0) in *.
  assert (Hd' : dayFromYear y + b + dd - 1 = d) by lia.
  rewrite Hd'. subst d. unfold msPerDay, msPerHour.
  Z.div_mod_to_equations. lia.
Qed.

Lemma objToLocalTS_day_shift y m d h n :
  objToLocalTS y m (d + n) h = objToLocalTS y m d h + n * msPerDay.
Proof. unfold objToLocalTS. generalize (dayFromMonth y (m - 1)). intros. ring. Qed.

Lemma adjustTime_hours ts n : adjustTime ts hours n = ts + n * msPerHour.
Proof.
  pose proof (objToLocalTS_tsToObj ts) as (Hm & Hd & Hh & E).
  unfold adjustTime. cbv zeta in *.
  rewrite Z.min_l by apply Hd. rewrite Z.add_0_r. now rewrite E.
Qed.

Lemma adjustTime_days ts n : adjustTime ts days n = ts + n * msPerDay.
Proof.
  pose proof (objToLocalTS_tsToObj ts) as (Hm & Hd & Hh & E).
  unfold adjustTime. cbv zeta in *.
  rewrite Z.min_l by apply Hd.
  rewrite objToLocalTS_day_shift, Z.add_0_r, Z.add_shuffle0. now rewrite E.
Qed.

End CalendarInverse.

Section FormatRoundTrip.
Import Luxon Timeframe.
Local Open Scope Z_scope.

Lemma padStart_2_table :
  forallb (fun i => match padStart (Z.of_nat i) 2 with
                    | [a; b] => isDigit a && isDigit b
                                && (parseInt [a; b] =? Z.of_nat i)
                    | _ => false
                    end) (seq 0 100) = true.
Proof. vm_compute. reflexivity. Qed.

Lemma padStart_4_table :
  forallb (fun i => match padStart (Z.of_nat i) 4 with
                    | [a; b; c; d] => isDigit a && isDigit b && isDigit c && isDigit d
                                      && (parseInt [a; b; c; d] =? Z.of_nat i)
                    | _ => false
                    end) (seq 0 (100 * 100)) = true.
Proof. vm_compute. reflexivity. Qed.

Lemma padStart_2 n :
  0 <= n < 100 ->
  exists a b, padStart n 2 = [a; b] /\ isDigit a = true /\ isDigit b = true
              /\ parseInt [a; b] = n.
Proof.
  intros Hn. pose proof padStart_2_table as H. rewrite forallb_forall in H.
  specialize (H (Z.to_nat n) ltac:(apply in_seq; lia)).
  rewrite Z2Nat.id in H by lia.
  destruct (padStart n 2) as [|a [|b [|c l]]]; try discriminate H.
  exists a, b. rename H into H'.
  apply andb_true_iff in H' as [H' H3]. apply andb_true_iff in H' as [H1 H2].
  apply Z.eqb_eq in H3. auto.
Qed.

Lemma padStart_4 n :
  0 <= n < 10000 ->
  exists a b c d, padStart n 4 = [a; b; c; d]
    /\ isDigit a = true /\ isDigit b = true /\ isDigit c = true /\ isDigit d = true
    /\ parseInt [a; b; c; d] = n.
Proof.
  intros Hn. pose proof padStart_4_table as H. rewrite forallb_forall in H.
  specialize (H (Z.to_nat n) ltac:(apply in_seq; lia)).
  rewrite Z2Nat.id in H by lia.
  destruct (padStart n 4) as [|a [|b [|c [|d [|e l]]]]]; try discriminate H.
  exists a, b, c, d. rename H into H'.
  apply andb_true_iff in H' as [H' H5]. apply andb_true_iff in H' as [H' H4].
  apply andb_true_iff in H' as [H' H3]. apply andb_true_iff in H' as [H1 H2].
  apply Z.eqb_eq in H5. auto 10.
Qed.

Lemma digit_not c x : isDigit c = true -> isDigit x = false -> N.eqb x c = false.
Proof.
  intros Hc Hx. destruct (N.eqb_spec x c) as [->|]; [congruence|reflexivity].
Qed.

(** A local time on the hour, in a year of four digits, is written as a
    date-like text that parses back to it. *)
Lemma decode_toFormat_hour ts :
  0 <= year (tsToObj ts) < 10000 -> ts mod msPerHour = 0 ->
  let s := toFormat (Valid ts) DATE_T_FORMAT in
  isValidDate s = true /\ includes (ch "T") s = true
  /\ ~ In space s /\ decodeTrendDatetime s = Valid ts.
Proof.
  intros Hy Hts. pose proof (objToLocalTS_tsToObj ts) as (Hm & Hd & Hh & E).
  cbv zeta in *. cbn [toFormat].
  assert (Hdim : daysInMonth (year (tsToObj ts)) (month (tsToObj ts)) <= 31).
  { rewrite daysInMonth_normal.
    destruct (@month_cases (month (tsToObj ts)) Hm) as
      [->|[->|[->|[->|[->|[->|[->|[->|[->|[->|[->| ->]]]]]]]]]]];
      destruct (isLeapYear _); vm_compute; discriminate. }
  destruct (padStart_4 Hy) as (y1 & y2 & y3 & y4 & -> & D1 & D2 & D3 & D4 & Py).
  destruct (@padStart_2 (month (tsToObj ts)) ltac:(lia)) as (m1 & m2 & -> & D5 & D6 & Pm).
  destruct (@padStart_2 (day (tsToObj ts)) ltac:(lia)) as (d1 & d2 & -> & D7 & D8 & Pd).
  destruct (@padStart_2 (hour (tsToObj ts)) ltac:(lia)) as (h1 & h2 & -> & D9 & D10 & Ph).
  cbn [app].
  assert (HV : isValidDate [y1; y2; y3; y4; ch "-"; m1; m2; ch "-"; d1; d2; ch "T"; h1; h2] = true).
  { cbn [isValidDate forallb]. rewrite D1, D2, D3, D4, D5, D6, D7, D8, D9, D10.
    reflexivity. }
  assert (HT : includes (ch "T") [y1; y2; y3; y4; ch "-"; m1; m2; ch "-"; d1; d2; ch "T"; h1; h2] = true).
  { unfold includes. cbn [existsb]. rewrite N.eqb_refl. now rewrite !orb_true_r. }
  split; [exact HV|]. split; [exact HT|]. split.
  - apply (@dateChar_not space); [reflexivity|exact HV].
  - unfold decodeTrendDatetime, formatFor. rewrite HT. unfold fromFormat.
    unfold isValidDate in HV. rewrite HV. rewrite Py, Pm, Pd, Ph.
    unfold fromObject.
    destruct (Z.leb_spec 1 (month (tsToObj ts))); [|lia].
    destruct (Z.leb_spec (month (tsToObj ts)) 12); [|lia].
    destruct (Z.leb_spec 1 (day (tsToObj ts))); [|lia].
    destruct (Z.leb_spec (day (tsToObj ts))
                (daysInMonth (year (tsToObj ts)) (month (tsToObj ts)))); [|lia].
    destruct (Z.leb_spec 0 (hour (tsToObj ts))); [|lia].
    destruct (Z.leb_spec (hour (tsToObj ts)) 24); [|lia].
    cbn [andb]. f_equal. lia.
Qed.

(** The same for a midnight and the format without the hour. *)
Lemma decode_toFormat_day ts :
  0 <= year (tsToObj ts) < 10000 -> ts mod msPerDay = 0 ->
  let s := toFormat (Valid ts) DATE_FORMAT in
  isValidDate s = true /\ includes (ch "T") s = false
  /\ ~ In space s /\ decodeTrendDatetime s = Valid ts.
Proof.
  intros Hy Hts. pose proof (objToLocalTS_tsToObj ts) as (Hm & Hd & Hh & E).
  cbv zeta in *. cbn [toFormat].
  assert (Hh0 : hour (tsToObj ts) = 0).
  { unfold tsToObj. destruct (monthAndDay _ _ _). cbn [hour]. rewrite Hts. reflexivity. }
  assert (Hts' : ts mod msPerHour = 0).
  { revert Hts. unfold msPerDay, msPerHour. intros. Z.div_mod_to_equations. lia. }
  assert (Hdim : daysInMonth (year (tsToObj ts)) (month (tsToObj ts)) <= 31).
  { rewrite daysInMonth_normal.
    destruct (@month_cases (month (tsToObj ts)) Hm) as
      [->|[->|[->|[->|[->|[->|[->|[->|[->|[->|[->| ->]]]]]]]]]]];
      destruct (isLeapYear _); vm_compute; discriminate. }
  destruct (padStart_4 Hy) as (y1 & y2 & y3 & y4 & -> & D1 & D2 & D3 & D4 & Py).
  destruct (@padStart_2 (month (tsToObj ts)) ltac:(lia)) as (m1 & m2 & -> & D5 & D6 & Pm).
  destruct (@padStart_2 (day (tsToObj ts)) ltac:(lia)) as (d1 & d2 & -> & D7 & D8 & Pd).
  cbn [app].
  assert (HV : isValidDate [y1; y2; y3; y4; ch "-"; m1; m2; ch "-"; d1; d2] = true).
  { cbn [isValidDate forallb]. rewrite D1, D2, D3, D4, D5, D6, D7, D8.
    reflexivity. }
  assert (HT : includes (ch "T") [y1; y2; y3; y4; ch "-"; m1; m2; ch "-"; d1; d2] = false).
  { unfold includes. cbn [existsb].
    assert (HH : forall c, isDigit c = true -> N.eqb (ch "T") c = false)
      by (intros c Hc; now apply digit_not).
    rewrite (HH y1), (HH y2), (HH y3), (HH y4), (HH m1), (HH m2), (HH d1), (HH d2)
      by assumption.
    reflexivity. }
  split; [exact HV|]. split; [exact HT|]. split.
  - apply (@dateChar_not space); [reflexivity|exact HV].
  - unfold decodeTrendDatetime, formatFor. rewrite HT. unfold fromFormat.
    unfold isValidDate in HV. rewrite HV. rewrite Py, Pm, Pd.
    unfold fromObject.
    destruct (Z.leb_spec 1 (month (tsToObj ts))); [|lia].
    destruct (Z.leb_spec (month (tsToObj ts)) 12); [|lia].
    destruct (Z.leb_spec 1 (day (tsToObj ts))); [|lia].
    destruct (Z.leb_spec (day (tsToObj ts))
                (daysInMonth (year (tsToObj ts)) (month (tsToObj ts)))); [|lia].
    change (0 <=? 0) with true. change (0 <=? 24) with true.
    cbn [andb]. f_equal. rewrite Hh0 in E. lia.
Qed.

End FormatRoundTrip.

Section OffsetDurations.
Import Luxon Timeframe.
Local Open Scope Z_scope.

Lemma parseInt_app ds c : parseInt (ds ++ [c]) = 10 * parseInt ds + (Z.of_N c - 48).
Proof. unfold parseInt. now rewrite fold_left_app. Qed.

Lemma parseInt_nonneg ds : forallb isDigit ds = true -> 0 <= parseInt ds.
Proof.
  induction ds as [|c ds IH] using rev_ind; intros H; [cbn; lia|].
  rewrite forallb_app in H. apply andb_true_iff in H as [H1 H2].
  cbn in H2. rewrite andb_true_r in H2. unfold isDigit in H2.
  apply andb_true_iff in H2 as [Ha Hb]. apply N.leb_le in Ha, Hb.
  rewrite parseInt_app. specialize (IH H1). lia.
Qed.

(** Whole hours and whole days of a clock reading. *)
Lemma hour_floor ts :
  (ts - ts mod msPerHour) mod msPerHour = 0
  /\ (ts - ts mod msPerHour) / msPerDay = ts / msPerDay
  /\ (ts - ts mod msPerHour) mod msPerDay / msPerHour = ts mod msPerDay / msPerHour.
Proof. unfold msPerDay, msPerHour. Z.div_mod_to_equations. lia. Qed.

Lemma day_floor ts :
  (ts - ts mod msPerDay) mod msPerDay = 0
  /\ (ts - ts mod msPerDay) / msPerDay = ts / msPerDay.
Proof. unfold msPerDay. Z.div_mod_to_equations. lia. Qed.

Lemma minus_hours_on_hour t n :
  t mod msPerHour = 0 -> (t + - n * msPerHour) mod msPerHour = 0.
Proof. unfold msPerHour. intros. Z.div_mod_to_equations. lia. Qed.

Lemma minus_days_on_hour t n :
  t mod msPerHour = 0 -> (t + - n * msPerDay) mod msPerHour = 0.
Proof. unfold msPerDay, msPerHour. intros. Z.div_mod_to_equations. lia. Qed.

Lemma minus_days_on_day t n :
  t mod msPerDay = 0 -> (t + - n * msPerDay) mod msPerDay = 0.
Proof. unfold msPerDay. intros. Z.div_mod_to_equations. lia. Qed.

Lemma within_week t k :
  0 <= k <= 7 * msPerDay ->
  t / msPerDay - 7 <= (t - k) / msPerDay <= t / msPerDay.
Proof. unfold msPerDay. intros. Z.div_mod_to_equations. lia. Qed.

Lemma day_of_floor_minus u n :
  (u - u mod msPerDay + - n * msPerDay) / msPerDay = (u - n * msPerDay) / msPerDay.
Proof. unfold msPerDay. Z.div_mod_to_equations. lia. Qed.

Lemma day_minus_le u n : 0 <= n -> (u - n * msPerDay) / msPerDay <= u / msPerDay.
Proof. unfold msPerDay. intros. Z.div_mod_to_equations. lia. Qed.

Lemma hours_round_up ts n :
  ts mod msPerDay = 0 ->
  (ts + - n * msPerHour) / msPerDay = (ts - (n + 23) / 24 * msPerDay) / msPerDay.
Proof. unfold msPerDay, msPerHour. intros. Z.div_mod_to_equations. lia. Qed.

Lemma year_tsToObj ts : year (tsToObj ts) = yearFromDay (ts / msPerDay).
Proof. unfold tsToObj. now destruct (monthAndDay _ _ _). Qed.

Lemma yearFromDay_mono a b : a <= b -> yearFromDay a <= yearFromDay b.
Proof.
  intros H. pose proof (yearFromDay_spec a) as Ha. pose proof (yearFromDay_spec b) as Hb.
  destruct (Z.le_gt_cases (yearFromDay a) (yearFromDay b)) as [|Hlt]; [assumption|].
  pose proof (@dayFromYear_mono (yearFromDay b + 1) (yearFromDay a) ltac:(lia)). lia.
Qed.

Lemma yearFromDay_week d k : 0 <= k <= 7 -> yearFromDay d - 1 <= yearFromDay (d - k).
Proof.
  intros Hk. pose proof (yearFromDay_spec d) as Hd.
  pose proof (yearFromDay_spec (d - k)) as Hd'.
  pose proof (dayFromYear_step (yearFromDay d - 1)) as Hs.
  replace (yearFromDay d - 1 + 1) with (yearFromDay d) in Hs by lia.
  destruct (Z.le_gt_cases (yearFromDay d - 1) (yearFromDay (d - k))) as [|Hlt];
    [assumption|].
  pose proof (@dayFromYear_mono (yearFromDay (d - k) + 1) (yearFromDay d - 1) ltac:(lia)).
  destruct (isLeapYear (yearFromDay d - 1)); lia.
Qed.

Lemma year_within_week t k :
  0 <= k <= 7 * msPerDay ->
  year (tsToObj t) - 1 <= year (tsToObj (t - k)) <= year (tsToObj t).
Proof.
  intros Hk. rewrite !year_tsToObj. destruct (within_week t Hk) as [H1 H2].
  pose proof (@yearFromDay_week (t / msPerDay) 7 ltac:(lia)) as Hw.
  pose proof (@yearFromDay_mono _ _ H1). pose proof (@yearFromDay_mono _ _ H2).
  lia.
Qed.

(** The text of a local time shows its hour, or its day, and nothing
    finer. *)
Lemma toFormat_hour_floor ts :
  toFormat (Valid ts) DATE_T_FORMAT
  = toFormat (Valid (ts - ts mod msPerHour)) DATE_T_FORMAT.
Proof.
  destruct (hour_floor ts) as (_ & E1 & E2).
  cbn [toFormat]. unfold tsToObj. now rewrite E1, E2.
Qed.

Lemma toFormat_day_only a b :
  a / msPerDay = b / msPerDay ->
  toFormat (Valid a) DATE_FORMAT = toFormat (Valid b) DATE_FORMAT.
Proof.
  intros H. cbn [toFormat]. unfold tsToObj. rewrite H.
  destruct (monthAndDay _ _ _). reflexivity.
Qed.

Lemma plus_hours ts n : plus (Valid ts) hours n = Valid (ts + n * msPerHour).
Proof. cbn [plus]. now rewrite adjustTime_hours. Qed.

Lemma plus_days ts n : plus (Valid ts) days n = Valid (ts + n * msPerDay).
Proof. cbn [plus]. now rewrite adjustTime_days. Qed.

(** A text that parses as a date without an hour names a midnight. *)
Lemma decode_midnight d ts :
  isValidDate d = true -> includes (ch "T") d = false ->
  decodeTrendDatetime d = Valid ts -> ts mod msPerDay = 0.
Proof.
  intros Hv HT E. unfold decodeTrendDatetime, formatFor in E. rewrite HT in E.
  unfold fromFormat in E.
  do 10 (destruct d as [|? d]; [discriminate E|]).
  destruct d; [|discriminate E].
  destruct (_ && _)%bool; [|discriminate E].
  apply fromObject_valid in E as (_ & _ & _ & ->).
  unfold objToLocalTS, msPerDay, msPerHour. Z.div_mod_to_equations. lia.
Qed.

End OffsetDurations.

Section HourDayFacts.
Import Luxon Timeframe.
Local Open Scope Z_scope.

(** A date-like part and an offset in hours or days: the limit of 7
    days applies to an anchor with an hour, and the range runs from the
    anchor less the offset to the anchor. *)
Lemma convertTimeframe_hour_day_offset_aux utcNow flag d ds :
  isValidDate d = true -> ds <> [] -> forallb isDigit ds = true ->
  let anchor := decodeTrendDatetime d in
  let n := parseInt ds in
  let f := formatFor d in
  convertTimeframe utcNow (d ++ js " " ++ ds ++ [ch "-"; ch "H"]) flag
  = (if (includes (ch "T") d && (7 * 24 <? n))%bool
     then Err (OffsetExceeds7Days d (ds ++ js "-H"))
     else OK (toFormat (plus anchor hours (- n)) f ++ js " " ++ toFormat anchor f))
  /\ convertTimeframe utcNow (d ++ js " " ++ ds ++ [ch "-"; ch "d"]) flag
     = (if (includes (ch "T") d && (7 <? n))%bool
        then Err (OffsetExceeds7Days d (ds ++ js "-d"))
        else OK (toFormat (plus anchor days (- n)) f ++ js " " ++ toFormat anchor f)).
Proof.
  intros Hd Hne Hds anchor n f.
  assert (Hconv : forall u, isUnitLetter u = true ->
            convertTimeframe utcNow (d ++ js " " ++ ds ++ [ch "-"; u]) flag
            = processDateWithOffset d (ds ++ [ch "-"; u])).
  { intros u Hu.
    apply (@convertTimeframe_offset utcNow flag d [] ds [ch "-"] u); auto.
    now right. }
  assert (Hparts : forall u, isUnitLetter u = true ->
            extractTimeParts (ds ++ [ch "-"; u]) = Some (n, [u])).
  { intros u Hu.
    apply (@extractTimeParts_offsetText [] ds [ch "-"] u); auto. now right. }
  split.
  - rewrite Hconv by reflexivity.
    rewrite (@processDateWithOffset_parts d _ n (ch "H") (Hparts (ch "H") eq_refl) eq_refl).
    reflexivity.
  - rewrite Hconv by reflexivity.
    rewrite (@processDateWithOffset_parts d _ n (ch "d") (Hparts (ch "d") eq_refl) eq_refl).
    reflexivity.
Qed.

End HourDayFacts.



Section MarkerFacts.
Import Luxon Timeframe.
Local Open Scope Z_scope.

Lemma replace_prefix p r rest : replace p r (p ++ rest) = r ++ rest.
Proof.
  assert (H : strip_prefix p (p ++ rest) = Some rest).
  { induction p as [|c p IH]; [reflexivity|]. cbn. now rewrite N.eqb_refl. }
  destruct p as [|c p]; [destruct rest; reflexivity|].
  cbn [app replace]. cbn [app] in H. now rewrite H.
Qed.

Lemma dateChar_In x d rest :
  dateChar x = false -> isValidDate d = true -> ~ In x rest -> ~ In x (d ++ rest).
Proof.
  intros Hx Hd Hr Hin. apply in_app_or in Hin as [Hin|Hin]; [|contradiction].
  revert Hin. now apply dateChar_not.
Qed.

(** The markers at the start of a timeframe are replaced by the clock's
    hour and day; what follows goes through the same steps as after a
    date written out. *)
Lemma convertTimeframe_now utcNow rest :
  isValidDate (toFormat (Valid utcNow) DATE_T_FORMAT) = true ->
  ~ In (ch "n") rest ->
  convertTimeframe utcNow (js "now" ++ rest) true
  = convertTimeframe utcNow (toFormat (Valid utcNow) DATE_T_FORMAT ++ rest) true.
Proof.
  intros HX Hn. unfold convertTimeframe.
  destruct (not_fixed _ rest HX) as [-> ->].
  cbn [negb andb]. rewrite !andb_false_r.
  replace (jseq (js "now" ++ rest) (js "all")) with false by reflexivity.
  cbn [andb]. rewrite replace_prefix.
  change (js "now") with (ch "n" :: js "ow").
  rewrite (@replace_absent (ch "n") (js "ow") _ (_ ++ rest)); [reflexivity|].
  apply dateChar_In; auto.
Qed.

Lemma convertTimeframe_today utcNow rest :
  isValidDate (toFormat (Valid utcNow) DATE_FORMAT) = true ->
  ~ In (ch "n") rest -> ~ In (ch "t") rest ->
  convertTimeframe utcNow (js "today" ++ rest) true
  = convertTimeframe utcNow (toFormat (Valid utcNow) DATE_FORMAT ++ rest) true.
Proof.
  intros HX Hn Ht. unfold convertTimeframe.
  destruct (not_fixed _ rest HX) as [-> ->].
  cbn [negb andb]. rewrite !andb_false_r.
  replace (jseq (js "today" ++ rest) (js "all")) with false by reflexivity.
  cbn [andb].
  rewrite (@replace_absent (ch "n") (js "ow") _ (js "today" ++ rest)).
  - rewrite replace_prefix.
    rewrite (@replace_absent (ch "n") (js "ow") _ (_ ++ rest))
      by (apply dateChar_In; auto).
    change (js "today") with (ch "t" :: js "oday").
    rewrite (@replace_absent (ch "t") (js "oday") _ (_ ++ rest)); [reflexivity|].
    apply dateChar_In; auto.
  - intros Hin. apply in_app_or in Hin as [Hin|Hin]; [|contradiction].
    vm_compute in Hin. intuition discriminate.
Qed.

Lemma digits_not_In x ds tail :
  isDigit x = false -> forallb isDigit ds = true -> ~ In x tail ->
  ~ In x (ds ++ tail).
Proof.
  intros Hx Hds Ht Hin. apply in_app_or in Hin as [Hin|Hin]; [|contradiction].
  rewrite forallb_forall in Hds. specialize (Hds x Hin). congruence.
Qed.

(** The duration of a range written by [toFormat]. *)
Lemma duration_of_range a b :
  0 <= year (tsToObj a) < 10000 -> 0 <= year (tsToObj b) < 10000 ->
  (a mod msPerHour = 0 /\ b mod msPerHour = 0
   -> map decodeTrendDatetime
        (split space (toFormat (Valid a) DATE_T_FORMAT ++ js " "
                        ++ toFormat (Valid b) DATE_T_FORMAT))
      = [Valid a; Valid b])
  /\ (a mod msPerDay = 0 /\ b mod msPerDay = 0
      -> map decodeTrendDatetime
           (split space (toFormat (Valid a) DATE_FORMAT ++ js " "
                           ++ toFormat (Valid b) DATE_FORMAT))
         = [Valid a; Valid b]).
Proof.
  intros Ha Hb. split; intros [Ma Mb].
  - destruct (decode_toFormat_hour a Ha Ma) as (_ & _ & Sa & Da).
    destruct (decode_toFormat_hour b Hb Mb) as (_ & _ & Sb & Db).
    change (js " " ++ ?x) with (space :: x).
    rewrite split_two by assumption. cbn [map]. now rewrite Da, Db.
  - destruct (decode_toFormat_day a Ha Ma) as (_ & _ & Sa & Da).
    destruct (decode_toFormat_day b Hb Mb) as (_ & _ & Sb & Db).
    change (js " " ++ ?x) with (space :: x).
    rewrite split_two by assumption. cbn [map]. now rewrite Da, Db.
Qed.

End MarkerFacts.



Section SpaceFacts.
Import Luxon Timeframe.
Local Open Scope Z_scope.

Lemma split_length sep s :
  length (split sep s) = S (count_occ N.eq_dec s sep).
Proof.
  induction s as [|c s IH]; [reflexivity|]. cbn [split count_occ].
  destruct (N.eqb_spec c sep) as [->|Hc].
  - destruct (N.eq_dec sep sep); [|congruence]. cbn [length]. now rewrite IH.
  - destruct (N.eq_dec c sep); [congruence|].
    destruct (split sep s) as [|w ws] eqn:E; [now apply split_nonempty in E|].
    cbn [length] in *. exact IH.
Qed.

Lemma count_occ_absent (x : N) s : ~ In x s -> count_occ N.eq_dec s x = 0%nat.
Proof. apply count_occ_not_In. Qed.

Lemma replace_count x p r s :
  ~ In x p -> ~ In x r ->
  count_occ N.eq_dec (replace p r s) x = count_occ N.eq_dec s x.
Proof.
  intros Hp Hr. induction s as [|c s IH].
  - cbn [replace]. destruct (strip_prefix p []) as [rest|] eqn:E; [|reflexivity].
    apply strip_prefix_spec in E. symmetry in E. apply app_eq_nil in E as [-> ->].
    rewrite app_nil_r. now apply count_occ_absent.
  - cbn [replace]. destruct (strip_prefix p (c :: s)) as [rest|] eqn:E.
    + apply strip_prefix_spec in E. rewrite E, !count_occ_app.
      now rewrite (@count_occ_absent x p Hp), (@count_occ_absent x r Hr).
    + cbn [count_occ]. now rewrite IH.
Qed.

Lemma digitsOf_digits fuel n : 0 <= n -> forallb isDigit (digitsOf fuel n) = true.
Proof.
  revert n. induction fuel as [|fuel IH]; intros n Hn; [reflexivity|].
  cbn [digitsOf]. destruct (Z.ltb_spec n 10).
  - cbn [forallb]. rewrite andb_true_r. unfold isDigit.
    apply andb_true_iff. split; apply N.leb_le; lia.
  - rewrite forallb_app, IH by (Z.div_mod_to_equations; lia).
    cbn [forallb andb]. rewrite andb_true_r. unfold isDigit.
    apply andb_true_iff. split; apply N.leb_le; Z.div_mod_to_equations; lia.
Qed.

Lemma padStart_dateChar n k : forallb dateChar (padStart n k) = true.
Proof.
  assert (Hd : forall l, forallb isDigit l = true -> forallb dateChar l = true).
  { intros l. rewrite !forallb_forall. intros H x Hx. unfold dateChar.
    now rewrite (H x Hx). }
  assert (Hp : forall l, forallb isDigit l = true ->
               forallb dateChar (repeat (ch "0") (k - length l) ++ l) = true).
  { intros l Hl. rewrite forallb_app, (Hd l Hl), andb_true_r.
    apply forallb_forall. intros x Hx. apply repeat_spec in Hx. now subst. }
  unfold padStart. destruct (Z.ltb_spec n 0).
  - cbn [forallb]. rewrite Hp; [reflexivity|]. apply digitsOf_digits. lia.
  - apply Hp. apply digitsOf_digits. lia.
Qed.

(** What [toFormat] writes for a valid [DateTime]: digits, hyphens and
    the letter T. *)
Lemma toFormat_dateChar ts f : forallb dateChar (toFormat (Valid ts) f) = true.
Proof.
  cbn [toFormat]. rewrite !forallb_app, !padStart_dateChar.
  destruct f; cbn [forallb app]; rewrite ?padStart_dateChar; reflexivity.
Qed.

Lemma toFormat_not_In x ts f : dateChar x = false -> ~ In x (toFormat (Valid ts) f).
Proof. intros Hx. eapply forallb_not_In; [apply toFormat_dateChar|exact Hx]. Qed.

Lemma fixed_one_space t :
  In t FIXED_TIMEFRAMES -> t = js "all" \/ count_occ N.eq_dec t space = 1%nat.
Proof.
  unfold FIXED_TIMEFRAMES. cbn [In].
  intros [<-|[<-|[<-|[<-|[<-|[<-|[<-|[<-|[<-|[]]]]]]]]]]; auto.
Qed.

Lemma processTwoDates_errors a b e :
  processTwoDates a b = Err e -> e = DateDifferenceExceeds7Days a b.
Proof.
  unfold processTwoDates.
  repeat match goal with
         | |- context [if ?c then _ else _] => destruct c
         end; congruence.
Qed.

Lemma processDateWithOffset_errors d off e :
  processDateWithOffset d off = Err e ->
  e = TypeError \/ e = InvalidUnitError \/ e = OffsetExceeds7Days d off.
Proof.
  unfold processDateWithOffset.
  destruct (extractTimeParts off) as [[n u]|]; [|intros [= <-]; auto].
  assert (Hm : forall dt o k e', minus dt o k = Err e' -> e' = InvalidUnitError).
  { intros [|ts] [o|] k e'; cbn; congruence. }
  repeat match goal with
         | |- context [if ?c then _ else _] => destruct c
         end; try (intros [= <-]; auto);
  match goal with
  | |- context [minus ?a ?b ?c] =>
      specialize (Hm a b c); destruct (minus a b c); cbn [bind];
      [discriminate|intros [= <-]; right; left; now apply Hm]
  end.
Qed.

End SpaceFacts.

(** X2.  [convertTimeframe] throws "Invalid timeframe format" exactly
    on the space count: a timeframe other than "all" whose text has no
    space, or more than one, fails with that error (naming the text after
    "now" and "today" were replaced), and a timeframe with exactly one
    space never does. *)
Theorem convertTimeframe_one_space :
  forall (utcNow : Z) (timeframe : jsstring) (flag : bool),
    let spaces := count_occ N.eq_dec timeframe Timeframe.space in
    let text :=
      replace (js "today") (Luxon.toFormat (Luxon.Valid utcNow) Luxon.DATE_FORMAT)
        (replace (js "now") (Luxon.toFormat (Luxon.Valid utcNow) Luxon.DATE_T_FORMAT)
           timeframe) in
    (timeframe <> js "all" -> spaces <> 1 ->
     Timeframe.convertTimeframe utcNow timeframe flag
     = Err (InvalidTimeframeFormat text))
    /\ (spaces = 1 ->
        forall t, Timeframe.convertTimeframe utcNow timeframe flag
                  <> Err (InvalidTimeframeFormat t)).
Proof.
  intros utcNow timeframe flag spaces text.
  assert (Hlen : length (split Timeframe.space text) = S spaces).
  { unfold text, spaces. rewrite split_length, !replace_count; auto;
      try (apply toFormat_not_In; reflexivity);
      vm_compute; intuition discriminate. }
  split.
  - intros Hall Hsp. unfold Timeframe.convertTimeframe. fold text.
    assert (Hfix : existsb (jseq timeframe) Timeframe.FIXED_TIMEFRAMES = false).
    { destruct (existsb _ _) eqn:E; [|reflexivity].
      apply existsb_exists in E as (t & Hin & Ht). apply jseq_spec in Ht. subst t.
      apply fixed_one_space in Hin as [?|?]; contradiction. }
    rewrite Hfix. cbn [andb].
    assert (Ha : jseq timeframe (js "all") = false).
    { destruct (jseq _ _) eqn:E; [|reflexivity]. apply jseq_spec in E. contradiction. }
    rewrite Ha, andb_false_r.
    destruct (split Timeframe.space text) as [|a [|b [|c l]]]; try reflexivity.
    cbn in Hlen. congruence.
  - intros Hsp t. unfold Timeframe.convertTimeframe. fold text.
    destruct (_ && _)%bool; [discriminate|].
    destruct (_ && _)%bool; [discriminate|].
    rewrite Hsp in Hlen.
    destruct (split Timeframe.space text) as [|a [|b [|c l]]]; try discriminate Hlen.
    destruct (Timeframe.isValidDate a); [|discriminate].
    destruct (Timeframe.isValidDate b).
    + intros E. apply processTwoDates_errors in E. discriminate.
    + destruct (Timeframe.isValidFormat b); [|discriminate].
      intros E. apply processDateWithOffset_errors in E as [E|[E|E]]; discriminate.
Qed.

Lemma convertTimeframe_one_space_witness :
  Timeframe.convertTimeframe 1726182000000 (js "now") false
  = Err (InvalidTimeframeFormat (js "2024-09-12T23")).
Proof.
  refine (proj1 (convertTimeframe_one_space 1726182000000%Z (js "now") false) _ _).
  - discriminate.
  - vm_compute. discriminate.
Defined.



Section ResolutionMore.
Import Luxon Timeframe.

Lemma mapM_same {A B} (f : A -> result B) (l : list A) (b : B) :
  (forall a, In a l -> f a = OK b) -> mapM f l = OK (repeat b (length l)).
Proof.
  induction l as [|a l IH]; intros H; [reflexivity|].
  cbn [mapM length repeat]. rewrite (H a (or_introl eq_refl)). cbn [bind].
  rewrite IH by (intros x Hx; apply H; now right). reflexivity.
Qed.

Lemma fold_left_fixed {A B} (f : A -> B -> A) (l : list B) (a : A) :
  (forall b, In b l -> f a b = a) -> fold_left f l a = a.
Proof.
  revert a. induction l as [|b l IH]; intros a H; [reflexivity|].
  cbn [fold_left]. rewrite (H b (or_introl eq_refl)).
  apply IH. intros x Hx. apply H. now right.
Qed.

Lemma msLt_irrefl d : msLt d d = false.
Proof. destruct d as [x|]; [apply Z.ltb_irrefl|reflexivity]. Qed.

Lemma In_combine_repeat {A B} (d : A) (l : list B) x t :
  In (x, t) (combine (repeat d (length l)) l) -> x = d.
Proof.
  intros H. apply in_combine_l in H. now apply repeat_spec in H.
Qed.

End ResolutionMore.

(** X5.  [checkTimeframeResolution] on timeframes that all have the
    same duration, one timeframe included (a string is the array of that
    one string): the buckets agree, and the ratio test compares the
    duration with twice itself.  The call returns when the duration is
    positive or not a number, and throws "The maximum delta ... should be
    less than twice the minimum delta ..." when it is zero or negative,
    naming the first timeframe twice. *)
Theorem checkTimeframeResolution_equal_durations :
  forall (utcNow : Z) (t0 : jsstring) (ts : list jsstring) (d : option Z),
    (forall t, In t (t0 :: ts) -> Timeframe.timeframeToDuration utcNow t = OK d) ->
    Timeframe.checkTimeframeResolution utcNow (Encoder.Arr (t0 :: ts))
    = match d with
      | Some ms =>
          if (0 <? ms)%Z then OK tt
          else Err (RatioTooLarge (Some ms) t0 (Some ms) t0)
      | None => OK tt
      end
    /\ (ts = [] ->
        Timeframe.checkTimeframeResolution utcNow (Encoder.Scalar t0)
        = Timeframe.checkTimeframeResolution utcNow (Encoder.Arr [t0])).
Proof.
  intros utcNow t0 ts d H. split; [|reflexivity].
  unfold Timeframe.checkTimeframeResolution. cbn [Encoder.toArray].
  assert (Hres : forall t, In t (t0 :: ts) ->
            Timeframe.getResolutionAndRange utcNow t = OK (Timeframe.resolutionOf d)).
  { intros t Ht. unfold Timeframe.getResolutionAndRange. now rewrite (H t Ht). }
  rewrite (mapM_same _ _ Hres), (mapM_same _ _ H). cbn [bind].
  assert (Hset : Nat.ltb 1 (length (Timeframe.newSet []
                    (map fst (repeat (Timeframe.resolutionOf d) (length (t0 :: ts))))))
                 = false).
  { apply Nat.ltb_ge, Nat.nlt_ge. intros Hlt.
    apply newSet_size in Hlt as (a & b & Ha & Hb & Hab). apply Hab.
    apply in_map_iff in Ha as (x & <- & Hx), Hb as (y & <- & Hy).
    apply repeat_spec in Hx, Hy. congruence. }
  rewrite Hset. cbn [length repeat].
  change (d :: repeat d (length ts)) with (repeat d (length (t0 :: ts))).
  rewrite !fold_left_fixed.
  - destruct d as [ms|]; cbn [Timeframe.msGeTwice]; [|reflexivity].
    destruct (Z.ltb_spec 0 ms), (Z.leb_spec (ms * 2) ms); try reflexivity; lia.
  - intros [x t] Hin. apply In_combine_repeat in Hin. subst x.
    cbn [fst]. now rewrite msLt_irrefl.
  - intros [x t] Hin. apply In_combine_repeat in Hin. subst x.
    cbn [fst]. now rewrite msLt_irrefl.
Qed.

Lemma checkTimeframeResolution_equal_durations_witness :
  Timeframe.checkTimeframeResolution 0 (Encoder.Arr [js "2024-03-15 2024-03-15"])
  = Err (RatioTooLarge (Some 0%Z) (js "2024-03-15 2024-03-15")
                       (Some 0%Z) (js "2024-03-15 2024-03-15")).
Proof.
  refine (proj1 (@checkTimeframeResolution_equal_durations 0%Z
                   (js "2024-03-15 2024-03-15") [] (Some 0%Z) _)).
  intros t [<-|[]]. vm_compute. reflexivity.
Defined.

(** X6.  [verifyConsistentTimeframes] returns [true] for every string
    without reading it.  For an array whose durations can be computed
    it returns [true] when the array is empty or all durations are the
    same number of milliseconds, and throws "Inconsistent timeframes
    detected" as soon as one duration differs from the first or is not a
    number (an array of one timeframe with an impossible date is
    inconsistent); an error of [timeframeToDuration] is passed on. *)
Theorem verifyConsistentTimeframes_rule :
  forall (utcNow : Z),
    (forall s, Consistency.verifyConsistentTimeframes utcNow (Encoder.Scalar s)
               = OK Consistency.ReturnsTrue)
    /\ (forall (l : list jsstring) (ds : list (option Z)),
          mapM (Timeframe.timeframeToDuration utcNow) l = OK ds ->
          let r := Consistency.verifyConsistentTimeframes utcNow (Encoder.Arr l) in
          ((l = [] \/ exists ms, forall d, In d ds -> d = Some ms)
           -> r = OK Consistency.ReturnsTrue)
          /\ ((exists d, In d ds /\ (d = None \/ d <> hd None ds))
              -> r = OK (Consistency.ThrowsInconsistent ds)))
    /\ (forall (l : list jsstring) e,
          mapM (Timeframe.timeframeToDuration utcNow) l = Err e ->
          Consistency.verifyConsistentTimeframes utcNow (Encoder.Arr l) = Err e).
Proof.
  intros utcNow. split; [reflexivity|]. split.
  - intros l ds Hds r. subst r. unfold Consistency.verifyConsistentTimeframes.
    rewrite Hds. cbn [bind]. split.
    + intros [->|[ms Hms]].
      * cbn in Hds. injection Hds as <-. reflexivity.
      * destruct ds as [|d0 ds]; [reflexivity|].
        assert (E : forallb (fun d => Consistency.equals d d0) (d0 :: ds) = true).
        { apply forallb_forall. intros d Hd.
          rewrite (Hms d Hd), (Hms d0 (or_introl eq_refl)). cbn. apply Z.eqb_refl. }
        now rewrite E.
    + intros (d & Hd & Hbad). destruct ds as [|d0 ds]; [contradiction|].
      assert (E : forallb (fun d => Consistency.equals d d0) (d0 :: ds) = false).
      { destruct (forallb _ _) eqn:E; [|reflexivity]. exfalso.
        rewrite forallb_forall in E. specialize (E d Hd).
        cbn [hd] in Hbad. destruct d as [x|], d0 as [y|]; cbn in E; try discriminate.
        apply Z.eqb_eq in E. subst. destruct Hbad; congruence. }
      now rewrite E.
  - intros l e He. unfold Consistency.verifyConsistentTimeframes. now rewrite He.
Qed.

(** An array of one timeframe whose first date does not exist. *)
Lemma verifyConsistentTimeframes_rule_witness :
  Consistency.verifyConsistentTimeframes 0
    (Encoder.Arr [js "2024-02-30 2024-03-01"])
  = OK (Consistency.ThrowsInconsistent [None]).
Proof.
  refine (proj2 (proj1 (proj2 (verifyConsistentTimeframes_rule 0%Z))
                   [js "2024-02-30 2024-03-01"] [None] eq_refl) _).
  exists None. split; [now left|now left].
Defined.

(** ** The dispatch loop: requests, re-initialisations, the throttle *)



Section TransportMore.
Import Transport.
Local Open Scope Z_scope.

Lemma newSet_NoDup seen xs : NoDup (newSet seen xs).
Proof.
  revert seen; induction xs as [|x xs IH]; intros seen; cbn [newSet].
  - constructor.
  - destruct (existsb (Z.eqb x) seen); [apply IH|].
    constructor; [|apply IH]. rewrite newSet_In. cbn. tauto.
Qed.

Lemma newSet_length seen xs : (length (newSet seen xs) <= length xs)%nat.
Proof.
  revert seen; induction xs as [|x xs IH]; intros seen; cbn [newSet length]; [lia|].
  destruct (existsb (Z.eqb x) seen); [specialize (IH seen)|specialize (IH (x :: seen))];
    cbn [length]; lia.
Qed.

Lemma filter_remove_length (m : Z) s :
  In m s -> (S (length (filter (fun t => negb (Z.eqb t m)) s)) <= length s)%nat.
Proof.
  induction s as [|x s IH]; [intros []|]. intros [->|Hin]; cbn [filter length].
  - rewrite Z.eqb_refl. cbn [negb].
    pose proof (filter_length_le (fun t => negb (Z.eqb t m)) s). lia.
  - specialize (IH Hin). destruct (negb (Z.eqb x m)); cbn [length]; lia.
Qed.

(** The set of tracked times after the throttle: still a set, not
    empty, and no larger than before. *)
Lemma throttle_set a c :
  NoDup (lastRequestTimes c) -> lastRequestTimes c <> [] ->
  NoDup (lastRequestTimes (throttle a c))
  /\ lastRequestTimes (throttle a c) <> []
  /\ (length (lastRequestTimes (throttle a c)) <= length (lastRequestTimes c))%nat.
Proof.
  intros Hnd Hne. unfold throttle.
  destruct (Z.eqb (requestDelayMs c) 0); [auto|].
  destruct (lastRequestTimes c) as [|x s] eqn:Es; [congruence|].
  destruct (Math_min_cons x s) as [m Hm]. rewrite Hm.
  destruct (Math_min_spec _ Hm) as [Hin _].
  set (c1 := if Z.ltb 0 _ then _ else c).
  assert (H1 : lastRequestTimes c1 = x :: s).
  { subst c1. destruct (Z.ltb 0 _); cbn; now rewrite ?Es. }
  cbn [lastRequestTimes]. rewrite H1.
  split; [apply newSet_NoDup|]. split.
  - intros E.
    assert (Hc : In (clock c1) (newSet [] (filter (fun t => negb (Z.eqb t m)) (x :: s)
                                              ++ [clock c1]))).
    { apply newSet_In. split; [|intros []]. apply in_or_app. right. now left. }
    rewrite E in Hc. contradiction.
  - pose proof (newSet_length [] (filter (fun t => negb (Z.eqb t m)) (x :: s)
                                    ++ [clock c1])) as Hl.
    rewrite length_app in Hl. cbn [length] in Hl.
    pose proof (filter_remove_length m (x :: s) Hin) as Hf. cbn [length] in Hf |- *.
    lia.
Qed.


Lemma small_throttle a c : small c -> small (throttle a c).
Proof.
  intros [Hnd Hlen].
  destruct (throttle_set a c Hnd) as (H1 & H2 & H3).
  { intros E. rewrite E in Hlen. cbn in Hlen. lia. }
  split; [exact H1|].
  destruct (lastRequestTimes (throttle a c)); [congruence|]. cbn [length] in *. lia.
Qed.

Lemma small_loop env retries :
  forall codes c, small c -> small (fst (loop env retries codes c)).
Proof.
  induction retries as [|n IH]; intros codes c Hs.
  - cbn [loop]. unfold after_loop. cbn [fst]. destruct (Nat.ltb _ _); exact Hs.
  - cbn [loop].
    assert (H1 : small (emit (Request (clock (throttle (env (passes c))
                                                (begin_pass (env (passes c)) c))))
                          (throttle (env (passes c)) (begin_pass (env (passes c)) c))))
      by (apply (@small_throttle (env (passes c)) (begin_pass (env (passes c)) c)), Hs).
    set (c2 := emit _ (throttle _ _)) in *.
    destruct (response (env (passes c))) as [status|status].
    + destruct (Z.eqb status 200); [exact H1|].
      apply IH. destruct (rate_limited status); exact H1.
    + cbn [Nat.eqb]. apply IH. destruct (unauthorized status); exact H1.
Qed.

Lemma throttle_wait D a c :
  0 < D -> 0 <= lag a -> warm D c -> 0 <= gap a ->
  let c1 := throttle a (begin_pass a c) in
  throttled (trace c1) = throttled (trace c)
  \/ exists ms, 0 < ms <= D /\ throttled (trace c1) = ms :: throttled (trace c).
Proof.
  intros HD Hlag (HDc & Hsp & Hcl & Hset) Hgap c1. subst c1. unfold throttle.
  cbn [begin_pass requestDelayMs lastRequestTimes clock].
  destruct (Z.eqb_spec (requestDelayMs c) 0) as [?|_]; [now left|].
  destruct (stamps (trace c) ++ [1; 0]) as [|b [|a0 l]] eqn:El; try contradiction.
  destruct Hset as [Hne Hsub].
  destruct (lastRequestTimes c) as [|x s] eqn:Es; [congruence|].
  destruct (Math_min_cons x s) as [m Hm]. rewrite Hm.
  destruct (Math_min_spec _ Hm) as [Hin _].
  assert (Hmc : m <= clock c).
  { destruct (Hsub m Hin) as [-> | ->]; apply Hcl; cbn; auto. }
  destruct (Z.ltb_spec 0 (Z.max 0 (requestDelayMs c - (clock c + gap a - m)))) as [Hs|Hs];
    cbn [trace sleep emit throttled flat_map app].
  - right. eexists. split; [|reflexivity]. lia.
  - now left.
Qed.

Lemma paced_loop D env retries :
  0 < D -> (forall i, 0 <= gap (env i) /\ 0 <= lag (env i)) ->
  forall codes c, paced D c -> paced D (fst (loop env retries codes c)).
Proof.
  intros HD Henv. induction retries as [|n IH]; intros codes c [Hw Hp].
  - split; [now apply (@warm_loop D env 0 HD Henv codes c)|].
    cbn [loop]. unfold after_loop. cbn [fst]. destruct (Nat.ltb _ _); exact Hp.
  - cbn [loop]. destruct (Henv (passes c)) as [Hg Hl].
    pose proof (@warm_pass D (env (passes c)) c HD Hg Hl Hw) as Hw1.
    pose proof (@throttle_wait D (env (passes c)) c HD Hl Hw Hg) as Ht.
    cbv zeta in Hw1, Ht.
    assert (Hp1 : Forall (fun ms => 0 < ms <= D)
                    (throttled (trace (throttle (env (passes c))
                                         (begin_pass (env (passes c)) c))))).
    { destruct Ht as [->|(ms & Hms & ->)]; [exact Hp|now constructor]. }
    clear Ht.
    set (c1 := throttle _ _) in *.
    assert (H2 : paced D (emit (Request (clock c1)) c1)) by (split; assumption).
    set (c2 := emit _ c1) in *. clearbody c2.
    destruct H2 as [Hw2 Hp2].
    destruct (response (env (passes c))) as [status|status].
    + destruct (Z.eqb status 200); [split; assumption|].
      apply IH. destruct (rate_limited status); [|split; assumption]. split.
      * apply warm_sleep; [|apply warm_emit; [discriminate|exact Hw2]].
        assert (0 <= 2 ^ Z.of_nat (maxRetries c2 - S n)) by (apply Z.pow_nonneg; lia).
        lia.
      * exact Hp2.
    + cbn [Nat.eqb]. apply IH.
      destruct (unauthorized status); [|split; assumption]. split.
      * apply warm_emit; [discriminate|exact Hw2].
      * exact Hp2.
Qed.

End TransportMore.

(** X7.  The throttle's memory: however the clock and the HTTP layer
    behave, after any number of dispatches of a fresh client
    [lastRequestTimes] is a set of one or two times (the branch for an
    empty set is never reached). *)
Theorem throttle_memory_bounded :
  forall (env : nat -> Transport.attempt) (D : Z) (K : nat) (now : Z) (n : nat),
    let c := Transport.dispatches env n (Transport.newTrends D K now) in
    NoDup (Transport.lastRequestTimes c)
    /\ 1 <= length (Transport.lastRequestTimes c) <= 2.
Proof.
  intros env D K now n.
  assert (H : forall c, small c -> small (Transport.dispatches env n c)).
  { induction n as [|n IH]; intros c Hs; [exact Hs|].
    cbn [Transport.dispatches]. apply IH. unfold Transport._get.
    now apply small_loop. }
  apply H. split; cbn.
  - repeat constructor; cbn; intuition discriminate.
  - lia.
Qed.

(** X8.  With a clock that does not run backwards, no wait of the
    throttle is longer than [requestDelay]: every [setTimeout] that the
    throttle of a fresh client starts is for more than 0 and at most
    [requestDelay * 1000] milliseconds. *)
Theorem throttle_wait_bounded :
  forall (env : nat -> Transport.attempt) (D : Z) (K : nat) (now : Z) (n : nat),
    (0 < D)%Z -> (1 <= now)%Z ->
    (forall i, (0 <= Transport.gap (env i))%Z /\ (0 <= Transport.lag (env i))%Z) ->
    forall ms,
      In (Transport.Throttled ms)
         (Transport.trace (Transport.dispatches env n (Transport.newTrends D K now))) ->
      (0 < ms <= D)%Z.
Proof.
  intros env D K now n HD Hnow Henv.
  assert (H : forall c, paced D c -> paced D (Transport.dispatches env n c)).
  { induction n as [|k IH]; intros c Hs; [exact Hs|].
    cbn [Transport.dispatches]. apply IH. unfold Transport._get.
    now apply paced_loop. }
  intros ms Hin.
  destruct (H (Transport.newTrends D K now)) as [_ Hp].
  { split; [now apply warm_new|]. constructor. }
  rewrite Forall_forall in Hp. apply Hp.
  unfold throttled. apply in_flat_map. exists (Transport.Throttled ms).
  split; [exact Hin|now left].
Qed.

(** The third request of a fresh client with a delay of 5 s, 1 ms after
    the second: the throttle waits 4999 ms. *)
Lemma throttle_wait_bounded_witness :
  let env := fun i : nat =>
    Transport.mkAttempt (if Nat.eqb i 1 then 1 else 0) 0 (Transport.Resolved 200) in
  In (Transport.Throttled 4999)
     (Transport.trace (Transport.dispatches env 3 (Transport.newTrends 5000 3 1000000)))
  /\ (0 < 4999 <= 5000)%Z.
Proof.
  intros env.
  assert (Hin : In (Transport.Throttled 4999)
                  (Transport.trace
                     (Transport.dispatches env 3 (Transport.newTrends 5000 3 1000000))))
    by (vm_compute; auto).
  split; [exact Hin|].
  refine (@throttle_wait_bounded env 5000%Z 3 1000000%Z 3 _ _ _ 4999%Z Hin).
  - lia.
  - lia.
  - intros i. unfold env. cbn. destruct (Nat.eqb i 1); lia.
Defined.

Section TransportCounts.
Import Transport.
Local Open Scope Z_scope.

Lemma throttle_trace_counts a c :
  stamps (trace (throttle a c)) = stamps (trace c)
  /\ reinits (trace (throttle a c)) = reinits (trace c).
Proof.
  destruct (throttle_frame a c) as (_ & _ & _ & [->|[ms ->]]); auto.
Qed.

(** The passes of the loop: one request per answer seen, one
    re-initialisation per rejection with 401 or 403, and never the
    error of the transport. *)
Lemma loop_counts env retries :
  forall codes c,
    let seen := attempted (answers env c retries) in
    let r := loop env retries codes c in
    length (stamps (trace (fst r)))
    = (length (stamps (trace c)) + length seen)%nat
    /\ length (reinits (trace (fst r)))
       = (length (reinits (trace c)) + length (refusals seen))%nat
    /\ passes (fst r) = (passes c + length seen)%nat
    /\ forall status, snd r <> Err (TransportError status).
Proof.
  induction retries as [|n IH]; intros codes c seen r.
  - subst seen r. cbn [loop answers seq map attempted refusals filter length].
    unfold after_loop. cbn [fst snd].
    unfold stamps, reinits.
    destruct (Nat.ltb _ _); cbn [emit trace passes flat_map filter app];
      (split; [lia|split; [lia|split; [lia|intros status; discriminate]]]).
  - subst r. cbn [loop].
    set (a := env (passes c)).
    set (c1 := throttle a (begin_pass a c)).
    destruct (throttle_frame a (begin_pass a c)) as (_ & _ & HP & _).
    destruct (throttle_trace_counts a (begin_pass a c)) as (Hst & Hre).
    fold c1 in HP, Hst, Hre. cbn [begin_pass passes trace] in HP, Hst, Hre.
    set (c2 := emit (Request (clock c1)) c1).
    assert (Houts : answers env c (S n) = response a :: answers env c2 n).
    { rewrite answers_S. unfold answers. subst c2. cbn [emit passes].
      now rewrite HP. }
    assert (H2 : length (stamps (trace c2)) = S (length (stamps (trace c)))
                 /\ length (reinits (trace c2)) = length (reinits (trace c))
                 /\ passes c2 = S (passes c)).
    { subst c2. cbn [emit trace passes stamps reinits flat_map filter app length].
      fold (stamps (trace c1)). fold (reinits (trace c1)).
      now rewrite Hst, Hre, HP. }
    destruct H2 as (S2 & R2 & P2). subst seen. rewrite Houts.
    assert (Hrest : forall codes' c3 k,
               stamps (trace c3) = stamps (trace c2) ->
               length (reinits (trace c3)) = (length (reinits (trace c2)) + k)%nat ->
               passes c3 = passes c2 ->
               let r := loop env n codes' c3 in
               let seen := attempted (answers env c2 n) in
               length (stamps (trace (fst r)))
               = (length (stamps (trace c)) + S (length seen))%nat
               /\ length (reinits (trace (fst r)))
                  = (length (reinits (trace c)) + (k + length (refusals seen)))%nat
               /\ passes (fst r) = (passes c + S (length seen))%nat
               /\ forall status, snd r <> Err (TransportError status)).
    { intros codes' c3 k S3 R3 P3.
      destruct (IH codes' c3) as (I1 & I2 & I3 & I4).
      replace (answers env c3 n) with (answers env c2 n) in *
        by (unfold answers; now rewrite P3).
      cbv zeta. rewrite I1, I2, I3, S3, R3, P3, S2, R2, P2.
      repeat split; try lia. exact I4. }
    clearbody c2.
    destruct (response a) as [status|status].
    + cbn [attempted].
      destruct (Z.eqb_spec status 200) as [->|Hne].
      * cbn [fst snd length refusals filter]. rewrite S2, R2, P2.
        split; [lia|split; [lia|split; [lia|intros st; discriminate]]].
      * cbn [refusals filter length].
        apply (Hrest (codes ++ [status])
                 (if rate_limited status
                  then sleep (2 ^ Z.of_nat (maxRetries c2 - S n) * 5 * 1000)
                         (emit (Backoff (2 ^ Z.of_nat (maxRetries c2 - S n) * 5)) c2)
                  else c2) 0%nat);
          destruct (rate_limited status); cbn; auto.
    + cbn [Nat.eqb attempted refusals filter].
      pose proof (Hrest codes (if unauthorized status then emit Reinit c2 else c2)
                    (if unauthorized status then 1%nat else 0%nat)) as H.
      destruct (unauthorized status); cbn [length];
        (destruct H as (I1 & I2 & I3 & I4);
         [reflexivity|unfold reinits; cbn [emit trace filter length]; lia|reflexivity|]);
        cbv zeta in I1, I2, I3, I4;
        fold (refusals (attempted (answers env c2 n)));
        (split; [exact I1|split; [lia|split; [exact I3|exact I4]]]).
Qed.

Lemma attempted_length outs :
  (length (attempted outs) <= length outs)%nat
  /\ (succeeds outs = false -> attempted outs = outs).
Proof.
  induction outs as [|o outs [IH1 IH2]]; [split; auto|].
  destruct o as [s|s]; cbn [attempted succeeds existsb length].
  - destruct (Z.eqb s 200); cbn [length orb]; split; try lia; try discriminate.
    intros H. f_equal. now apply IH2.
  - cbn [orb]. split; [lia|]. intros H. f_equal. now apply IH2.
Qed.

End TransportCounts.


(** ** The encoder and the escape decoder *)

Section EncoderCycle.
Import Encoder.
Variable V : Type.
Implicit Types arr : list V.

Lemma mod_double i len :
  len <> 0 ->
  (i mod (len * 2) < len /\ i mod (len * 2) = i mod len)
  \/ (len <= i mod (len * 2) /\ i mod (len * 2) - len = i mod len).
Proof.
  intros Hl. rewrite Nat.Div0.mod_mul_r.
  pose proof (Nat.mod_upper_bound i len Hl).
  pose proof (Nat.mod_upper_bound (i / len) 2 ltac:(lia)).
  destruct ((i / len) mod 2) as [|[|k]]; [left|right|]; lia.
Qed.

(** A list doubled over and over repeats the list it started from. *)
Lemma doubled_nth k arr i :
  arr <> [] -> i < length (doubled k arr) ->
  nth_error (doubled k arr) i = nth_error arr (i mod length arr).
Proof.
  revert arr i; induction k as [|k IH]; intros arr i Hne Hi; cbn [doubled] in *.
  - now rewrite Nat.mod_small.
  - assert (Hl : length arr <> 0) by (destruct arr; [congruence|discriminate]).
    rewrite IH by (assumption || (destruct arr; [congruence|discriminate])).
    rewrite length_app. replace (length arr + length arr) with (length arr * 2) by lia.
    destruct (mod_double i Hl) as [[H1 H2]|[H1 H2]].
    + rewrite nth_error_app1 by exact H1. now rewrite H2.
    + rewrite nth_error_app2 by exact H1. now rewrite H2.
Qed.

Lemma grown_longest maxLen arr out :
  grown maxLen arr out -> length arr = maxLen -> out = arr.
Proof.
  intros (k & -> & _ & Hmin) Hl. destruct k as [|k]; [reflexivity|].
  specialize (Hmin 0 ltac:(lia)). cbn in Hmin. lia.
Qed.

End EncoderCycle.

(** X10.  [_encodeItems] cycles the shorter inputs: when the check on
    the lengths passes, the item of every index [i] below the maximal
    length [M] carries [keywords[i mod l0]], [timeframe[i mod l1]] and
    [geo[i mod l2]]; when the keywords are a longest input there are
    exactly [M] items. *)
Theorem encodeItems_cycles :
  forall (V : Type) (fuel : nat) (keywords timeframe geo : Encoder.arg V),
    let a0 := Encoder.toArray keywords in
    let a1 := Encoder.toArray timeframe in
    let a2 := Encoder.toArray geo in
    let lengths := [length a0; length a1; length a2] in
    let M := list_max lengths in
    M <= fuel ->
    (forall len, In len lengths -> len <> 0 /\ Nat.modulo M len = 0) ->
    exists items,
      Encoder._encodeItems fuel keywords timeframe geo = Some (OK items)
      /\ M <= length items
      /\ (length a0 = M -> length items = M)
      /\ forall i, i < M ->
           nth_error items i
           = Some (Encoder.mkItem (nth_error a0 (i mod length a0))
                                  (nth_error a1 (i mod length a1))
                                  (nth_error a2 (i mod length a2))).
Proof.
  intros V fuel keywords timeframe geo a0 a1 a2 lengths M Hfuel Hdiv.
  assert (Hall : forallb (Encoder.divides M) lengths = true).
  { apply forallb_forall. intros len Hin. apply divides_spec, Hdiv, Hin. }
  assert (Hne : forall a, In (length a) lengths -> a <> ([] : list V)).
  { intros a Hin ->. destruct (Hdiv 0 Hin) as [H _]. congruence. }
  destruct (@grow_spec V fuel M a0) as (d0 & G0 & S0); [apply Hne; cbn; auto|lia|].
  destruct (@grow_spec V fuel M a1) as (d1 & G1 & S1); [apply Hne; cbn; auto|lia|].
  destruct (@grow_spec V fuel M a2) as (d2 & G2 & S2); [apply Hne; cbn; auto|lia|].
  exists (Encoder.build d0 d1 d2).
  split; [|split; [|split]].
  - unfold Encoder._encodeItems. cbn [map].
    fold a0 a1 a2. fold lengths. fold M. rewrite Hall. cbn [negb].
    now rewrite G0, G1, G2.
  - rewrite build_length. destruct S0 as (k & _ & H & _). exact H.
  - intros Hl. rewrite build_length. now rewrite (grown_longest S0 Hl).
  - intros i Hi.
    destruct S0 as (k0 & E0 & L0 & _), S1 as (k1 & E1 & L1 & _),
      S2 as (k2 & E2 & L2 & _).
    rewrite build_nth by lia. f_equal.
    rewrite E0, E1, E2 in *.
    rewrite !doubled_nth; auto; try lia; apply Hne; cbn; auto.
Qed.

Lemma encodeItems_cycles_witness :
  exists items,
    Encoder._encodeItems 3 (Encoder.Arr [1; 2; 3]) (Encoder.Scalar 7) (Encoder.Scalar 9)
    = Some (OK items)
    /\ length items = 3
    /\ nth_error items 2 = Some (Encoder.mkItem (Some 3) (Some 7) (Some 9)).
Proof.
  destruct (@encodeItems_cycles nat 3 (Encoder.Arr [1; 2; 3]) (Encoder.Scalar 7)
              (Encoder.Scalar 9)) as (items & H1 & _ & H3 & H4).
  - cbn. lia.
  - cbn. intros len [<-|[<-|[<-|[]]]]; split; (discriminate || reflexivity).
  - exists items. split; [exact H1|]. split; [apply H3; reflexivity|].
    apply (H4 2). cbn. lia.
Defined.

Section DecodeLength.
Import Client.

Lemma unescapeHex_facts n :
  forall s, length s <= n ->
    length (unescapeHex s) <= length s
    /\ (~ In backslash s -> unescapeHex s = s).
Proof.
  induction n as [|n IH]; intros s Hs.
  - destruct s; [split; auto|cbn in Hs; lia].
  - destruct s as [|c t]; [split; auto|]. cbn [length] in Hs.
    assert (Hdef : length (c :: unescapeHex t) <= length (c :: t)
                   /\ (~ In backslash (c :: t) -> c :: unescapeHex t = c :: t)).
    { destruct (IH t ltac:(lia)) as [H1 H2]. cbn [length]. split; [lia|].
      intros Hn. f_equal. apply H2. intros Hin. apply Hn. now right. }
    cbn [unescapeHex].
    destruct t as [|x [|h1 [|h2 rest]]]; try exact Hdef.
    destruct (N.eqb_spec c backslash) as [->|Hc]; cbn [andb]; [|exact Hdef].
    destruct (_ && _)%bool; [|exact Hdef].
    destruct (IH rest ltac:(cbn [length] in Hs; lia)) as [H1 _].
    cbn [length]. split; [lia|]. intros Hn. exfalso. apply Hn. now left.
Qed.

Lemma unescapeUnicode_facts n :
  forall s, length s <= n ->
    length (unescapeUnicode s) <= length s
    /\ (~ In backslash s -> unescapeUnicode s = s).
Proof.
  induction n as [|n IH]; intros s Hs.
  - destruct s; [split; auto|cbn in Hs; lia].
  - destruct s as [|c t]; [split; auto|]. cbn [length] in Hs.
    assert (Hdef : length (c :: unescapeUnicode t) <= length (c :: t)
                   /\ (~ In backslash (c :: t) -> c :: unescapeUnicode t = c :: t)).
    { destruct (IH t ltac:(lia)) as [H1 H2]. cbn [length]. split; [lia|].
      intros Hn. f_equal. apply H2. intros Hin. apply Hn. now right. }
    cbn [unescapeUnicode].
    destruct t as [|u [|h1 [|h2 [|h3 [|h4 rest]]]]]; try exact Hdef.
    destruct (N.eqb_spec c backslash) as [->|Hc]; cbn [andb]; [|exact Hdef].
    destruct (_ && _)%bool; [|exact Hdef].
    destruct (IH rest ltac:(cbn [length] in Hs; lia)) as [H1 _].
    cbn [length]. split; [lia|]. intros Hn. exfalso. apply Hn. now left.
Qed.

Lemma unescapeAny_facts n :
  forall s, length s <= n ->
    length (unescapeAny s) <= length s
    /\ (~ In backslash s -> unescapeAny s = s).
Proof.
  induction n as [|n IH]; intros s Hs.
  - destruct s; [split; auto|cbn in Hs; lia].
  - destruct s as [|c t]; [split; auto|]. cbn [length] in Hs.
    cbn [unescapeAny]. destruct t as [|d rest]; [split; auto|].
    destruct (N.eqb_spec c backslash) as [->|Hc]; cbn [andb].
    + destruct (negb (isLineTerminator d)).
      * destruct (IH rest ltac:(cbn [length] in Hs; lia)) as [H1 _].
        cbn [length]. split; [lia|]. intros Hn. exfalso. apply Hn. now left.
      * destruct (IH (d :: rest) ltac:(lia)) as [H1 _]. cbn [length] in *.
        split; [lia|]. intros Hn. exfalso. apply Hn. now left.
    + destruct (IH (d :: rest) ltac:(lia)) as [H1 H2]. cbn [length] in *.
      split; [lia|]. intros Hn. f_equal. apply H2. intros Hin. apply Hn. now right.
Qed.

End DecodeLength.

(** X11.  [decodeEscapeText] never lengthens a text, and returns a
    text without a backslash as it is. *)
Theorem decodeEscapeText_plain :
  forall text : jsstring,
    length (Client.decodeEscapeText text) <= length text
    /\ (~ In Client.backslash text -> Client.decodeEscapeText text = text).
Proof.
  intros text. unfold Client.decodeEscapeText.
  destruct (@unescapeHex_facts (length text) text (le_n _)) as [H1 I1].
  destruct (@unescapeUnicode_facts _ (Client.unescapeHex text) (le_n _)) as [H2 I2].
  destruct (@unescapeAny_facts _ (Client.unescapeUnicode (Client.unescapeHex text))
              (le_n _)) as [H3 I3].
  split; [lia|]. intros Hn.
  rewrite (I1 Hn) in *. rewrite (I2 Hn) in *. exact (I3 Hn).
Qed.

(** ** The hierarchical index *)

Section HierarchicalFacts.
Import Hierarchical.

Lemma node_induction (P : node -> Prop) :
  (forall name id, P (Node name id None)) ->
  (forall name id cs, Forall P cs -> P (Node name id (Some cs))) ->
  forall n, P n.
Proof.
  intros HN HS. fix IH 1. intros [name id [cs|]]; [|apply HN].
  apply HS. induction cs as [|c cs IHcs]; constructor; [apply IH|exact IHcs].
Qed.

Lemma includesStr_spec needle haystack :
  includesStr needle haystack = true <-> substring needle haystack.
Proof.
  unfold substring. induction haystack as [|c h IH]; cbn [includesStr].
  - destruct (strip_prefix needle []) as [r|] eqn:E.
    + apply strip_prefix_spec in E. split; [|reflexivity].
      intros _. exists [], r. exact E.
    + split; [discriminate|]. intros (pre & post & E').
      destruct pre; [|discriminate]. cbn in E'.
      assert (strip_prefix needle [] = Some post) by (now apply strip_prefix_spec).
      congruence.
  - destruct (strip_prefix needle (c :: h)) as [r|] eqn:E.
    + apply strip_prefix_spec in E. split; [|reflexivity].
      intros _. exists [], r. exact E.
    + rewrite IH. split.
      * intros (pre & post & ->). exists (c :: pre), post. reflexivity.
      * intros (pre & post & E'). destruct pre as [|c' pre].
        -- cbn in E'. assert (strip_prefix needle (c :: h) = Some post)
             by (now apply strip_prefix_spec). congruence.
        -- injection E' as _ ->. eauto.
Qed.

Lemma substring_trans a b c : substring a b -> substring b c -> substring a c.
Proof.
  intros (p1 & q1 & ->) (p2 & q2 & ->). exists (p2 ++ p1), (q1 ++ q2).
  now rewrite <- !app_assoc.
Qed.

(** Every piece of a split is a part of the text, the first one at its
    start. *)
Lemma splitNonWord_pieces s :
  exists w ws, splitNonWord s = w :: ws
    /\ (exists post, s = w ++ post)
    /\ match s with
       | d :: _ => isWordChar d = false -> w = []
       | [] => True
       end
    /\ forall x, In x ws -> substring x s.
Proof.
  induction s as [|c s (w & ws & E & (post & Hw) & Hfirst & Hws)].
  - exists [], []. cbn. split; [reflexivity|].
    split; [now exists []|split; [exact I|intros _ []]].
  - cbn [splitNonWord]. rewrite E.
    assert (Hsub : forall x, In x (w :: ws) -> substring x (c :: s)).
    { intros x [<-|Hx].
      - exists [c], post. cbn. now rewrite <- Hw.
      - destruct (Hws x Hx) as (p & q & ->). exists (c :: p), q. reflexivity. }
    destruct (isWordChar c) eqn:Ec.
    + exists (c :: w), ws. split; [reflexivity|]. split; [|split].
      * exists post. cbn. now rewrite <- Hw.
      * discriminate.
      * intros x Hx. apply Hsub. now right.
    + destruct s as [|d s'].
      * exists [], (w :: ws). split; [reflexivity|].
        split; [now exists [c]|split; [reflexivity|exact Hsub]].
      * destruct (isWordChar d) eqn:Ed.
        -- exists [], (w :: ws). split; [reflexivity|].
           split; [now exists (c :: d :: s')|split; [reflexivity|exact Hsub]].
        -- specialize (Hfirst eq_refl). subst w.
           exists [], ws. split; [reflexivity|].
           split; [now exists (c :: d :: s')|split; [reflexivity|]].
           intros x Hx. apply Hsub. now right.
Qed.

Lemma splitNonWord_substring s x : In x (splitNonWord s) -> substring x s.
Proof.
  destruct (splitNonWord_pieces s) as (w & ws & -> & (post & Hw) & _ & Hws).
  intros [<-|Hx]; [now exists [], post|now apply Hws].
Qed.

(** *** Maps and sets *)

Lemma jseq_neq a b : jseq a b = false <-> a <> b.
Proof.
  split.
  - intros H E. apply jseq_spec in E. congruence.
  - intros H. destruct (jseq a b) eqn:E; [|reflexivity].
    apply jseq_spec in E. contradiction.
Qed.

Lemma mapGet_mapSet {A} (m : list (jsstring * A)) k v k' :
  mapGet (mapSet m k v) k' = if jseq k k' then Some v else mapGet m k'.
Proof.
  induction m as [|[k0 v0] m IH]; cbn [mapSet mapGet]; [reflexivity|].
  destruct (jseq k0 k) eqn:E0; cbn [mapGet].
  - apply jseq_spec in E0. subst k0. now destruct (jseq k k').
  - rewrite IH. destruct (jseq k0 k') eqn:E1; [|reflexivity].
    apply jseq_spec in E1. subst k0. apply jseq_neq in E0.
    assert (E : jseq k k' = false) by (apply jseq_neq; congruence).
    now rewrite E.
Qed.

Lemma mapGet_In {A} (m : list (jsstring * A)) k v :
  mapGet m k = Some v -> In (k, v) m.
Proof.
  induction m as [|[k0 v0] m IH]; cbn [mapGet]; [discriminate|].
  destruct (jseq k0 k) eqn:E.
  - apply jseq_spec in E. subst k0. intros [= ->]. now left.
  - intros H. right. now apply IH.
Qed.

Lemma mapGet_keys {A} (m : list (jsstring * A)) k :
  In k (map fst m) <-> exists v, mapGet m k = Some v.
Proof.
  induction m as [|[k0 v0] m IH]; cbn [map fst mapGet In].
  - split; [intros []|intros [v H]; discriminate].
  - destruct (jseq k0 k) eqn:E.
    + apply jseq_spec in E. split; eauto.
    + apply jseq_neq in E. rewrite IH. split; [intros [?|?]; [contradiction|assumption]|auto].
Qed.

Lemma In_mapGet {A} (m : list (jsstring * A)) k v :
  NoDup (map fst m) -> In (k, v) m -> mapGet m k = Some v.
Proof.
  induction m as [|[k0 v0] m IH]; cbn [map fst mapGet In]; [intros _ []|].
  intros Hnd [[= -> ->]|Hin]; inversion Hnd as [|? ? Hk Hnd']; subst.
  - now rewrite jseq_refl.
  - destruct (jseq k0 k) eqn:E; [|now apply IH].
    apply jseq_spec in E. subst k0. exfalso. apply Hk.
    apply in_map_iff. exists (k, v). auto.
Qed.

Lemma mapSet_keys {A} (m : list (jsstring * A)) k v :
  map fst (mapSet m k v) = if mapHas m k then map fst m else map fst m ++ [k].
Proof.
  unfold mapHas. induction m as [|[k0 v0] m IH]; cbn [mapSet mapGet map fst]; [reflexivity|].
  destruct (jseq k0 k) eqn:E; cbn [map fst]; [reflexivity|].
  rewrite IH. now destruct (mapGet m k).
Qed.

Lemma mapSet_NoDup {A} (m : list (jsstring * A)) k v :
  NoDup (map fst m) -> NoDup (map fst (mapSet m k v)).
Proof.
  intros H. rewrite mapSet_keys. unfold mapHas.
  destruct (mapGet m k) as [v'|] eqn:E; [exact H|].
  apply NoDup_app; [exact H|repeat constructor; intros []|].
  intros x Hx [<-|[]]. apply mapGet_keys in Hx as [v' Hv]. congruence.
Qed.

Lemma In_mapSet {A} (m : list (jsstring * A)) k v k' v' :
  In (k', v') (mapSet m k v) -> In (k', v') m \/ (k' = k /\ v' = v).
Proof.
  induction m as [|[k0 v0] m IH]; cbn [mapSet].
  - intros [[= <- <-]|[]]. now right.
  - destruct (jseq k0 k) eqn:E.
    + apply jseq_spec in E. subst k0. intros [[= <- <-]|H]; [now right|left; now right].
    + intros [H|H]; [left; now left|]. destruct (IH H) as [?|?]; [left; now right|now right].
Qed.

Lemma setAdd_In s x y : In y (setAdd s x) <-> In y s \/ y = x.
Proof.
  unfold setAdd. destruct (existsb (jseq x) s) eqn:E.
  - apply existsb_exists in E as (z & Hz & Ez). apply jseq_spec in Ez. subst z.
    split; [auto|intros [?| ->]; assumption].
  - rewrite in_app_iff. cbn. split; [intros [?|[<-|[]]]; auto|intros [?| ->]; auto].
Qed.

Lemma setAdd_NoDup s x : NoDup s -> NoDup (setAdd s x).
Proof.
  intros H. unfold setAdd. destruct (existsb (jseq x) s) eqn:E; [exact H|].
  apply NoDup_app; [exact H|repeat constructor; intros []|].
  intros y Hy [->|[]].
  assert (existsb (jseq y) s = true); [|congruence].
  apply existsb_exists. exists y. split; [exact Hy|apply jseq_refl].
Qed.

Lemma fold_setAdd_In l s y : In y (fold_left setAdd l s) <-> In y s \/ In y l.
Proof.
  revert s; induction l as [|x l IH]; intros s; cbn [fold_left In]; [tauto|].
  rewrite IH, setAdd_In. intuition.
Qed.

Lemma fold_setAdd_NoDup l s : NoDup s -> NoDup (fold_left setAdd l s).
Proof.
  revert s; induction l as [|x l IH]; intros s H; cbn [fold_left]; [exact H|].
  apply IH, setAdd_NoDup, H.
Qed.

(** *** The tree *)

Lemma flatten_acc joinIds :
  forall n parentId result,
    flatten joinIds parentId n result = result ++ flatten joinIds parentId n [].
Proof.
  intros n. induction n as [name id|name id cs IH] using node_induction;
    intros parentId result; cbn [flatten]; rewrite app_nil_l.
  - reflexivity.
  - set (fullId := if (joinIds && negb (isEmpty parentId))%bool
                   then parentId ++ [ch "-"] ++ id else id).
    set (p := if joinIds then fullId else []).
    assert (H : forall acc, fold_left (fun acc child => flatten joinIds p child acc) cs acc
                            = acc ++ flat_map (fun child => flatten joinIds p child []) cs).
    { induction IH as [|c cs Hc _ IHcs]; intros acc; cbn [fold_left flat_map].
      - now rewrite app_nil_r.
      - rewrite IHcs, (Hc p acc). now rewrite app_assoc. }
    rewrite (H (result ++ _)), (H [_]). now rewrite <- app_assoc.
Qed.

(** The flat list of a tree: the node, then the lists of its children. *)
Lemma flatten_unfold joinIds parentId name id children :
  let fullId := if (joinIds && negb (isEmpty parentId))%bool
                then parentId ++ [ch "-"] ++ id else id in
  flatten joinIds parentId (Node name id children) []
  = mkItem name fullId
      :: match children with
         | Some cs => flat_map (fun child =>
                         flatten joinIds (if joinIds then fullId else []) child []) cs
         | None => []
         end.
Proof.
  intros fullId. cbn [flatten]. rewrite app_nil_l. fold fullId.
  destruct children as [cs|]; [|reflexivity].
  set (p := if joinIds then fullId else []).
  enough (H : forall acc,
            fold_left (fun acc child => flatten joinIds p child acc) cs acc
            = acc ++ flat_map (fun child => flatten joinIds p child []) cs)
    by (rewrite H; reflexivity).
  induction cs as [|c cs IH]; intros acc; cbn [fold_left flat_map].
  - now rewrite app_nil_r.
  - rewrite IH, (flatten_acc joinIds c p acc). now rewrite app_assoc.
Qed.

End HierarchicalFacts.

Section IndexFacts.
Import Hierarchical.
Variable toLowerCase : jsstring -> jsstring.


(** A name listed under a word after [addWord] was listed there
    before, or is the name being added under the word being added. *)
Lemma addWord_names name wi word w ns n :
  In (w, ns) (addWord name wi word) -> In n ns ->
  (exists old, In (w, old) wi /\ In n old)
  \/ (n = name /\ w = word /\ word <> []).
Proof.
  unfold addWord. destruct word as [|c word]; [eauto|]. cbn [isEmpty].
  set (wd := c :: word).
  set (wi1 := if mapHas wi wd then wi else mapSet wi wd []).
  assert (H1 : forall k old, In (k, old) wi1 -> old = [] \/ In (k, old) wi).
  { intros k old. subst wi1. destruct (mapHas wi wd); [auto|].
    intros H. apply In_mapSet in H as [H|[_ ->]]; auto. }
  intros H Hn.
  assert (H2 : In (w, ns) wi1
               \/ exists old, In (wd, old) wi1 /\ w = wd /\ ns = old ++ [name]).
  { destruct (mapGet wi1 wd) as [old|] eqn:E; [|now left].
    apply In_mapSet in H as [H|[-> ->]]; [now left|].
    right. exists old. split; [now apply mapGet_In|auto]. }
  destruct H2 as [H2|(old & H2 & -> & ->)].
  - destruct (H1 _ _ H2) as [->|H3]; [contradiction|]. left. eauto.
  - apply in_app_or in Hn as [Hn|[<-|[]]].
    + destruct (H1 _ _ H2) as [->|H3]; [contradiction|]. left. eauto.
    + right. split; [reflexivity|]. split; [reflexivity|discriminate].
Qed.

Lemma fold_addWord_names name words wi w ns n :
  In (w, ns) (fold_left (addWord name) words wi) -> In n ns ->
  (exists old, In (w, old) wi /\ In n old)
  \/ (n = name /\ In w words).
Proof.
  revert wi; induction words as [|word words IH]; intros wi H Hn; cbn [fold_left] in H.
  - left. eauto.
  - destruct (IH _ H Hn) as [(old & Ho & Hno)|[-> Hw]].
    + destruct (addWord_names _ _ _ _ _ _ Ho Hno) as [?|(-> & -> & _)]; [now left|].
      right. split; [reflexivity|now left].
    + right. split; [reflexivity|now right].
Qed.

Lemma sound_empty flag : sound toLowerCase (mkIndex [] [] flag).
Proof.
  split; [constructor|]. split; [intros k it []|intros word names n []].
Qed.

Lemma sound_addItem idx it : sound toLowerCase idx -> sound toLowerCase (addItem toLowerCase idx it).
Proof.
  intros (Hnd & Hkey & Hw). unfold addItem.
  set (nm := toLowerCase (name it)).
  split; [|split]; cbn [nameToItem wordIndex].
  - now apply mapSet_NoDup.
  - intros k it' H. apply In_mapSet in H as [H|[-> ->]]; [now apply Hkey|reflexivity].
  - intros word names n H Hn.
    assert (Hkeys : forall x, In x (map fst (nameToItem idx)) \/ x = nm ->
                      In x (map fst (mapSet (nameToItem idx) nm it))).
    { intros x Hx. rewrite mapSet_keys. unfold mapHas.
      destruct (mapGet (nameToItem idx) nm) as [v|] eqn:E.
      - destruct Hx as [Hx| ->]; [exact Hx|]. apply mapGet_keys. eauto.
      - apply in_or_app. destruct Hx as [Hx| ->]; [now left|right; now left]. }
    destruct (fold_addWord_names _ _ _ _ _ _ H Hn) as [(old & Ho & Hno)|[-> Hwd]].
    + destruct (Hw _ _ _ Ho Hno) as [H1 H2]. split; [apply Hkeys; now left|exact H2].
    + split; [apply Hkeys; now right|].
      apply newSet_strings_In in Hwd as [Hwd _]. now apply splitNonWord_substring.
Qed.

Lemma sound_fold items idx : sound toLowerCase idx -> sound toLowerCase (fold_left (addItem toLowerCase) items idx).
Proof.
  revert idx; induction items as [|it items IH]; intros idx H; cbn [fold_left]; auto.
  apply IH, sound_addItem, H.
Qed.

Lemma nameToItem_fold items idx :
  nameToItem (fold_left (addItem toLowerCase) items idx)
  = fold_left (fun m it => mapSet m (toLowerCase (name it)) it) items (nameToItem idx).
Proof.
  revert idx; induction items as [|it items IH]; intros idx; cbn [fold_left];
    [reflexivity|apply IH].
Qed.

Lemma partialIdSearch_fold items idx :
  partialIdSearch (fold_left (addItem toLowerCase) items idx) = partialIdSearch idx.
Proof.
  revert idx; induction items as [|it items IH]; intros idx; cbn [fold_left];
    [reflexivity|now rewrite IH].
Qed.

Lemma find_app_first {A} (p : A -> bool) l l' :
  find p (l ++ l') = match find p l with Some x => Some x | None => find p l' end.
Proof.
  induction l as [|x l IH]; cbn [app find]; [reflexivity|]. now destruct (p x).
Qed.

(** The entry of a key after the items were added: the last item of
    that key, or what the map held before. *)
Lemma mapGet_fold items m k :
  mapGet (fold_left (fun m it => mapSet m (toLowerCase (name it)) it) items m) k
  = match lastNamed toLowerCase k items with
    | Some it => Some it
    | None => mapGet m k
    end.
Proof.
  unfold lastNamed.
  revert m; induction items as [|it items IH]; intros m; cbn [fold_left rev find].
  - reflexivity.
  - rewrite IH, find_app_first. destruct (find _ (rev items)); [reflexivity|].
    cbn [find]. rewrite mapGet_mapSet. now destruct (jseq _ k).
Qed.

Lemma find_lastNamed k items it :
  lastNamed toLowerCase k items = Some it -> In it items /\ k = toLowerCase (name it).
Proof.
  unfold lastNamed. intros H. apply find_some in H as [H1 H2].
  apply in_rev in H1. apply jseq_spec in H2. auto.
Qed.

(** The items that an index built from [items] holds. *)
Lemma index_values items flag it :
  In it (map snd (nameToItem (HierarchicalIndex toLowerCase items flag)))
  <-> lastNamed toLowerCase (toLowerCase (name it)) items = Some it.
Proof.
  unfold Hierarchical.HierarchicalIndex.
  pose proof (sound_fold items (sound_empty flag)) as (Hnd & Hkey & _).
  rewrite nameToItem_fold in *. cbn [nameToItem] in *.
  set (m := fold_left _ items []) in *.
  assert (Hget : forall k, mapGet m k = lastNamed toLowerCase k items).
  { intros k. unfold m. rewrite mapGet_fold. now destruct (lastNamed toLowerCase k items). }
  split.
  - intros H. apply in_map_iff in H as ([k it'] & E & H). cbn in E. subst it'.
    rewrite <- Hget. pose proof (Hkey _ _ H) as ->. now apply In_mapGet.
  - intros H. rewrite <- Hget in H. apply mapGet_In in H.
    apply in_map_iff. exists (toLowerCase (name it), it). auto.
Qed.

(** The names that [partialSearch] collects. *)
Lemma results_In idx q y :
  sound toLowerCase idx ->
  let results :=
    fold_left (fun results name =>
                 if includesStr q name then setAdd results name else results)
      (map fst (nameToItem idx))
      (fold_left (fun results entry =>
                    if includesStr q (fst entry)
                    then fold_left setAdd (snd entry) results
                    else results)
         (wordIndex idx) []) in
  NoDup results
  /\ (In y results <-> In y (map fst (nameToItem idx)) /\ substring q y).
Proof.
  intros (Hnd & Hkey & Hw) results.
  assert (H1 : forall l s,
             let r := fold_left (fun results entry =>
                        if includesStr q (fst entry)
                        then fold_left setAdd (snd entry) results
                        else results) l s in
             (NoDup s -> NoDup r)
             /\ (In y r <-> In y s
                          \/ exists w ns, In (w, ns) l /\ includesStr q w = true
                                          /\ In y ns)).
  { induction l as [|[w ns] l IH]; intros s; cbn [fold_left fst snd].
    - split; [auto|]. split; [auto|]. intros [?|(w & ns & [] & _)]; assumption.
    - destruct (IH (if includesStr q w then fold_left setAdd ns s else s)) as [I1 I2].
      cbv zeta in I1, I2. split.
      + intros Hs. apply I1. destruct (includesStr q w); [now apply fold_setAdd_NoDup|exact Hs].
      + rewrite I2. destruct (includesStr q w) eqn:E.
        * rewrite fold_setAdd_In. split.
          -- intros [[?|?]|(w' & ns' & H & H')]; [now left| |].
             ++ right. exists w, ns. split; [now left|auto].
             ++ right. exists w', ns'. split; [now right|exact H'].
          -- intros [?|(w' & ns' & [[= <- <-]|H] & H' & H'')]; [now left; left| |].
             ++ left. now right.
             ++ right. eauto.
        * split.
          -- intros [?|(w' & ns' & H & H')]; [now left|].
             right. exists w', ns'. split; [now right|exact H'].
          -- intros [?|(w' & ns' & [[= <- <-]|H] & H' & H'')]; [now left|congruence|].
             right. eauto. }
  assert (H2 : forall l s,
             let r := fold_left (fun results name =>
                        if includesStr q name then setAdd results name else results)
                        l s in
             (NoDup s -> NoDup r)
             /\ (In y r <-> In y s \/ (In y l /\ includesStr q y = true))).
  { induction l as [|x l IH]; intros s; cbn [fold_left].
    - split; [auto|]. split; [auto|]. intros [?|[[] _]]; assumption.
    - destruct (IH (if includesStr q x then setAdd s x else s)) as [I1 I2].
      cbv zeta in I1, I2. split.
      + intros Hs. apply I1. destruct (includesStr q x); [now apply setAdd_NoDup|exact Hs].
      + rewrite I2. destruct (includesStr q x) eqn:E.
        * rewrite setAdd_In. cbn [In]. split.
          -- intros [[?| ->]|[? ?]]; auto.
          -- intros [?|[[->|?] ?]]; auto.
        * cbn [In]. split.
          -- intros [?|[? ?]]; auto.
          -- intros [?|[[->|?] ?]]; auto. congruence. }
  destruct (H1 (wordIndex idx) []) as [N1 M1].
  destruct (H2 (map fst (nameToItem idx))
               (fold_left (fun results entry =>
                    if includesStr q (fst entry)
                    then fold_left setAdd (snd entry) results
                    else results) (wordIndex idx) [])) as [N2 M2].
  cbv zeta in N1, M1, N2, M2. fold results in N2, M2.
  split; [apply N2, N1; constructor|].
  rewrite M2, M1. split.
  - intros [[[]|(w & ns & H & Hq & Hy)]|[H Hq]].
    + destruct (Hw _ _ _ H Hy) as [Hk Hs]. split; [exact Hk|].
      apply includesStr_spec in Hq. eapply substring_trans; eassumption.
    + split; [exact H|now apply includesStr_spec].
  - intros [H Hq]. right. split; [exact H|now apply includesStr_spec].
Qed.

End IndexFacts.

Section TreeFacts.
Import Hierarchical.

Lemma flat_map_map {A B C} (f : A -> list B) (g : B -> C) (l : list A) :
  map g (flat_map f l) = flat_map (fun x => map g (f x)) l.
Proof.
  induction l as [|x l IH]; cbn [flat_map map]; [reflexivity|].
  now rewrite map_app, IH.
Qed.

Lemma flat_map_ext_Forall {A B} (f g : A -> list B) (l : list A) :
  Forall (fun x => f x = g x) l -> flat_map f l = flat_map g l.
Proof.
  induction 1 as [|x l H _ IH]; cbn [flat_map]; [reflexivity|]. now rewrite H, IH.
Qed.

Lemma flatten_names joinIds n :
  forall parentId, map name (flatten joinIds parentId n []) = names n.
Proof.
  induction n as [nm i|nm i cs IH] using node_induction; intros parentId;
    rewrite flatten_unfold; cbn [map name names]; [reflexivity|].
  f_equal. rewrite flat_map_map. apply flat_map_ext_Forall.
  eapply Forall_impl; [|exact IH]. intros c Hc. apply Hc.
Qed.

Lemma flatten_rawIds n :
  forall parentId, map id (flatten false parentId n []) = rawIds n.
Proof.
  induction n as [nm i|nm i cs IH] using node_induction; intros parentId;
    rewrite flatten_unfold; cbn [map id rawIds andb]; [reflexivity|].
  f_equal. rewrite flat_map_map. apply flat_map_ext_Forall.
  eapply Forall_impl; [|exact IH]. intros c Hc. apply Hc.
Qed.

(** With joined identifiers, the list of a tree starts with the node
    under its full identifier, and every other identifier continues
    it. *)
Lemma flatten_joined n :
  forall parentId,
    exists root rest,
      flatten true parentId n [] = root :: rest
      /\ id root = (if isEmpty parentId
                    then match n with Node _ i _ => i end
                    else parentId ++ [ch "-"] ++ match n with Node _ i _ => i end)
      /\ (id root <> [] ->
          forall it, In it rest -> exists tail, id it = id root ++ [ch "-"] ++ tail).
Proof.
  induction n as [nm i|nm i cs IH] using node_induction; intros parentId;
    rewrite flatten_unfold; cbn [andb];
    set (fullId := if negb (isEmpty parentId) then parentId ++ [ch "-"] ++ i else i);
    eexists; eexists; (split; [reflexivity|]); cbn [id];
    (split; [subst fullId; now destruct (isEmpty parentId)|]).
  - intros _ it [].
  - intros Hne it Hin. apply in_flat_map in Hin as (c & Hc & Hin).
    rewrite Forall_forall in IH.
    destruct (IH c Hc fullId) as (root & rest & E & Hroot & Hrest).
    assert (Hemp : isEmpty fullId = false) by (destruct fullId; [congruence|reflexivity]).
    rewrite Hemp in Hroot. rewrite E in Hin. destruct Hin as [<-|Hin].
    + rewrite Hroot. eauto.
    + destruct (Hrest ltac:(rewrite Hroot; destruct fullId; discriminate) it Hin)
        as [tail Ht].
      rewrite Ht, Hroot. eexists. rewrite <- !app_assoc. reflexivity.
Qed.

End TreeFacts.

(** X12.  [flattenTree] appends to the array it is given and lists the
    nodes in preorder: the names of the result are the names of the
    tree, parent before children, children in order; without
    [joinIds] the identifiers are those of the nodes, whatever
    [parentId] is. *)
Theorem flattenTree_preorder :
  forall (n : Hierarchical.node) (parentId : jsstring)
         (result : option (list Hierarchical.item)) (joinIds : bool),
    Hierarchical.flattenTree n parentId result joinIds
    = match result with Some r => r | None => [] end
        ++ Hierarchical.flattenTree n parentId None joinIds
    /\ map Hierarchical.name (Hierarchical.flattenTree n parentId None joinIds)
       = names n
    /\ (joinIds = false ->
        map Hierarchical.id (Hierarchical.flattenTree n parentId None joinIds)
        = rawIds n).
Proof.
  intros n parentId result joinIds. unfold Hierarchical.flattenTree.
  split; [apply flatten_acc|]. split; [apply flatten_names|].
  intros ->. apply flatten_rawIds.
Qed.

(** X13.  [flattenTree] with [joinIds]: the node comes first, under
    its own identifier when [parentId] is empty and under
    [parentId-id] otherwise, and the identifier of every node below it
    continues that full identifier with a hyphen (unless the full
    identifier is the empty string). *)
Theorem flattenTree_joined_ids :
  forall (name i : jsstring) (children : option (list Hierarchical.node))
         (parentId : jsstring),
    exists root rest,
      Hierarchical.flattenTree (Hierarchical.Node name i children) parentId None true
      = root :: rest
      /\ Hierarchical.name root = name
      /\ Hierarchical.id root
         = (if Hierarchical.isEmpty parentId then i else parentId ++ js "-" ++ i)
      /\ (Hierarchical.id root <> [] ->
          forall it, In it rest ->
            exists tail, Hierarchical.id it = Hierarchical.id root ++ js "-" ++ tail).
Proof.
  intros name i children parentId. unfold Hierarchical.flattenTree.
  destruct (flatten_joined (Hierarchical.Node name i children) parentId)
    as (root & rest & E & Hid & Hrest).
  exists root, rest. split; [exact E|]. split; [|split; [exact Hid|exact Hrest]].
  pose proof (flatten_names true (Hierarchical.Node name i children) parentId) as Hn.
  rewrite E in Hn. cbn [map names] in Hn. now injection Hn.
Qed.

(** X14.  [exactSearch] on an index built from [items] returns the
    last item of the list whose lower-cased name is the lower-cased
    query; it returns [null] exactly when no item has that name. *)
Theorem exactSearch_last_item :
  forall (toLowerCase : jsstring -> jsstring) (items : list Hierarchical.item)
         (flag : bool) (query : jsstring),
    let idx := Hierarchical.HierarchicalIndex toLowerCase items flag in
    Hierarchical.exactSearch toLowerCase idx query
    = lastNamed toLowerCase (toLowerCase query) items
    /\ (forall it, Hierarchical.exactSearch toLowerCase idx query = Some it ->
          In it items
          /\ toLowerCase (Hierarchical.name it) = toLowerCase query)
    /\ (Hierarchical.exactSearch toLowerCase idx query = None <->
        forall it, In it items ->
          toLowerCase (Hierarchical.name it) <> toLowerCase query).
Proof.
  intros toLowerCase items flag query idx.
  assert (E : Hierarchical.exactSearch toLowerCase idx query
              = lastNamed toLowerCase (toLowerCase query) items).
  { unfold Hierarchical.exactSearch, idx, Hierarchical.HierarchicalIndex.
    rewrite nameToItem_fold, mapGet_fold. cbn.
    now destruct (lastNamed toLowerCase (toLowerCase query) items). }
  split; [exact E|]. rewrite E. split.
  - intros it H. apply find_lastNamed in H as [H1 H2]. auto.
  - unfold lastNamed. split.
    + intros H it Hin Heq.
      pose proof (find_none _ _ H it (proj1 (in_rev _ _) Hin)) as Hf.
      cbv beta in Hf. rewrite Heq, jseq_refl in Hf. discriminate.
    + intros H. destruct (find _ (rev items)) as [it|] eqn:F; [|reflexivity].
      apply find_some in F as [F1 F2]. apply jseq_spec in F2.
      exfalso. apply (H it); [now apply in_rev|exact F2].
Qed.

(** X15.  [partialSearch] on an index built from [items] returns,
    each once and never [undefined], exactly the items held by the
    index (the last item of every lower-cased name) whose lower-cased
    name contains the lower-cased query; the inverted index of words
    adds nothing to that set. *)
Theorem partialSearch_contains :
  forall (toLowerCase : jsstring -> jsstring) (items : list Hierarchical.item)
         (flag : bool) (query : jsstring),
    let idx := Hierarchical.HierarchicalIndex toLowerCase items flag in
    let found := Hierarchical.partialSearch toLowerCase idx query in
    ~ In None found
    /\ NoDup found
    /\ forall it,
         In (Some it) found
         <-> lastNamed toLowerCase (toLowerCase (Hierarchical.name it)) items = Some it
             /\ substring (toLowerCase query) (toLowerCase (Hierarchical.name it)).
Proof.
  intros toLowerCase items flag query idx found.
  assert (Hs : sound toLowerCase idx)
    by (apply sound_fold, sound_empty).
  pose proof Hs as (Hnd & Hkey & _).
  assert (Hval : forall it, In it (map snd (Hierarchical.nameToItem idx))
                            <-> lastNamed toLowerCase
                                  (toLowerCase (Hierarchical.name it)) items = Some it)
    by (intros it; apply index_values).
  unfold found, Hierarchical.partialSearch.
  set (q := toLowerCase query).
  set (results := fold_left _ (map fst (Hierarchical.nameToItem idx)) _).
  assert (Hres : NoDup results
                 /\ forall y, In y results
                              <-> In y (map fst (Hierarchical.nameToItem idx))
                                  /\ substring q y).
  { split; [apply (results_In q [] Hs)|]. intros y. apply (results_In q y Hs). }
  destruct Hres as [Hrnd Hrin].
  split; [|split].
  - intros H. apply in_map_iff in H as (y & Hy & Hin).
    apply Hrin in Hin as [Hk _]. apply mapGet_keys in Hk as [v Hv]. congruence.
  - apply NoDup_map_NoDup_ForallPairs; [|exact Hrnd].
    intros y1 y2 H1 H2 E.
    apply Hrin in H1 as [H1 _]. apply mapGet_keys in H1 as [v1 Hv1].
    rewrite Hv1 in E. symmetry in E.
    apply mapGet_In in Hv1, E. apply Hkey in Hv1, E. congruence.
  - intros it. rewrite in_map_iff. split.
    + intros (y & Hy & Hin). apply Hrin in Hin as [_ Hsub].
      apply mapGet_In in Hy. pose proof (Hkey _ _ Hy) as ->.
      split; [|exact Hsub]. apply Hval. apply in_map_iff.
      exists (toLowerCase (Hierarchical.name it), it). auto.
    + intros [Hlast Hsub]. apply Hval in Hlast.
      apply in_map_iff in Hlast as ([k it'] & E & Hin). cbn in E. subst it'.
      pose proof (Hkey _ _ Hin) as ->.
      exists (toLowerCase (Hierarchical.name it)). split; [now apply In_mapGet|].
      apply Hrin. split; [|exact Hsub].
      apply in_map_iff. exists (toLowerCase (Hierarchical.name it), it). auto.
Qed.

(** X16.  [idSearch] on an index built from [items] returns exactly
    the items held by the index whose identifier contains the query
    (with [partialIdSearch]) or equals it (without).  On the index of a
    tree with joined identifiers, the root's identifier finds every
    item. *)
Theorem idSearch_index :
  (forall (toLowerCase : jsstring -> jsstring) (items : list Hierarchical.item)
          (flag : bool) (idQuery : jsstring) (it : Hierarchical.item),
      In it (Hierarchical.idSearch
               (Hierarchical.HierarchicalIndex toLowerCase items flag) idQuery)
      <-> lastNamed toLowerCase (toLowerCase (Hierarchical.name it)) items = Some it
          /\ (if flag then substring idQuery (Hierarchical.id it)
              else Hierarchical.id it = idQuery))
  /\
  (forall (toLowerCase : jsstring -> jsstring)
          (name i : jsstring) (children : option (list Hierarchical.node)),
      let idx := Hierarchical.createHierarchicalIndex toLowerCase
                   (Hierarchical.Node name i children) true in
      Hierarchical.idSearch idx i = map snd (Hierarchical.nameToItem idx)).
Proof.
  split.
  - intros toLowerCase items flag idQuery it.
    unfold Hierarchical.idSearch.
    assert (Hp : Hierarchical.partialIdSearch
                   (Hierarchical.HierarchicalIndex toLowerCase items flag) = flag)
      by (unfold Hierarchical.HierarchicalIndex; now rewrite partialIdSearch_fold).
    rewrite Hp. destruct flag; rewrite filter_In, index_values.
    + now rewrite includesStr_spec.
    + now rewrite jseq_spec.
  - intros toLowerCase name i children idx.
    unfold Hierarchical.idSearch.
    assert (Hp : Hierarchical.partialIdSearch idx = true)
      by (unfold idx, Hierarchical.createHierarchicalIndex,
            Hierarchical.HierarchicalIndex; now rewrite partialIdSearch_fold).
    rewrite Hp. apply forallb_filter_id. apply forallb_forall. intros it Hin.
    apply includesStr_spec.
    unfold idx, Hierarchical.createHierarchicalIndex in Hin.
    apply index_values, find_lastNamed in Hin as [Hin _].
    unfold Hierarchical.flattenTree in Hin.
    destruct (flatten_joined (Hierarchical.Node name i children) [])
      as (root & rest & E & Hid & Hrest).
    cbn [Hierarchical.isEmpty] in Hid. rewrite E in Hin.
    destruct Hin as [<-|Hin].
    + rewrite Hid. exists [], []. now rewrite app_nil_r.
    + destruct i as [|c i].
      * exists [], (Hierarchical.id it). reflexivity.
      * destruct (Hrest ltac:(rewrite Hid; discriminate) it Hin) as [tail ->].
        rewrite Hid. exists [], ([ch "-"] ++ tail). reflexivity.
Qed.

